(** * The TVL aggregation pipeline of the Suilend strategies monitor

    A shallow embedding of [calculateStrategyWrapperTVL]
    (src/src/TVLMonitor.tsx, lines 120-679) and the properties of its
    adaptive batch controller, retry loops, cleanup pass and report.

    Conventions of the embedding.
    - JavaScript numbers that hold counts, sizes and delays are [Z].
    - USD amounts are IEEE 754 doubles ([float]), as in the code: the
      wire value [v] is an integer, [Number(v)] is the nearest double
      and [/ 10 ** 18], the sums and the sort comparator are the
      operations on doubles.
    - The batch success rate [(batchSuccesses / batch.length) * 100] is an
      exact rational ([Q]); an empty batch gives 0/0, which [Q] evaluates
      to 0 and JavaScript to NaN: both fail [>= 95] and [>= 90].
    - [Math.ceil(batch.length * 0.2)] is the integer ceiling of a fifth of
      the length.
    - A batch holds at most 20 records; for these the comparisons on
      exact numbers are checked against IEEE 754 doubles
      ([thresholds_agree_up_to_20]).
    - The remote services are an oracle ([Remote]).  Every await is run to
      completion before the next one starts; the requests of one
      [Promise.all] are answered in array order.  The n-th call of
      [getObligation] is answered by the oracle at n, so that any
      interleaving of answers is some oracle.
    - [addResult] lines are constructors of [Line] that carry the numbers
      the line prints; lines that print no program data are left out. *)

From Stdlib Require Import QArith Qround Floats.
From stdpp Require Import base numbers list strings gmap sorting pretty.

Open Scope Z_scope.

(** ** Data model (lines 18-41) *)

Record StrategyCapInfo := mkStrategyCapInfo {
  objectId : string;
  obligationId : string;
  strategyType : Z;
  owner : string
}.

(** [ObligationSummary]; the fields copied from the capability keep the
    capability's names with a prefix. *)
Record ObligationSummary := mkObligationSummary {
  sum_obligationId : string;
  deposited_value_usd : float;
  unweighted_borrowed_value_usd : float;
  net_value_usd : float;
  sum_strategyType : Z;
  sum_owner : string;
  sum_objectId : string
}.

Record TVLSummary := mkTVLSummary {
  totalTVL : float;
  totalDeposits : float;
  totalBorrows : float;
  strategyCount : Z;
  obligations : list ObligationSummary
}.

(** ** What the remote services return *)

(** [event.parsedJson] when it is an object, and its [cap_id]. *)
Record SuiEvent := mkSuiEvent {
  parsedJson : option (option string)
}.

Record EventPage := mkEventPage {
  data : list SuiEvent;
  hasNextPage : bool;
  nextCursor : option nat
}.

(** [content.fields] of a StrategyOwnerCap: [inner_cap] is [None] when the
    field is null or carries no [fields], otherwise its [obligation_id]. *)
Record CapFields := mkCapFields {
  inner_cap : option string;
  strategy_type : Z
}.

(** [obj.data]: [content_fields] is [None] when there is no content or no
    ["fields"] in it; [addressOwner] is [owner?.AddressOwner]. *)
Record SuiObject := mkSuiObject {
  data_objectId : string;
  content_fields : option CapFields;
  addressOwner : option string
}.

(** The value of [suilendClient.getObligation]: the two decimals read
    through [?.value], integers in units of 10^-18 USD. *)
Record Obligation := mkObligation {
  depositedValueUsd : option Z;
  unweightedBorrowedValueUsd : option Z
}.

(** The collaborators.  [None] is a thrown error (or, for [getObject], an
    answer without [data] or with [error]). *)
Record Remote := mkRemote {
  queryEvents : option nat -> option EventPage;
  getObject : Z -> string -> option SuiObject;
  initialize : bool;
  getObligation : nat -> string -> option Obligation
}.

(** ** Effects: log lines, sleeps and remote calls *)

Inductive Line :=
| LPage (pageCount events total : Z)
| LEventsFound (total pageCount : Z)
| LExtractedIds (count : Z)
| LChunk (number chunks size : Z)
| LNotFound (notFoundCount : Z)
| LFoundCaps (count : Z)
| LNoCaps
| LValidObligations (count : Z)
| LBatch (batchNum totalBatches size currentBatchSize currentDelay : Z)
| LProcessing (position total : Z) (id : string) (attempt : Z)
| LSuccess (deposited borrowed : float)
| LAttemptFailed (attempt : Z)
| LFinalFailure
| LAggressive (batchFailures currentBatchSize currentDelay : Z)
| LCautious (batchFailures currentBatchSize currentDelay : Z)
| LExitRecovery (consecutiveSuccesses : Z)
| LSpeedUp (currentBatchSize currentDelay : Z)
| LRecoveryMaintain
| LBatchResults (batchSuccesses batchFailures : Z) (rate : Q) (recovery : bool)
| LWaiting (currentDelay : Z)
| LCleanupPass (initialFailedCount : Z)
| LCleanupRetrying (count : Z)
| LCleanupItem (position total : Z) (id : string)
| LCleanupAttempt (attempt : Z)
| LCleanupSuccess (deposited borrowed : float)
| LCleanupAttemptFailed (attempt : Z)
| LCleanupBackoff (backoffDelay : Z)
| LCleanupFailed
| LCleanupComplete (cleanupSuccesses total : Z)
| LCleanupImproved (before after total : Z)
| LSummary (successful attempted : Z)
| LFinalSettings (currentBatchSize currentDelay : Z) (recovery : bool)
| LAdaptive (consecutiveSuccesses : Z)
| LFailureHandling
| LFinalFailed (failedObligations : Z)
| LCleanupRecovery (recovered initialFailedCount : Z)
| LStillRecovery
| LPerfect (attempted initialFailedCount : Z)
| LComplete (tvl deposits borrows : float) (count : Z)
| LError.

Inductive Rpc :=
| QueryEvents (cursor : option nat)
| GetObject (id : string)
| Initialize
| GetObligation (id : string).

Inductive Effect :=
| Say (l : Line)
| Sleep (ms : Z)
| Call (r : Rpc).

(** The world: how many [getObligation] calls were issued, and everything
    that happened so far, oldest first. *)
Record World := mkWorld {
  calls : nat;
  trace : list Effect
}.

Definition M (A : Type) : Type := World -> A * World.

Definition ret {A} (a : A) : M A := fun w => (a, w).

Definition bind {A B} (m : M A) (k : A -> M B) : M B :=
  fun w => let (a, w') := m w in k a w'.

Notation "'let*' x ':=' m 'in' k" := (bind m (fun x => k))
  (at level 10, x name, m at level 200, k at level 200).
Notation "m ';;;' k" := (bind m (fun _ => k))
  (at level 100, k at level 200, right associativity).

Definition emit (e : Effect) : M unit :=
  fun w => (tt, mkWorld (calls w) (trace w ++ [e])).

Definition addResult (l : Line) : M unit := emit (Say l).

Definition setTimeout (ms : Z) : M unit := emit (Sleep ms).

Definition when (b : bool) (m : M unit) : M unit :=
  if b then m else ret tt.

Definition len {A} (l : list A) : Z := Z.of_nat (length l).

(** [Array.prototype.slice(start, end)]. *)
Definition slice {A} (l : list A) (start stop : Z) : list A :=
  let k := if start <? 0 then Z.max (len l + start) 0
           else Z.min start (len l) in
  let final := if stop <? 0 then Z.max (len l + stop) 0
               else Z.min stop (len l) in
  take (Z.to_nat (final - k)) (drop (Z.to_nat k) l).

Section Pipeline.

Variable remote : Remote.

(** ** Step 1: event paginator (lines 132-166) *)

(** [fuel] is the number of pages still allowed by [pageCount < 20]. *)
Fixpoint fetchPages (fuel : nat) (pageCount : Z) (cursor : option nat)
    (allCreatedEvents : list SuiEvent) : M (option (list SuiEvent * Z)) :=
  match fuel with
  | O => ret (Some (allCreatedEvents, pageCount))
  | S fuel' =>
    emit (Call (QueryEvents cursor));;;
    match queryEvents remote cursor with
    | None => ret None
    | Some createdEvents =>
      let all := allCreatedEvents ++ data createdEvents in
      let pageCount' := pageCount + 1 in
      addResult (LPage pageCount' (len (data createdEvents)) (len all));;;
      if hasNextPage createdEvents
      then fetchPages fuel' pageCount' (nextCursor createdEvents) all
      else ret (Some (all, pageCount'))
    end
  end.

(** Lines 169-181: the cap id of an event, normalised to the 0x prefix. *)
Definition capIdOf (event : SuiEvent) : option string :=
  match parsedJson event with
  | Some (Some cap_id) =>
    if String.eqb cap_id "" then None
    else if String.prefix "0x" cap_id then Some cap_id
    else Some ("0x" +:+ cap_id)
  | _ => None
  end.

Definition extractCapIds (events : list SuiEvent) : list string :=
  omap capIdOf events.

(** ** Object resolver (lines 188-237) *)

(** One chunk: [Promise.all(batch.map(...))] followed by the loop that
    sorts the answers into found and not found. *)
Fixpoint resolveChunk (index : Z) (batch : list string)
    (found : list SuiObject) (notFoundCount : Z)
    : M (list SuiObject * Z) :=
  match batch with
  | [] => ret (found, notFoundCount)
  | capId :: rest =>
    emit (Call (GetObject capId));;;
    match getObject remote index capId with
    | Some obj => resolveChunk (index + 1) rest (found ++ [obj]) notFoundCount
    | None => resolveChunk (index + 1) rest found (notFoundCount + 1)
    end
  end.

Definition chunkSize : Z := 50.

Fixpoint resolveLoop (fuel : nat) (i : Z) (strategyCapIds : list string)
    (found : list SuiObject) (notFoundCount : Z)
    : M (list SuiObject * Z) :=
  match fuel with
  | O => ret (found, notFoundCount)
  | S fuel' =>
    if i <? len strategyCapIds then
      let batch := slice strategyCapIds i (i + chunkSize) in
      addResult (LChunk (i / chunkSize + 1)
                        ((len strategyCapIds + chunkSize - 1) / chunkSize)
                        (len batch));;;
      let* r := resolveChunk i batch found notFoundCount in
      resolveLoop fuel' (i + chunkSize) strategyCapIds (fst r) (snd r)
    else ret (found, notFoundCount)
  end.

Definition resolveObjects (strategyCapIds : list string)
    : M (list SuiObject) :=
  let* r := resolveLoop (S (length strategyCapIds)) 0 strategyCapIds [] 0 in
  let allStrategyCaps := fst r in
  let notFoundCount := snd r in
  when (0 <? notFoundCount) (addResult (LNotFound notFoundCount));;;
  addResult (LFoundCaps (len allStrategyCaps));;;
  ret allStrategyCaps.

(** Discovery: paginator, id extraction and resolver.  [None] when
    [queryEvents] throws. *)
Definition discover : M (option (list SuiObject)) :=
  let* pages := fetchPages 20 0 None [] in
  match pages with
  | None => ret None
  | Some (allCreatedEvents, pageCount) =>
    addResult (LEventsFound (len allCreatedEvents) pageCount);;;
    let strategyCapIds := extractCapIds allCreatedEvents in
    addResult (LExtractedIds (len strategyCapIds));;;
    let* found := resolveObjects strategyCapIds in
    ret (Some found)
  end.

(** ** Step 2: field extractor (lines 246-264) *)

Definition extractCapInfo (capObj : SuiObject) : option StrategyCapInfo :=
  match content_fields capObj with
  | Some fields =>
    match inner_cap fields with
    | Some obligation_id =>
      Some (mkStrategyCapInfo
              (data_objectId capObj)
              obligation_id
              (strategy_type fields)
              (match addressOwner capObj with
               | Some a => if String.eqb a "" then "Unknown" else a
               | None => "Unknown"
               end))
    | None => None
    end
  | None => None
  end.

Definition extractCapInfos (caps : list SuiObject) : list StrategyCapInfo :=
  omap extractCapInfo caps.

(** ** Step 4: adaptive batch fetcher (lines 275-473) *)

(** The [getObligation] call: the oracle answers the call by its number. *)
Definition callGetObligation (id : string) : M (option Obligation) :=
  fun w => (getObligation remote (calls w) id,
            mkWorld (S (calls w)) (trace w ++ [Call (GetObligation id)])).

(** [Number(z)] for an integer [z]: the nearest double, ties to even,
    an infinity beyond the range. *)
Definition Number (z : Z) : float :=
  SF2Prim (binary_normalize prec emax z 0 false).

(** Lines 318-333 and 518-533: the summary built from an answer;
    [x?.value || 0] is [default 0], [10 ** 18] is the double 1e18. *)
Definition summarize (capInfo : StrategyCapInfo) (obligation : Obligation)
    : ObligationSummary :=
  let depositedUSD :=
    (Number (default 0%Z (depositedValueUsd obligation)) / 1e18)%float in
  let borrowedUSD :=
    (Number (default 0%Z (unweightedBorrowedValueUsd obligation))
     / 1e18)%float in
  let netValueUSD := (depositedUSD - borrowedUSD)%float in
  mkObligationSummary (obligationId capInfo) depositedUSD borrowedUSD
    netValueUSD
    (strategyType capInfo) (owner capInfo) (objectId capInfo).

(** Lines 307-356: the retry loop of one record; [fuel] counts the
    iterations that [attempt <= 3] still allows. *)
Fixpoint fetchAttempts (fuel : nat) (attempt total globalIndex : Z)
    (capInfo : StrategyCapInfo) : M (option ObligationSummary) :=
  match fuel with
  | O => ret None
  | S fuel' =>
    addResult (LProcessing (globalIndex + 1) total
                 (obligationId capInfo) attempt);;;
    let* answer := callGetObligation (obligationId capInfo) in
    match answer with
    | Some obligation =>
      let obligationData := summarize capInfo obligation in
      addResult (LSuccess (deposited_value_usd obligationData)
                   (unweighted_borrowed_value_usd obligationData));;;
      ret (Some obligationData)
    | None =>
      addResult (LAttemptFailed attempt);;;
      if attempt =? 3 then addResult LFinalFailure;;; ret None
      else setTimeout (attempt * 1000);;;
           fetchAttempts fuel' (attempt + 1) total globalIndex capInfo
    end
  end.

Definition fetchWithRetry (total globalIndex : Z)
    (capInfo : StrategyCapInfo) : M (option ObligationSummary) :=
  fetchAttempts 3 1 total globalIndex capInfo.

(** Lines 303-359: [Promise.all(batch.map(...))]. *)
Fixpoint processBatch (total i batchIndex : Z) (batch : list StrategyCapInfo)
    : M (list (option ObligationSummary)) :=
  match batch with
  | [] => ret []
  | capInfo :: rest =>
    let* result := fetchWithRetry total (i + batchIndex) capInfo in
    let* results := processBatch total i (batchIndex + 1) rest in
    ret (result :: results)
  end.

(** The running result list and sums (lines 275-278). *)
Record Totals := mkTotals {
  acc_obligations : list ObligationSummary;
  acc_totalTVL : float;
  acc_totalDeposits : float;
  acc_totalBorrows : float
}.

(** Lines 368-371 and 535-538: [+=] on doubles. *)
Definition pushSummary (t : Totals) (result : ObligationSummary) : Totals :=
  mkTotals (acc_obligations t ++ [result])
           (acc_totalTVL t + deposited_value_usd result)
           (acc_totalDeposits t + deposited_value_usd result)
           (acc_totalBorrows t + unweighted_borrowed_value_usd result).

(** Lines 362-376: merge the answers of a batch and count them. *)
Fixpoint collect (batchResults : list (option ObligationSummary))
    (t : Totals) (batchSuccesses batchFailures : Z) : Totals * Z * Z :=
  match batchResults with
  | [] => (t, batchSuccesses, batchFailures)
  | Some result :: rest =>
    collect rest (pushSummary t result) (batchSuccesses + 1) batchFailures
  | None :: rest =>
    collect rest t batchSuccesses (batchFailures + 1)
  end.

End Pipeline.

(** ** The batch controller (lines 283-289, 379-450) *)

Record Controller := mkController {
  currentBatchSize : Z;
  currentDelay : Z;
  consecutiveSuccesses : Z;
  consecutiveFailures : Z;
  failureRecoveryMode : bool;
  lastFailureCount : Z
}.

Definition initialController : Controller :=
  mkController 15 300 0 0 false 0.

(** Line 379. *)
Definition batchSuccessRate (batchSuccesses size : Z) : Q :=
  (inject_Z batchSuccesses / inject_Z size) * 100.

Definition Qltb (x y : Q) : bool := negb (Qle_bool y x).

(** Line 382. *)
Definition hasAnyFailures (batchFailures : Z) : bool := 0 <? batchFailures.

(** Lines 383-384. *)
Definition hasSignificantFailures (batchFailures size : Z) : bool :=
  Qceiling (inject_Z size * (2 # 10)) <? batchFailures.

(** The arm of the if / else-if chain of lines 387-450 that a batch takes. *)
Inductive Branch :=
| Aggressive
| Cautious
| Perfect
| Good
| Otherwise.

Definition classify (batchSuccesses batchFailures size : Z) : Branch :=
  let rate := batchSuccessRate batchSuccesses size in
  if hasAnyFailures batchFailures then
    if hasSignificantFailures batchFailures size || Qltb rate 70
    then Aggressive else Cautious
  else if Qle_bool 95 rate then Perfect
  else if Qle_bool 90 rate then Good
  else Otherwise.

(** The controller after a batch, and the lines it logs. *)
Definition adjust (c : Controller) (batchSuccesses batchFailures size : Z)
    : Controller * list Line :=
  match classify batchSuccesses batchFailures size with
  | Aggressive =>
    let size' := Z.max (currentBatchSize c - 5) 3 in
    let delay' := Z.min (currentDelay c + 400) 2000 in
    (mkController size' delay' 0 (consecutiveFailures c + 1) true
                  batchFailures,
     [LAggressive batchFailures size' delay'])
  | Cautious =>
    let size' := Z.max (currentBatchSize c - 2) 5 in
    let delay' := Z.min (currentDelay c + 200) 2000 in
    (mkController size' delay' (consecutiveSuccesses c)
                  (consecutiveFailures c) (failureRecoveryMode c)
                  batchFailures,
     [LCautious batchFailures size' delay'])
  | Perfect =>
    let successes := consecutiveSuccesses c + 1 in
    let leave := failureRecoveryMode c && (3 <=? successes) in
    let recovery := if leave then false else failureRecoveryMode c in
    let speedUp := negb recovery && (2 <=? successes) in
    let size' := if speedUp then Z.min (currentBatchSize c + 3) 20
                 else currentBatchSize c in
    let delay' := if speedUp then Z.max (currentDelay c - 100) 100
                  else currentDelay c in
    (mkController size' delay' successes 0 recovery (lastFailureCount c),
     (if leave then [LExitRecovery successes] else [])
     ++ (if speedUp then [LSpeedUp size' delay'] else []))
  | Good =>
    (mkController (currentBatchSize c) (currentDelay c)
                  (consecutiveSuccesses c + 1) 0 (failureRecoveryMode c)
                  (lastFailureCount c),
     if failureRecoveryMode c then [LRecoveryMaintain] else [])
  | Otherwise =>
    (mkController (currentBatchSize c) (currentDelay c) 0
                  (if hasAnyFailures batchFailures
                   then consecutiveFailures c else 0)
                  (failureRecoveryMode c) (lastFailureCount c),
     [])
  end.

(** The variables of the [for] loop of lines 291-473. *)
Record LoopState := mkLoopState {
  loop_i : Z;
  controller : Controller;
  totals : Totals;
  totalProcessed : Z
}.

Definition initialLoopState : LoopState :=
  mkLoopState 0 initialController (mkTotals [] 0 0 0) 0.

Fixpoint addResults (lines : list Line) : M unit :=
  match lines with
  | [] => ret tt
  | l :: rest => addResult l;;; addResults rest
  end.

Section MainPass.

Variable remote : Remote.
Variable strategyCapInfos : list StrategyCapInfo.

(** The batch of an iteration (line 292). *)
Definition batchOf (st : LoopState) : list StrategyCapInfo :=
  slice strategyCapInfos (loop_i st)
        (loop_i st + currentBatchSize (controller st)).

(** Lines 298-376 of an iteration: the batch is fetched and its answers
    are merged and counted. *)
Definition runBatch (st : LoopState) : M (Totals * Z * Z) :=
  let total := len strategyCapInfos in
  let i := loop_i st in
  let c := controller st in
  let batch := batchOf st in
  addResult (LBatch (i / currentBatchSize c + 1)
                    ((total + currentBatchSize c - 1) / currentBatchSize c)
                    (len batch) (currentBatchSize c) (currentDelay c));;;
  let* batchResults := processBatch remote total i 0 batch in
  ret (collect batchResults (totals st) 0 0).

(** One iteration of the loop, its update [i += currentBatchSize]
    included: the update reads the batch size the body has just set. *)
Definition mainIteration (st : LoopState) : M LoopState :=
  let total := len strategyCapInfos in
  let i := loop_i st in
  let c := controller st in
  let batch := batchOf st in
  let* counted := runBatch st in
  let totals' := fst (fst counted) in
  let batchSuccesses := snd (fst counted) in
  let batchFailures := snd counted in
  let adjusted := adjust c batchSuccesses batchFailures (len batch) in
  let c' := fst adjusted in
  addResults (snd adjusted);;;
  addResult (LBatchResults batchSuccesses batchFailures
               (batchSuccessRate batchSuccesses (len batch))
               (failureRecoveryMode c'));;;
  when (i + currentBatchSize c' <? total)
       (when ((400 <? currentDelay c') || failureRecoveryMode c')
             (addResult (LWaiting (currentDelay c')));;;
        setTimeout (currentDelay c'));;;
  ret (mkLoopState (i + currentBatchSize c') c' totals'
                   (totalProcessed st + len batch)).

(** The loop; [None] when [fuel] iterations did not reach the end. *)
Fixpoint mainLoop (fuel : nat) (st : LoopState) : M (option LoopState) :=
  match fuel with
  | O => ret None
  | S fuel' =>
    if loop_i st <? len strategyCapInfos then
      let* st' := mainIteration st in
      mainLoop fuel' st'
    else ret (Some st)
  end.

(** The states the loop passes through at the head of an iteration, from
    the world [w0] in which the main pass starts. *)
Inductive reachable (w0 : World) : LoopState -> World -> Prop :=
| reach_start : reachable w0 initialLoopState w0
| reach_next st w :
    reachable w0 st w ->
    loop_i st < len strategyCapInfos ->
    reachable w0 (fst (mainIteration st w)) (snd (mainIteration st w)).

End MainPass.

(** ** Step 4.5: cleanup pass (lines 476-586) *)

Section Cleanup.

Variable remote : Remote.

(** Lines 509-560: up to five attempts for one record; the result is the
    running totals, [cleanupSuccesses] and [cleanupSuccess]. *)
Fixpoint cleanupAttempts (fuel : nat) (attempt : Z)
    (capInfo : StrategyCapInfo) (t : Totals) (cleanupSuccesses : Z)
    : M (Totals * Z * bool) :=
  match fuel with
  | O => ret (t, cleanupSuccesses, false)
  | S fuel' =>
    addResult (LCleanupAttempt attempt);;;
    let* answer := callGetObligation remote (obligationId capInfo) in
    match answer with
    | Some obligation =>
      let obligationData := summarize capInfo obligation in
      addResult (LCleanupSuccess (deposited_value_usd obligationData)
                   (unweighted_borrowed_value_usd obligationData));;;
      ret (pushSummary t obligationData, cleanupSuccesses + 1, true)
    | None =>
      addResult (LCleanupAttemptFailed attempt);;;
      when (attempt <? 5)
           (addResult (LCleanupBackoff (attempt * 2000));;;
            setTimeout (attempt * 2000));;;
      cleanupAttempts fuel' (attempt + 1) capInfo t cleanupSuccesses
    end
  end.

Definition cleanupDelay : Z := 1500.

(** Lines 501-572: the records one by one; [i] is the index of the head
    of [rest] in [failedCapInfos], whose length is [total]. *)
Fixpoint cleanupLoop (i total : Z) (rest : list StrategyCapInfo)
    (t : Totals) (cleanupSuccesses : Z) : M (Totals * Z) :=
  match rest with
  | [] => ret (t, cleanupSuccesses)
  | capInfo :: rest' =>
    addResult (LCleanupItem (i + 1) total (obligationId capInfo));;;
    let* r := cleanupAttempts 5 1 capInfo t cleanupSuccesses in
    let t' := fst (fst r) in
    let cleanupSuccesses' := snd (fst r) in
    let cleanupSuccess := snd r in
    when (negb cleanupSuccess) (addResult LCleanupFailed);;;
    when (i <? total - 1) (setTimeout cleanupDelay);;;
    cleanupLoop (i + 1) total rest' t' cleanupSuccesses'
  end.

(** Line 488. *)
Definition successfulIdsOf (obligations : list ObligationSummary)
    : gset string :=
  list_to_set (sum_obligationId <$> obligations).

(** Lines 489-491. *)
Definition failedCapInfosOf (strategyCapInfos : list StrategyCapInfo)
    (obligations : list ObligationSummary) : list StrategyCapInfo :=
  filter (fun cap => obligationId cap ∉ successfulIdsOf obligations)
         strategyCapInfos.

(** Lines 476-586; the result is the totals and [initialFailedCount]. *)
Definition cleanupPass (strategyCapInfos : list StrategyCapInfo)
    (t : Totals) : M (Totals * Z) :=
  let initialSuccessCount := len (acc_obligations t) in
  let initialFailedCount := len strategyCapInfos - initialSuccessCount in
  if 0 <? initialFailedCount then
    addResult (LCleanupPass initialFailedCount);;;
    let failedCapInfos :=
      failedCapInfosOf strategyCapInfos (acc_obligations t) in
    addResult (LCleanupRetrying (len failedCapInfos));;;
    let* r := cleanupLoop 0 (len failedCapInfos) failedCapInfos t 0 in
    let t' := fst r in
    let cleanupSuccesses := snd r in
    addResult (LCleanupComplete cleanupSuccesses (len failedCapInfos));;;
    when (0 <? cleanupSuccesses)
         (addResult (LCleanupImproved initialSuccessCount
                       (len (acc_obligations t')) (len strategyCapInfos)));;;
    ret (t', initialFailedCount)
  else ret (t, 0).

End Cleanup.

(** ** Step 5: the report (lines 589-673) *)

(** [Array.prototype.sort(compare)]: the stable sort; for a consistent
    comparator its result is the only stable sorted arrangement.  [y]
    goes before the earlier [x] only when [compare x y] is positive; a
    result that is NaN counts as 0. *)
Fixpoint insertBy {A} (compare : A -> A -> float) (x : A) (l : list A)
    : list A :=
  match l with
  | [] => [x]
  | y :: l' =>
    if (0 <? compare x y)%float then y :: insertBy compare x l'
    else x :: y :: l'
  end.

Definition sortBy {A} (compare : A -> A -> float) (l : list A) : list A :=
  foldr (insertBy compare) [] l.

(** Line 657: the difference of two doubles. *)
Definition byDepositsDescending (a b : ObligationSummary) : float :=
  (deposited_value_usd b - deposited_value_usd a)%float.

(** Lines 651-659. *)
Definition tvlSummaryOf (t : Totals) : TVLSummary :=
  let successfulObligations := len (acc_obligations t) in
  mkTVLSummary (acc_totalTVL t) (acc_totalDeposits t) (acc_totalBorrows t)
               successfulObligations
               (sortBy byDepositsDescending (acc_obligations t)).

(** Lines 589-673: the summary lines and the report. *)
Definition compileResults (strategyCapInfos : list StrategyCapInfo)
    (c : Controller) (t : Totals) (initialFailedCount : Z)
    : M TVLSummary :=
  let successfulObligations := len (acc_obligations t) in
  let totalAttempted := len strategyCapInfos in
  let failedObligations := totalAttempted - successfulObligations in
  addResult (LSummary successfulObligations totalAttempted);;;
  addResult (LFinalSettings (currentBatchSize c) (currentDelay c)
               (failureRecoveryMode c));;;
  addResult (LAdaptive (consecutiveSuccesses c));;;
  when (0 <? lastFailureCount c) (addResult LFailureHandling);;;
  (if 0 <? failedObligations then
     addResult (LFinalFailed failedObligations);;;
     when (0 <? initialFailedCount)
          (addResult (LCleanupRecovery
                        (initialFailedCount - failedObligations)
                        initialFailedCount));;;
     when (failureRecoveryMode c) (addResult LStillRecovery)
   else addResult (LPerfect totalAttempted initialFailedCount));;;
  let tvlSummary := tvlSummaryOf t in
  addResult (LComplete (totalTVL tvlSummary) (totalDeposits tvlSummary)
               (totalBorrows tvlSummary) (strategyCount tvlSummary));;;
  ret tvlSummary.

(** ** The pipeline (lines 120-679) *)

(** What a run leaves in [tvlData]: a report handed to [setTvlData], or
    nothing.  [Diverged] stands for a main loop that outlives its fuel. *)
Inductive Outcome :=
| Reported (tvlSummary : TVLSummary)
| NotReported
| Diverged.

Definition calculateStrategyWrapperTVL (remote : Remote) : M Outcome :=
  let* discovered := discover remote in
  match discovered with
  | None => addResult LError;;; ret NotReported
  | Some allStrategyCaps =>
    if len allStrategyCaps =? 0 then
      addResult LNoCaps;;; ret NotReported
    else
      let strategyCapInfos := extractCapInfos allStrategyCaps in
      addResult (LValidObligations (len strategyCapInfos));;;
      emit (Call Initialize);;;
      if initialize remote then
        let* finished :=
          mainLoop remote strategyCapInfos
                   (S (length strategyCapInfos)) initialLoopState in
        match finished with
        | None => ret Diverged
        | Some st =>
          let* cleaned := cleanupPass remote strategyCapInfos (totals st) in
          let* tvlSummary :=
            compileResults strategyCapInfos (controller st)
                           (fst cleaned) (snd cleaned) in
          ret (Reported tvlSummary)
        end
      else addResult LError;;; ret NotReported
  end.

Definition emptyWorld : World := mkWorld 0 [].

Definition run (remote : Remote) : Outcome * World :=
  calculateStrategyWrapperTVL remote emptyWorld.

(** ** The earlier pipeline (lines 1452-1748)

    The file holds a second [calculateStrategyWrapperTVL], with batches of
    a fixed size and no cleanup pass.  Its discovery, extraction and retry
    loop are those above, line for line; its lines reuse the constructors
    of [Line] that print the same numbers. *)

Section FixedPass.

Variable remote : Remote.
Variable strategyCapInfos : list StrategyCapInfo.

(** Line 1615. *)
Definition obligationBatchSize : Z := 5.

(** Lines 1680-1687. *)
Fixpoint mergeResults (batchResults : list (option ObligationSummary))
    (t : Totals) : Totals :=
  match batchResults with
  | [] => t
  | Some result :: rest => mergeResults rest (pushSummary t result)
  | None :: rest => mergeResults rest t
  end.

(** One iteration of the loop of lines 1616-1696, [i += obligationBatchSize]
    included; the state is [i] and the totals. *)
Definition fixedIteration (st : Z * Totals) : M (Z * Totals) :=
  let total := len strategyCapInfos in
  let i := fst st in
  let batch := slice strategyCapInfos i (i + obligationBatchSize) in
  addResult (LChunk (i / obligationBatchSize + 1)
                    ((total + obligationBatchSize - 1) / obligationBatchSize)
                    (len batch));;;
  let* batchResults := processBatch remote total i 0 batch in
  let totals' := mergeResults batchResults (snd st) in
  when (i + obligationBatchSize <? total)
       (addResult (LWaiting 2000);;; setTimeout 2000);;;
  ret (i + obligationBatchSize, totals').

Fixpoint fixedLoop (fuel : nat) (st : Z * Totals) : M (option (Z * Totals)) :=
  match fuel with
  | O => ret None
  | S fuel' =>
    if fst st <? len strategyCapInfos then
      let* st' := fixedIteration st in
      fixedLoop fuel' st'
    else ret (Some st)
  end.

(** Lines 1698-1745. *)
Definition compileResultsFixed (t : Totals) : M TVLSummary :=
  let successfulObligations := len (acc_obligations t) in
  let totalAttempted := len strategyCapInfos in
  let failedObligations := totalAttempted - successfulObligations in
  addResult (LSummary successfulObligations totalAttempted);;;
  when (0 <? failedObligations) (addResult (LFinalFailed failedObligations));;;
  let tvlSummary := tvlSummaryOf t in
  addResult (LComplete (totalTVL tvlSummary) (totalDeposits tvlSummary)
               (totalBorrows tvlSummary) (strategyCount tvlSummary));;;
  ret tvlSummary.

End FixedPass.

Definition calculateStrategyWrapperTVLFixed (remote : Remote) : M Outcome :=
  let* discovered := discover remote in
  match discovered with
  | None => addResult LError;;; ret NotReported
  | Some allStrategyCaps =>
    if len allStrategyCaps =? 0 then
      addResult LNoCaps;;; ret NotReported
    else
      let strategyCapInfos := extractCapInfos allStrategyCaps in
      addResult (LValidObligations (len strategyCapInfos));;;
      emit (Call Initialize);;;
      if initialize remote then
        let* finished :=
          fixedLoop remote strategyCapInfos
                    (S (length strategyCapInfos)) (0, mkTotals [] 0 0 0) in
        match finished with
        | None => ret Diverged
        | Some st =>
          let* tvlSummary :=
            compileResultsFixed strategyCapInfos (snd st) in
          ret (Reported tvlSummary)
        end
      else addResult LError;;; ret NotReported
  end.

Definition runFixed (remote : Remote) : Outcome * World :=
  calculateStrategyWrapperTVLFixed remote emptyWorld.

(** * Vocabulary of the properties *)

(** The bounds of the batch size and of the delay. *)
Definition bounded (c : Controller) : Prop :=
  3 <= currentBatchSize c <= 20 /\ 100 <= currentDelay c <= 2000.

(** What holds at the head of every iteration. *)
Definition loopInvariant (st : LoopState) : Prop :=
  bounded (controller st) /\ 0 <= loop_i st /\
  0 <= consecutiveSuccesses (controller st).

(** [a] may stand before [b] in the report: [b.deposited_value_usd <=
    a.deposited_value_usd] on doubles. *)
Definition descending (a b : ObligationSummary) : Prop :=
  (deposited_value_usd b <=? deposited_value_usd a)%float = true.

(** The place of a double in the order of the doubles: its value in
    units of 2^-1074, the infinities beyond every finite value. *)
Definition rank (x : spec_float) : Z :=
  match x with
  | S754_zero _ | S754_nan => 0
  | S754_infinity s => cond_Zopp s (2 ^ 2098)
  | S754_finite s m e => cond_Zopp s (Z.pos m * 2 ^ (e + 1074))
  end.

Definition rank64 (x : float) : Z := rank (Prim2SF x).

(** The deposits of the summary are a number, not NaN. *)
Definition numeric (s : ObligationSummary) : Prop :=
  is_nan (deposited_value_usd s) = false.

(** The [getObligation] requests and the sleeps among some effects. *)
Definition requestsIn (es : list Effect) : list string :=
  omap (fun e => match e with
                 | Call (GetObligation id) => Some id
                 | _ => None
                 end) es.

Definition sleepsIn (es : list Effect) : list Z :=
  omap (fun e => match e with Sleep ms => Some ms | _ => None end) es.

(** From world [w] to world [w'] the record [id] was requested [attempts]
    times, at least once and at most [budget] times, every request but
    the last one failed, and after the failed attempt [a] the loop slept
    [a * step] ms. *)
Definition retried (remote : Remote) (budget : nat) (step : Z) (id : string)
    (w w' : World) (attempts : nat) : Prop :=
  exists es,
    trace w' = trace w ++ es /\
    calls w' = (attempts + calls w)%nat /\
    (1 <= attempts <= budget)%nat /\
    requestsIn es = replicate attempts id /\
    sleepsIn es =
      (fun a => Z.of_nat a * step) <$> seq 1 (attempts - 1) /\
    forall k, (k < attempts - 1)%nat ->
              getObligation remote (k + calls w)%nat id = None.

(** The effects of discovery: page and chunk lines, event queries and
    object reads.  No position is fetched, nothing sleeps. *)
Definition discoveryEffect (e : Effect) : Prop :=
  match e with
  | Say (LPage _ _ _) | Say (LEventsFound _ _) | Say (LExtractedIds _)
  | Say (LChunk _ _ _) | Say (LNotFound _) | Say (LFoundCaps _)
  | Call (QueryEvents _) | Call (GetObject _) => True
  | _ => False
  end.

(** A world in which only discovery has run. *)
Definition quiet (w : World) : Prop :=
  calls w = 0%nat /\ Forall discoveryEffect (trace w).

(** The objects that resolve among [ids], the first of which has the
    index [index]. *)
Fixpoint resolvedFrom (remote : Remote) (index : Z) (ids : list string)
    : list SuiObject :=
  match ids with
  | [] => []
  | capId :: rest =>
    match getObject remote index capId with
    | Some obj => obj :: resolvedFrom remote (index + 1) rest
    | None => resolvedFrom remote (index + 1) rest
    end
  end.

(** ** The thresholds in binary64

    The controller as JavaScript computes it, on IEEE 754 doubles, to
    compare with the exact arithmetic of [classify]. *)

(** The double of a count. *)
Fixpoint numberOf (n : nat) : float :=
  match n with
  | O => 0%float
  | S k => (numberOf k + 1)%float
  end.

(** [(batchSuccesses / batch.length) * 100] on doubles. *)
Definition batchSuccessRate64 (batchSuccesses size : nat) : float :=
  (numberOf batchSuccesses / numberOf size * 100)%float.

(** The double nearest to 0.2. *)
Definition fifth64 : float := 0x1.999999999999ap-3%float.

(** For a batch of [size] records of which [batchSuccesses] succeeded:
    the three comparisons of the rate come out on doubles as on
    rationals, and the double [size * 0.2] lies above [c - 1] and not
    above [c], where [c] is the ceiling that [hasSignificantFailures]
    uses, so that [Math.ceil] of it is [c]. *)
Definition thresholdsAgree (batchSuccesses size : nat) : bool :=
  let rate := batchSuccessRate (Z.of_nat batchSuccesses) (Z.of_nat size) in
  let rate64 := batchSuccessRate64 batchSuccesses size in
  let c := Qceiling (inject_Z (Z.of_nat size) * (2 # 10)) in
  let c64 := numberOf (Z.to_nat c) in
  let x64 := (numberOf size * fifth64)%float in
  Bool.eqb (PrimFloat.ltb rate64 70) (Qltb rate 70)
  && Bool.eqb (PrimFloat.leb 95 rate64) (Qle_bool 95 rate)
  && Bool.eqb (PrimFloat.leb 90 rate64) (Qle_bool 90 rate)
  && PrimFloat.ltb (c64 - 1)%float x64 && PrimFloat.leb x64 c64.

(** ** Example services

    [exampleRemote n answers]: one page with [n] creation events; the cap
    of index [i] resolves and holds the obligation [ob<i>]; [answers]
    decides every [getObligation] call. *)

Definition exampleRemote (n : nat)
    (answers : nat -> string -> option Obligation) : Remote :=
  mkRemote
    (fun _ => Some (mkEventPage
                      ((fun k => mkSuiEvent (Some (Some (pretty k))))
                         <$> seq 0 n)
                      false None))
    (fun i id => Some (mkSuiObject id
                         (Some (mkCapFields (Some ("ob" +:+ pretty i)) 1))
                         (Some "0xowner")))
    true answers.

(** [n] USD on the wire. *)
Definition usd (n : Z) : Z := n * 10 ^ 18.

(** Every obligation holds 100 USD of deposits and 40 USD of borrows; the
    ones in [ids] cannot be fetched. *)
Definition failing (ids : list string)
    : nat -> string -> option Obligation :=
  fun _ id => if bool_decide (id ∈ ids) then None
              else Some (mkObligation (Some (usd 100)) (Some (usd 40))).

Definition reportOf (o : Outcome) : option TVLSummary :=
  match o with Reported tvlSummary => Some tvlSummary | _ => None end.

(** The lines of a run that show the controller, rates reduced. *)
Definition controllerLog (w : World) : list Line :=
  omap (fun e =>
          match e with
          | Say (LBatch a b c d e) => Some (LBatch a b c d e)
          | Say (LAggressive a b c) => Some (LAggressive a b c)
          | Say (LCautious a b c) => Some (LCautious a b c)
          | Say (LExitRecovery a) => Some (LExitRecovery a)
          | Say (LSpeedUp a b) => Some (LSpeedUp a b)
          | Say (LBatchResults a b rate d) =>
            Some (LBatchResults a b (Qred rate) d)
          | Say (LFinalSettings a b c) => Some (LFinalSettings a b c)
          | _ => None
          end) (trace w).

(** Fifteen records, the first of which cannot be fetched. *)
Definition overlapRemote : Remote := exampleRemote 15 (failing ["ob0"]).

(** Four records, the first of which cannot be fetched. *)
Definition quarterRemote : Remote := exampleRemote 4 (failing ["ob0"]).

(** Forty-four records; four of the first batch and one of the third
    cannot be fetched. *)
Definition relapseRemote : Remote :=
  exampleRemote 44 (failing ["ob0"; "ob1"; "ob2"; "ob3"; "ob20"]).

(** Forty-four records; four of the first batch cannot be fetched. *)
Definition calmRemote : Remote :=
  exampleRemote 44 (failing ["ob0"; "ob1"; "ob2"; "ob3"]).

(** No creation event at all. *)
Definition silentRemote : Remote := exampleRemote 0 (failing []).

(** Three records with different deposits. *)
Definition mixedRemote : Remote :=
  exampleRemote 3
    (fun _ id =>
       Some (mkObligation
               (Some (if String.eqb id "ob1" then usd 300
                      else if String.eqb id "ob2" then usd 200
                           else usd 100))
               (Some 0))).

(** Two records whose deposits on the wire, 2^53 and 2^53 + 1, are the
    same double. *)
Definition roundingRemote : Remote :=
  exampleRemote 2
    (fun _ id =>
       Some (mkObligation
               (Some (if String.eqb id "ob0" then 2 ^ 53 else 2 ^ 53 + 1))
               (Some 0))).


(** Two records, none of which can be fetched. *)
Definition deafRemote : Remote := exampleRemote 2 (fun _ _ => None).

(** Fifteen records that can all be fetched. *)
Definition healthyRemote : Remote := exampleRemote 15 (failing []).

(** The records that [extractCapInfos] gives for [exampleRemote n]. *)
Definition exampleCaps (n : nat) : list StrategyCapInfo :=
  (fun k => mkStrategyCapInfo ("0x" +:+ pretty k) ("ob" +:+ pretty k) 1
                              "0xowner") <$> seq 0 n.

(** The report of the run on [mixedRemote]. *)
Definition mixedReport : TVLSummary :=
  Eval vm_compute in
    default (tvlSummaryOf (mkTotals [] 0 0 0))
            (reportOf (fst (run mixedRemote))).

(** A service whose every page announces a next one. *)
Definition endlessRemote : Remote :=
  mkRemote
    (fun _ => Some (mkEventPage [mkSuiEvent (Some (Some "0x1"))] true
                                (Some 7%nat)))
    (fun _ _ => None)
    true (fun _ _ => None).

(** A service whose lending client cannot be initialised. *)
Definition uninitialisedRemote : Remote :=
  mkRemote (queryEvents healthyRemote) (getObject healthyRemote) false
           (getObligation healthyRemote).

(** Thirty-three records that can all be fetched. *)
Definition crowdedRemote : Remote := exampleRemote 33 (failing []).

(** A service whose event query throws. *)
Definition throwingRemote : Remote :=
  mkRemote (fun _ => None) (fun _ _ => None) true (fun _ _ => None).

(** A capability object whose inner cap is borrowed. *)
Definition borrowedObject : SuiObject :=
  mkSuiObject "0x9" (Some (mkCapFields None 1)) (Some "0xowner").

(** ** Observations on effects and totals *)

(** The [queryEvents] calls and the [getObject] reads among some effects. *)
Definition queriesIn (es : list Effect) : list (option nat) :=
  omap (fun e => match e with
                 | Call (QueryEvents cursor) => Some cursor
                 | _ => None
                 end) es.

Definition objectReadsIn (es : list Effect) : list string :=
  omap (fun e => match e with
                 | Call (GetObject id) => Some id
                 | _ => None
                 end) es.

(** The pages the service serves along the cursors, from [cursor] on:
    at most [fuel] pages, up to the first that announces no next page;
    [None] when a query throws. *)
Fixpoint pagesFrom (remote : Remote) (fuel : nat) (cursor : option nat)
    : option (list EventPage) :=
  match fuel with
  | O => Some []
  | S fuel' =>
    match queryEvents remote cursor with
    | None => None
    | Some page =>
      if hasNextPage page
      then cons page <$> pagesFrom remote fuel' (nextCursor page)
      else Some [page]
    end
  end.

(** The effects of the resolver's loop: chunk lines and object reads. *)
Definition resolverEffect (e : Effect) : Prop :=
  match e with
  | Say (LChunk _ _ _) | Call (GetObject _) => True
  | _ => False
  end.

(** The running sum of a field over the summaries, from left to right
    on doubles, as [+=] computes it from [start]. *)
Definition sumFrom (f : ObligationSummary -> float) (start : float)
    (l : list ObligationSummary) : float :=
  foldl (fun acc x => (acc + f x)%float) start l.

Definition sumOf (f : ObligationSummary -> float)
    (l : list ObligationSummary) : float :=
  sumFrom f 0 l.


(** What the retry loop of one record gave: the number of its requests,
    between 1 and [budget], and its summary, built from an answer to
    the record's request; without a summary the budget was used up. *)
Definition fetched (budget : nat) (capInfo : StrategyCapInfo)
    (o : nat * option ObligationSummary) : Prop :=
  (1 <= fst o <= budget)%nat /\
  match snd o with
  | Some s => exists obligation, s = summarize capInfo obligation
  | None => fst o = budget
  end.

(** The requests of the records [caps], one after the other, each
    repeated as often as its outcome says. *)
Definition requestsOf (caps : list StrategyCapInfo)
    (outcomes : list (nat * option ObligationSummary)) : list string :=
  concat (zip_with (fun capInfo o => replicate (fst o) (obligationId capInfo))
                   caps outcomes).

(** The summary [s] was built from the record [capInfo]. *)
Definition builtFrom (capInfo : StrategyCapInfo) (s : ObligationSummary)
    : Prop :=
  sum_obligationId s = obligationId capInfo /\
  sum_strategyType s = strategyType capInfo /\
  sum_owner s = owner capInfo /\
  sum_objectId s = objectId capInfo /\
  net_value_usd s =
    (deposited_value_usd s - unweighted_borrowed_value_usd s)%float.

(** A service that answers every [getObligation] call. *)
Definition alwaysAnswers (remote : Remote) : Prop :=
  forall k id, exists obligation, getObligation remote k id = Some obligation.

(** * Properties *)

(** ** Doubles

    The order of the doubles and the sign of their differences, from
    the specification of binary64 ([SpecFloat]). *)

Lemma digits2_pos_bounds m :
  2 ^ (Z.pos (digits2_pos m) - 1) <= Z.pos m < 2 ^ Z.pos (digits2_pos m).
Proof.
  induction m as [m IH | m IH |]; cbn [digits2_pos].
  - rewrite Pos2Z.inj_succ.
    remember (Z.pos (digits2_pos m)) as d.
    replace (Z.succ d - 1) with d by lia.
    assert (H : 2 ^ d = 2 * 2 ^ (d - 1)).
    { rewrite <- Z.pow_succ_r by lia. f_equal. lia. }
    rewrite Z.pow_succ_r by lia. lia.
  - rewrite Pos2Z.inj_succ.
    remember (Z.pos (digits2_pos m)) as d.
    replace (Z.succ d - 1) with d by lia.
    assert (H : 2 ^ d = 2 * 2 ^ (d - 1)).
    { rewrite <- Z.pow_succ_r by lia. f_equal. lia. }
    rewrite Z.pow_succ_r by lia. lia.
  - vm_compute. split; [discriminate | reflexivity].
Qed.

Lemma shr_1_m mrs : 0 <= shr_m mrs -> shr_m (shr_1 mrs) = shr_m mrs / 2.
Proof.
  destruct mrs as [m r s]. cbn [shr_m]. intros Hm.
  destruct m as [| [p | p |] | p]; cbn [shr_1 shr_m]; try lia;
    try reflexivity;
    [apply (Z.div_unique _ 2 _ 1); lia | apply (Z.div_unique _ 2 _ 0); lia].
Qed.

Lemma iter_shr_1_m p mrs :
  0 <= shr_m mrs ->
  shr_m (SpecFloat.iter_pos shr_1 p mrs) = shr_m mrs / 2 ^ Z.pos p.
Proof.
  revert mrs. induction p as [p IH | p IH |]; intros mrs Hm;
    cbn [SpecFloat.iter_pos].
  - assert (H1 : 0 <= shr_m (shr_1 mrs)).
    { rewrite shr_1_m by exact Hm. apply Z.div_pos; lia. }
    assert (H2 : 0 <= shr_m (SpecFloat.iter_pos shr_1 p (shr_1 mrs))).
    { rewrite IH by exact H1. apply Z.div_pos; [exact H1 | lia]. }
    rewrite IH by exact H2. rewrite IH by exact H1. rewrite shr_1_m by exact Hm.
    rewrite !Z.div_div by lia. f_equal.
    replace (Z.pos p~1) with (1 + Z.pos p + Z.pos p) by lia.
    rewrite !Z.pow_add_r by lia. change (2 ^ 1) with 2. lia.
  - assert (H1 : 0 <= shr_m (SpecFloat.iter_pos shr_1 p mrs)).
    { rewrite IH by exact Hm. apply Z.div_pos; [exact Hm | lia]. }
    rewrite IH by exact H1. rewrite IH by exact Hm.
    rewrite Z.div_div by lia. f_equal.
    replace (Z.pos p~0) with (Z.pos p + Z.pos p) by lia.
    rewrite Z.pow_add_r by lia. reflexivity.
  - rewrite shr_1_m by exact Hm. reflexivity.
Qed.

Lemma shr_record_of_loc_m m l : shr_m (shr_record_of_loc m l) = m.
Proof. destruct l as [| []]; reflexivity. Qed.

Lemma shr_m_nonneg mrs e n :
  0 <= shr_m mrs -> 0 <= shr_m (fst (shr mrs e n)).
Proof.
  intros Hm. destruct n as [| p | p]; cbn [shr fst]; try exact Hm.
  rewrite iter_shr_1_m by exact Hm. apply Z.div_pos; [exact Hm | lia].
Qed.

Lemma round_nearest_even_ge m l : m <= round_nearest_even m l.
Proof.
  destruct l as [| []]; cbn [round_nearest_even]; try lia.
  destruct (Z.even m); lia.
Qed.

(** Rounding a mantissa that is not negative never gives NaN. *)
Lemma binary_round_aux_not_nan s m e l :
  0 <= m -> binary_round_aux prec emax s m e l <> S754_nan.
Proof.
  intros Hm. unfold binary_round_aux, shr_fexp.
  match goal with
  | |- context [shr ?r ?e0 ?n] =>
    pose proof (shr_m_nonneg r e0 n) as H1; destruct (shr r e0 n) as [mrs' e']
  end.
  rewrite shr_record_of_loc_m in H1. specialize (H1 Hm). cbn [fst] in H1.
  pose proof (round_nearest_even_ge (shr_m mrs') (loc_of_shr_record mrs'))
    as Hround.
  match goal with
  | |- context [shr ?r ?e0 ?n] =>
    pose proof (shr_m_nonneg r e0 n) as H2; destruct (shr r e0 n) as [mrs'' e'']
  end.
  rewrite shr_record_of_loc_m in H2. cbn [fst] in H2.
  destruct (shr_m mrs'') as [| p | p]; [discriminate | | lia].
  destruct (e'' <=? emax - prec); discriminate.
Qed.

(** Shifting by [fexp] keeps a positive mantissa positive when the
    exponent is not below that of the subnormals. *)
Lemma shr_fexp_positive m e l :
  0 < m -> -1074 <= e ->
  0 < shr_m (fst (shr_fexp prec emax m e l)) /\
  -1074 <= snd (shr_fexp prec emax m e l).
Proof.
  intros Hm He. unfold shr_fexp, shr.
  destruct m as [| m | m]; [lia | | lia]. cbn [Zdigits2].
  pose proof (digits2_pos_bounds m) as [Hlow _].
  remember (Z.pos (digits2_pos m)) as d.
  assert (Hd : 1 <= d) by lia.
  assert (Hn : fexp prec emax (d + e) - e <= d - 1 /\
               -1074 <= fexp prec emax (d + e)).
  { unfold fexp, SpecFloat.emin, prec, emax. lia. }
  destruct Hn as [Hn Hfexp].
  destruct (fexp prec emax (d + e) - e) as [| n | n] eqn:Hshift;
    cbn [fst snd]; rewrite ?shr_record_of_loc_m; try (split; lia).
  rewrite iter_shr_1_m by (rewrite shr_record_of_loc_m; lia).
  rewrite shr_record_of_loc_m. split; [| lia].
  apply Z.div_str_pos. split; [lia |].
  etransitivity; [| exact Hlow].
  apply Z.pow_le_mono_r; lia.
Qed.

(** Rounding a positive mantissa at an exponent of the format gives a
    number of the sign asked for, never a zero. *)
Lemma binary_round_aux_signed s m e l :
  0 < m -> -1074 <= e ->
  (exists m' e', binary_round_aux prec emax s m e l = S754_finite s m' e') \/
  binary_round_aux prec emax s m e l = S754_infinity s.
Proof.
  intros Hm He. unfold binary_round_aux.
  destruct (shr_fexp_positive m e l Hm He) as [H1 He1].
  destruct (shr_fexp prec emax m e l) as [mrs' e']. cbn [fst snd] in *.
  pose proof (round_nearest_even_ge (shr_m mrs') (loc_of_shr_record mrs'))
    as Hround.
  match goal with
  | |- context [shr_fexp prec emax ?m2 e' loc_Exact] =>
    destruct (shr_fexp_positive m2 e' loc_Exact ltac:(lia) He1) as [H2 _];
    destruct (shr_fexp prec emax m2 e' loc_Exact) as [mrs'' e'']
  end.
  cbn [fst] in H2.
  destruct (shr_m mrs'') as [| p | p]; [lia | | lia].
  destruct (e'' <=? emax - prec); eauto.
Qed.

Lemma iter_xO m d : Z.pos (Pos.iter xO m d) = Z.pos m * 2 ^ Z.pos d.
Proof.
  induction d as [| d IH] using Pos.peano_ind.
  - change (2 ^ 1) with 2. cbn [Pos.iter]. lia.
  - rewrite Pos.iter_succ, Pos2Z.inj_succ, Z.pow_succ_r by lia.
    change (Z.pos (Pos.iter xO m d)~0) with (2 * Z.pos (Pos.iter xO m d)).
    rewrite IH. lia.
Qed.

Lemma binary_round_signed s m e :
  -1074 <= e ->
  (exists m' e', binary_round prec emax s m e = S754_finite s m' e') \/
  binary_round prec emax s m e = S754_infinity s.
Proof.
  intros He. unfold binary_round, shl_align.
  assert (Hfexp : -1074 <= fexp prec emax (Z.pos (digits2_pos m) + e)).
  { unfold fexp, SpecFloat.emin, prec, emax. lia. }
  destruct (fexp prec emax (Z.pos (digits2_pos m) + e) - e);
    apply binary_round_aux_signed; lia.
Qed.

Lemma binary_round_not_nan s m e : binary_round prec emax s m e <> S754_nan.
Proof.
  unfold binary_round.
  destruct (shl_align m e _) as [mz ez].
  apply binary_round_aux_not_nan. lia.
Qed.

Lemma binary_normalize_not_nan m e szero :
  binary_normalize prec emax m e szero <> S754_nan.
Proof.
  destruct m; cbn [binary_normalize];
    [discriminate | apply binary_round_not_nan | apply binary_round_not_nan].
Qed.

(** What [valid_binary] says of a finite double. *)
Lemma bounded_facts m e :
  SpecFloat.bounded prec emax m e = true ->
  -1074 <= e <= 971 /\
  Z.pos (digits2_pos m) <= 53 /\
  (-1074 < e -> Z.pos (digits2_pos m) = 53).
Proof.
  unfold SpecFloat.bounded, canonical_mantissa, fexp, SpecFloat.emin, prec, emax.
  intros H. apply andb_true_iff in H as [H1 H2].
  apply Z.eqb_eq in H1. apply Z.leb_le in H2. lia.
Qed.

Lemma rank_finite_bounds m e :
  SpecFloat.bounded prec emax m e = true ->
  0 < Z.pos m * 2 ^ (e + 1074) < 2 ^ 2098.
Proof.
  intros Hb. destruct (bounded_facts m e Hb) as (He & Hd & _).
  pose proof (digits2_pos_bounds m) as [_ Hm].
  assert (Hm' : Z.pos m < 2 ^ 53).
  { eapply Z.lt_le_trans; [exact Hm |]. apply Z.pow_le_mono_r; lia. }
  assert (HP : 0 < 2 ^ (e + 1074) <= 2 ^ 2045).
  { split; [apply Z.pow_pos_nonneg; lia | apply Z.pow_le_mono_r; lia]. }
  replace (2 ^ 2098) with (2 ^ 53 * 2 ^ 2045)
    by (rewrite <- Z.pow_add_r by lia; reflexivity).
  remember (2 ^ (e + 1074)) as P. remember (2 ^ 2045) as B.
  remember (2 ^ 53) as A. split; [lia |].
  apply Z.lt_le_trans with (A * P); [apply Z.mul_lt_mono_pos_r; lia |].
  apply Z.mul_le_mono_nonneg_l; lia.
Qed.

(** Of two finite doubles the one with the lower exponent is the lower. *)
Lemma lower_exponent_lower m1 e1 m2 e2 :
  SpecFloat.bounded prec emax m1 e1 = true -> SpecFloat.bounded prec emax m2 e2 = true ->
  e1 < e2 ->
  Z.pos m1 * 2 ^ (e1 + 1074) < Z.pos m2 * 2 ^ (e2 + 1074).
Proof.
  intros Hb1 Hb2 Hlt.
  destruct (bounded_facts m1 e1 Hb1) as (He1 & Hd1 & _).
  destruct (bounded_facts m2 e2 Hb2) as (He2 & _ & Hd2).
  specialize (Hd2 ltac:(lia)).
  pose proof (digits2_pos_bounds m1) as [_ Hm1].
  pose proof (digits2_pos_bounds m2) as [Hm2 _].
  rewrite Hd2 in Hm2. change (53 - 1) with 52 in Hm2.
  assert (Hm1' : Z.pos m1 < 2 * 2 ^ 52).
  { change (2 * 2 ^ 52) with (2 ^ 53).
    eapply Z.lt_le_trans; [exact Hm1 |]. apply Z.pow_le_mono_r; lia. }
  replace (e2 + 1074) with ((e1 + 1074) + 1 + (e2 - e1 - 1)) by lia.
  rewrite (Z.pow_add_r 2 (e1 + 1074 + 1) (e2 - e1 - 1)),
    (Z.pow_add_r 2 (e1 + 1074) 1) by lia.
  change (2 ^ 1) with 2.
  assert (HK : 0 < 2 ^ (e1 + 1074)) by (apply Z.pow_pos_nonneg; lia).
  assert (HJ : 0 < 2 ^ (e2 - e1 - 1)) by (apply Z.pow_pos_nonneg; lia).
  remember (2 ^ (e1 + 1074)) as K. remember (2 ^ (e2 - e1 - 1)) as J.
  remember (2 ^ 52) as T.
  assert (H1 : Z.pos m1 * K < 2 * T * K)
    by (apply Z.mul_lt_mono_pos_r; lia).
  assert (H2 : T * K <= Z.pos m2 * K)
    by (apply Z.mul_le_mono_nonneg_r; lia).
  assert (H3 : 0 <= Z.pos m2 * K * (J - 1))
    by (apply Z.mul_nonneg_nonneg; [apply Z.mul_nonneg_nonneg |]; lia).
  lia.
Qed.

Lemma finite_compare_rank m1 e1 m2 e2 :
  SpecFloat.bounded prec emax m1 e1 = true -> SpecFloat.bounded prec emax m2 e2 = true ->
  match e1 ?= e2 with
  | Lt => Lt
  | Gt => Gt
  | Eq => Pos.compare_cont Eq m1 m2
  end = (Z.pos m1 * 2 ^ (e1 + 1074) ?= Z.pos m2 * 2 ^ (e2 + 1074)).
Proof.
  intros Hb1 Hb2. destruct (Z.compare_spec e1 e2) as [-> | Hlt | Hgt].
  - change (Pos.compare_cont Eq m1 m2) with (Z.pos m1 ?= Z.pos m2).
    apply Zmult_compare_compat_r.
    destruct (bounded_facts m2 e2 Hb2) as (He & _).
    apply Z.lt_gt, Z.pow_pos_nonneg; lia.
  - symmetry. apply Z.compare_lt_iff.
    apply lower_exponent_lower; assumption.
  - symmetry. apply Z.compare_gt_iff.
    apply lower_exponent_lower; assumption.
Qed.

(** On doubles that are no NaN, [SFcompare] is the order of the ranks. *)
Lemma SFcompare_rank x y :
  valid_binary x = true -> valid_binary y = true ->
  x <> S754_nan -> y <> S754_nan ->
  SFcompare x y = Some (rank x ?= rank y).
Proof.
  intros Hx Hy Hnx Hny.
  destruct x as [sx | sx | | sx mx ex]; [| | congruence |];
    destruct y as [sy | sy | | sy my ey]; try congruence;
    cbn [valid_binary] in Hx, Hy;
    try pose proof (rank_finite_bounds mx ex Hx) as Hrx;
    try pose proof (rank_finite_bounds my ey Hy) as Hry;
    cbn [SFcompare rank]; f_equal;
    try (destruct sx); try (destruct sy); cbn [cond_Zopp];
    try reflexivity;
    try (symmetry; first [apply Z.compare_lt_iff | apply Z.compare_gt_iff
                         | apply Z.compare_eq_iff];
         remember (2 ^ 2098) as top; lia).
  - rewrite Z.compare_opp. rewrite (Z.compare_antisym (Z.pos mx * _)).
    rewrite <- (finite_compare_rank mx ex my ey Hx Hy).
    destruct (ex ?= ey); reflexivity.
  - apply finite_compare_rank; assumption.
Qed.

Lemma shl_align_value m e ez :
  ez <= e -> Z.pos (fst (shl_align m e ez)) = Z.pos m * 2 ^ (e - ez).
Proof.
  intros Hle. unfold shl_align.
  destruct (ez - e) as [| d | d] eqn:Hd; cbn [fst].
  - replace (e - ez) with 0 by lia. lia.
  - lia.
  - rewrite iter_xO. f_equal. f_equal. lia.
Qed.

(** The sign of a difference of doubles is that of the difference of
    their ranks: [0 < y - x] exactly when [x] is the lower. *)
Lemma SFsub_sign x y :
  valid_binary x = true -> valid_binary y = true ->
  x <> S754_nan -> y <> S754_nan ->
  SFltb (S754_zero false) (SFsub prec emax y x) = (rank x <? rank y).
Proof.
  intros Hx Hy Hnx Hny.
  destruct x as [sx | sx | | sx mx ex]; [| | congruence |];
    destruct y as [sy | sy | | sy my ey]; try congruence;
    cbn [valid_binary] in Hx, Hy;
    try pose proof (rank_finite_bounds mx ex Hx) as Hrx;
    try pose proof (rank_finite_bounds my ey Hy) as Hry.
  9: {
    cbn [SFsub rank].
    clear Hrx Hry.
    destruct (bounded_facts mx ex Hx) as (Hex & _).
    destruct (bounded_facts my ey Hy) as (Hey & _).
    rewrite (shl_align_value my ey (Z.min ey ex)) by lia.
    rewrite (shl_align_value mx ex (Z.min ey ex)) by lia.
    remember (Z.min ey ex) as ez.
    assert (Hez : -1074 <= ez) by lia.
    assert (Hy' : Z.pos my * 2 ^ (ey + 1074) =
                  Z.pos my * 2 ^ (ey - ez) * 2 ^ (ez + 1074)).
    { rewrite <- Z.mul_assoc, <- Z.pow_add_r by lia. do 2 f_equal. lia. }
    assert (Hx' : Z.pos mx * 2 ^ (ex + 1074) =
                  Z.pos mx * 2 ^ (ex - ez) * 2 ^ (ez + 1074)).
    { rewrite <- Z.mul_assoc, <- Z.pow_add_r by lia. do 2 f_equal. lia. }
    rewrite Hy', Hx'.
    assert (HK : 0 < 2 ^ (ez + 1074)) by (apply Z.pow_pos_nonneg; lia).
    remember (2 ^ (ez + 1074)) as K.
    remember (Z.pos my * 2 ^ (ey - ez)) as Y.
    remember (Z.pos mx * 2 ^ (ex - ez)) as X.
    assert (HY : 0 < Y).
    { subst Y. apply Z.mul_pos_pos; [lia | apply Z.pow_pos_nonneg; lia]. }
    assert (HX : 0 < X).
    { subst X. apply Z.mul_pos_pos; [lia | apply Z.pow_pos_nonneg; lia]. }
    destruct (cond_Zopp sy Y - cond_Zopp sx X) as [| p | p] eqn:Hdiff;
      cbn [binary_normalize].
    - cbn. symmetry. apply Z.ltb_ge.
      destruct sx, sy; cbn [cond_Zopp] in *; nia.
    - destruct (binary_round_signed false p ez Hez) as [(m' & e' & ->) | ->];
        cbn; symmetry; apply Z.ltb_lt;
        destruct sx, sy; cbn [cond_Zopp] in *; nia.
    - destruct (binary_round_signed true p ez Hez) as [(m' & e' & ->) | ->];
        cbn; symmetry; apply Z.ltb_ge;
        destruct sx, sy; cbn [cond_Zopp] in *; nia. }
  all: cbn [SFsub rank]; try (destruct sx); try (destruct sy);
    cbn [SFltb SFcompare cond_Zopp];
    symmetry; first [apply Z.ltb_lt | apply Z.ltb_ge];
    remember (2 ^ 2098) as top; lia.
Qed.

Lemma is_nan_Prim2SF x : is_nan x = false <-> Prim2SF x <> S754_nan.
Proof.
  unfold Prim2SF. destruct (is_nan x); [split; congruence |].
  split; [| reflexivity]. intros _.
  destruct (is_zero x); [discriminate |].
  destruct (is_infinity x); [discriminate |].
  destruct (Z.frexp x) as [r exp].
  destruct (shr_fexp _ _ _ _ _) as [shr e'].
  destruct (shr_m shr); discriminate.
Qed.

Section Order64.

Variables x y : float.
Hypothesis x_number : is_nan x = false.
Hypothesis y_number : is_nan y = false.

Lemma compare_rank64 :
  SFcompare (Prim2SF x) (Prim2SF y) = Some (rank64 x ?= rank64 y).
Proof.
  apply SFcompare_rank; try apply Prim2SF_valid;
    apply is_nan_Prim2SF; assumption.
Qed.

Lemma ltb_rank64 : (x <? y)%float = (rank64 x <? rank64 y).
Proof.
  rewrite FloatAxioms.ltb_spec. unfold SFltb. rewrite compare_rank64.
  unfold Z.ltb. destruct (rank64 x ?= rank64 y); reflexivity.
Qed.

Lemma leb_rank64 : (x <=? y)%float = (rank64 x <=? rank64 y).
Proof.
  rewrite FloatAxioms.leb_spec. unfold SFleb. rewrite compare_rank64.
  unfold Z.leb. destruct (rank64 x ?= rank64 y); reflexivity.
Qed.

Lemma eqb_rank64 : (x =? y)%float = (rank64 x =? rank64 y).
Proof.
  rewrite FloatAxioms.eqb_spec. unfold SFeqb. rewrite compare_rank64.
  rewrite Z.eqb_compare. destruct (rank64 x ?= rank64 y); reflexivity.
Qed.

Lemma sub_sign64 : (0 <? y - x)%float = (rank64 x <? rank64 y).
Proof.
  rewrite FloatAxioms.ltb_spec, FloatAxioms.sub_spec.
  change (Prim2SF 0) with (S754_zero false).
  apply SFsub_sign; try apply Prim2SF_valid;
    apply is_nan_Prim2SF; assumption.
Qed.

End Order64.

Lemma SF2Prim_not_nan s :
  s <> S754_nan -> is_nan (SF2Prim s) = false.
Proof.
  intros Hs. destruct s as [[] | [] | | sign m e]; try reflexivity;
    [congruence |].
  apply is_nan_Prim2SF. cbn [SF2Prim].
  assert (H : Prim2SF (Z.ldexp (of_uint63 (Uint63.of_Z (Z.pos m))) e)
              <> S754_nan).
  { rewrite Z_ldexp_spec, FloatAxioms.of_uint63_spec.
    destruct (binary_normalize prec emax _ 0 false) eqn:Hn;
      cbn [SFldexp]; try discriminate.
    - exfalso. eapply binary_normalize_not_nan. exact Hn.
    - apply binary_round_not_nan. }
  destruct sign; [| exact H].
  rewrite FloatAxioms.opp_spec. destruct (Prim2SF _); [discriminate .. | congruence |
                                           discriminate].
Qed.

Lemma Number_not_nan z : is_nan (Number z) = false.
Proof. apply SF2Prim_not_nan, binary_normalize_not_nan. Qed.

(** Dividing a number by a finite double that is not zero gives no
    NaN. *)
Lemma div_not_nan x y s m e :
  is_nan x = false -> Prim2SF y = S754_finite s m e ->
  is_nan (x / y) = false.
Proof.
  intros Hx Hy. apply is_nan_Prim2SF. apply is_nan_Prim2SF in Hx.
  rewrite FloatAxioms.div_spec, Hy. unfold SF64div.
  destruct (Prim2SF x) as [sx | sx | | sx mx ex]; cbn [SFdiv];
    try discriminate; [congruence |].
  unfold SFdiv_core_binary.
  match goal with
  | |- context [Z.div_eucl ?a ?b] =>
    pose proof (Z.div_eucl_eq a b ltac:(lia)) as Hq;
    pose proof (Z.mod_pos_bound a b ltac:(lia)) as Hr;
    assert (Ha : 0 <= a);
    [| unfold Z.modulo in Hr; destruct (Z.div_eucl a b) as [q r]]
  end.
  { match goal with
    | |- context [match ?sft with Z0 => _ | Z.pos _ => _ | Z.neg _ => _ end] =>
      destruct sft
    end; [lia | apply Z.shiftl_nonneg; lia | lia]. }
  apply binary_round_aux_not_nan. nia.
Qed.

(** ** The controller *)

Lemma initialController_bounded : bounded initialController.
Proof. unfold bounded; simpl; lia. Qed.

Lemma adjust_bounded c s f n :
  bounded c -> bounded (fst (adjust c s f n)).
Proof.
  unfold bounded, adjust. intros [Hsize Hdelay].
  destruct (classify s f n); simpl; try lia.
  destruct (negb _ && _); lia.
Qed.

Lemma adjust_counter_nonneg c s f n :
  0 <= consecutiveSuccesses c ->
  0 <= consecutiveSuccesses (fst (adjust c s f n)).
Proof.
  unfold adjust. intros H. destruct (classify s f n); simpl; lia.
Qed.

(** A batch without failures has a success rate of 100. *)
Lemma full_batch_rate n : 1 <= n -> batchSuccessRate n n == 100.
Proof.
  intros Hn. unfold batchSuccessRate.
  assert (Hnz : ~ inject_Z n == 0).
  { unfold Qeq; simpl. lia. }
  field. exact Hnz.
Qed.

Lemma full_batch_perfect n : 1 <= n -> classify n 0 n = Perfect.
Proof.
  intros Hn. unfold classify, hasAnyFailures. simpl.
  assert (H : Qle_bool 95 (batchSuccessRate n n) = true).
  { apply Qle_bool_iff. rewrite (full_batch_rate n Hn).
    unfold Qle; simpl; lia. }
  rewrite H. reflexivity.
Qed.

(** With a failure only the two slowdown arms are left. *)
Lemma classify_failures s f n :
  0 < f -> classify s f n = Aggressive \/ classify s f n = Cautious.
Proof.
  intros Hf. unfold classify, hasAnyFailures.
  replace (0 <? f) with true by (symmetry; apply Z.ltb_lt; exact Hf).
  destruct (_ || _); auto.
Qed.

(** The arm taken by a batch of [n >= 1] answers. *)
Lemma classify_counted s f n :
  1 <= n -> 0 <= f -> s + f = n ->
  classify s f n <> Good /\ classify s f n <> Otherwise /\
  (f = 0 -> classify s f n = Perfect).
Proof.
  intros Hn Hf Hsum.
  destruct (Z.eq_dec f 0) as [-> | Hpos].
  - replace s with n by lia. rewrite (full_batch_perfect n Hn).
    repeat split; congruence.
  - destruct (classify_failures s f n) as [H | H]; [lia | | ];
      rewrite H; repeat split; try congruence; lia.
Qed.

(** The aggressive arm is taken exactly under the test of lines 387 and
    390, and this is what it does. *)
Lemma aggressive_arm c s f n :
  hasAnyFailures f = true ->
  hasSignificantFailures f n || Qltb (batchSuccessRate s n) 70 = true ->
  fst (adjust c s f n) =
  mkController (Z.max (currentBatchSize c - 5) 3)
               (Z.min (currentDelay c + 400) 2000)
               0 (consecutiveFailures c + 1) true f.
Proof.
  intros Hany Hsig. unfold adjust, classify. rewrite Hany, Hsig. reflexivity.
Qed.

(** Recovery mode is left only in the arm of line 412, by the batch that
    brings [consecutiveSuccesses] to 3 or more. *)
Lemma recovery_exit_step c s f n :
  failureRecoveryMode c = true ->
  failureRecoveryMode (fst (adjust c s f n)) = false ->
  classify s f n = Perfect /\ 3 <= consecutiveSuccesses c + 1.
Proof.
  unfold adjust. intros Hin Hout.
  destruct (classify s f n); simpl in Hout; try congruence.
  split; [reflexivity |]. rewrite Hin in Hout. simpl in Hout.
  destruct (3 <=? consecutiveSuccesses c + 1) eqn:E; [| congruence].
  apply Z.leb_le in E. exact E.
Qed.

(** ** The main pass *)

Ltac run_binds :=
  repeat match goal with
         | |- context [let (_, _) := ?m in _] => destruct m
         end.

Lemma len_slice {A} (l : list A) start stop :
  0 <= start -> start <= stop ->
  len (slice l start stop) = Z.min stop (len l) - Z.min start (len l).
Proof.
  intros H0 Hle. unfold slice, len.
  replace (start <? 0) with false by (symmetry; apply Z.ltb_ge; lia).
  replace (stop <? 0) with false by (symmetry; apply Z.ltb_ge; lia).
  rewrite length_take, length_drop. lia.
Qed.

Section MainPassFacts.

Variable remote : Remote.
Variable strategyCapInfos : list StrategyCapInfo.

Lemma processBatch_length total i b batch w :
  length (fst (processBatch remote total i b batch w)) = length batch.
Proof.
  revert b w. induction batch as [| capInfo rest IH]; intros b w.
  - reflexivity.
  - simpl. unfold bind.
    destruct (fetchWithRetry remote total (i + b) capInfo w) as [r w1].
    specialize (IH (b + 1) w1).
    destruct (processBatch remote total i (b + 1) rest w1) as [rs w2].
    simpl in *. congruence.
Qed.

Lemma collect_counts results t s f :
  let counted := collect results t s f in
  snd (fst counted) + snd counted = s + f + len results /\
  s <= snd (fst counted) /\ f <= snd counted.
Proof.
  revert t s f. induction results as [| [r |] rest IH]; intros t s f; simpl.
  - unfold len; simpl; lia.
  - specialize (IH (pushSummary t r) (s + 1) f). simpl in IH.
    unfold len in *; simpl length. lia.
  - specialize (IH t s (f + 1)). simpl in IH.
    unfold len in *; simpl length. lia.
Qed.

(** The answers of a batch are as many as its records. *)
Lemma runBatch_counts st w :
  let counted := fst (runBatch remote strategyCapInfos st w) in
  snd (fst counted) + snd counted = len (batchOf strategyCapInfos st) /\
  0 <= snd (fst counted) /\ 0 <= snd counted.
Proof.
  unfold runBatch, bind, addResult, emit, ret.
  match goal with
  | |- context [processBatch ?r ?t ?i ?b ?l ?w'] =>
    pose proof (processBatch_length t i b l w') as Hlen;
    destruct (processBatch r t i b l w') as [results w1]
  end.
  simpl in *.
  pose proof (collect_counts results (totals st) 0 0) as Hc. simpl in Hc.
  unfold len in *. rewrite Hlen in Hc. lia.
Qed.

(** The state an iteration leaves behind. *)
Lemma mainIteration_state st w :
  let counted := fst (runBatch remote strategyCapInfos st w) in
  let c' := fst (adjust (controller st) (snd (fst counted)) (snd counted)
                        (len (batchOf strategyCapInfos st))) in
  fst (mainIteration remote strategyCapInfos st w) =
  mkLoopState (loop_i st + currentBatchSize c') c' (fst (fst counted))
              (totalProcessed st + len (batchOf strategyCapInfos st)).
Proof.
  unfold mainIteration, bind.
  destruct (runBatch remote strategyCapInfos st w) as [counted w1].
  run_binds. reflexivity.
Qed.

Lemma mainIteration_invariant st w :
  loopInvariant st ->
  loopInvariant (fst (mainIteration remote strategyCapInfos st w)).
Proof.
  intros (Hb & Hi & Hc). rewrite mainIteration_state. unfold loopInvariant.
  simpl.
  match goal with
  | |- context [adjust ?c ?s ?f ?n] =>
    pose proof (adjust_bounded c s f n Hb) as Hb';
    pose proof (adjust_counter_nonneg c s f n Hc) as Hc'
  end.
  split; [exact Hb' |]. split; [| exact Hc'].
  destruct Hb' as [Hs _]. lia.
Qed.

Lemma reachable_invariant w0 st w :
  reachable remote strategyCapInfos w0 st w -> loopInvariant st.
Proof.
  induction 1 as [| st w Hreach IH Hlt].
  - unfold loopInvariant; simpl.
    split; [apply initialController_bounded | lia].
  - apply mainIteration_invariant; exact IH.
Qed.

(** The slice of an iteration is never empty. *)
Lemma batchOf_nonempty st :
  loopInvariant st -> loop_i st < len strategyCapInfos ->
  1 <= len (batchOf strategyCapInfos st).
Proof.
  intros ([[Hs _] _] & Hi & _) Hlt. unfold batchOf.
  rewrite len_slice by lia. lia.
Qed.

(** A batch has at most 20 records. *)
Lemma batchOf_at_most_20 st :
  loopInvariant st -> len (batchOf strategyCapInfos st) <= 20.
Proof.
  intros ([[Hlo Hhi] _] & Hi & _). unfold batchOf.
  rewrite len_slice by lia. lia.
Qed.

(** The loop ends: each iteration moves [i] forward by at least 3. *)
Lemma mainLoop_terminates fuel st w :
  loopInvariant st ->
  Z.max 0 (len strategyCapInfos - loop_i st) < Z.of_nat fuel ->
  exists st', fst (mainLoop remote strategyCapInfos fuel st w) = Some st' /\
              loopInvariant st'.
Proof.
  revert st w. induction fuel as [| fuel IH]; intros st w Hinv Hfuel.
  - lia.
  - simpl. destruct (loop_i st <? len strategyCapInfos) eqn:Hlt.
    + unfold bind.
      pose proof (mainIteration_invariant st w Hinv) as Hinv'.
      pose proof (mainIteration_state st w) as Hst. simpl in Hst.
      destruct (mainIteration remote strategyCapInfos st w) as [st1 w1].
      simpl in *. apply IH; [exact Hinv' |].
      destruct Hinv' as ([[Hs _] _] & _). rewrite Hst in Hs |- *.
      simpl in *. apply Z.ltb_lt in Hlt. lia.
    + exists st. split; [reflexivity | exact Hinv].
Qed.

End MainPassFacts.

(** ** Doubles and exact arithmetic *)

(** On every batch of up to 20 records, whatever the number of its
    successes, the comparisons of lines 384, 390, 412 and 433 come out on
    doubles as [classify] has them. *)
Lemma thresholds_agree_up_to_20 :
  forallb (fun size =>
             forallb (fun batchSuccesses =>
                        thresholdsAgree batchSuccesses size)
                     (seq 0 (S size)))
          (seq 1 20) = true.
Proof. vm_compute. reflexivity. Qed.

(** A full batch of up to 20 records has the rate 100 on doubles too. *)
Lemma full_batch_rate64 :
  forallb (fun size => PrimFloat.eqb (batchSuccessRate64 size size) 100)
          (seq 1 20) = true.
Proof. vm_compute. reflexivity. Qed.

(** The rate of an empty batch is NaN: neither [>= 95] nor [>= 90]. *)
Lemma empty_batch_rate64 :
  PrimFloat.leb 95 (batchSuccessRate64 0 0) = false /\
  PrimFloat.leb 90 (batchSuccessRate64 0 0) = false /\
  classify 0 0 0 = Otherwise.
Proof. repeat split; vm_compute; reflexivity. Qed.

(** ** The sort of the report *)

(** The comparator is positive exactly when its first argument holds
    less than its second. *)
Lemma comparator_sign a b :
  numeric a -> numeric b ->
  (0 <? byDepositsDescending a b)%float =
  (rank64 (deposited_value_usd a) <? rank64 (deposited_value_usd b)).
Proof. intros Ha Hb. apply sub_sign64; assumption. Qed.

Lemma descending_rank a b :
  numeric a -> numeric b ->
  descending a b <->
  rank64 (deposited_value_usd b) <= rank64 (deposited_value_usd a).
Proof.
  intros Ha Hb. unfold descending.
  rewrite (leb_rank64 _ _ Hb Ha). apply Z.leb_le.
Qed.

Lemma insertBy_HdRel x y l :
  descending y x -> HdRel descending y l ->
  HdRel descending y (insertBy byDepositsDescending x l).
Proof.
  intros Hyx Hhd. destruct l as [| z l]; simpl.
  - constructor; exact Hyx.
  - destruct (0 <? byDepositsDescending x z)%float; constructor.
    + inversion Hhd; assumption.
    + exact Hyx.
Qed.

Lemma insertBy_numeric x l :
  numeric x -> Forall numeric l ->
  Forall numeric (insertBy byDepositsDescending x l).
Proof.
  intros Hx Hl. induction Hl as [| y l Hy Hl IH]; simpl.
  - repeat constructor. exact Hx.
  - destruct (0 <? byDepositsDescending x y)%float; repeat constructor;
      assumption.
Qed.

Lemma insertBy_Sorted x l :
  numeric x -> Forall numeric l ->
  Sorted descending l ->
  Sorted descending (insertBy byDepositsDescending x l).
Proof.
  intros Hx Hl Hsorted. induction Hsorted as [| y l Hsorted IH Hhd]; simpl.
  - repeat constructor.
  - apply Forall_cons in Hl as [Hy Hl].
    destruct (0 <? byDepositsDescending x y)%float eqn:Hcmp;
      rewrite (comparator_sign x y Hx Hy) in Hcmp.
    + apply Z.ltb_lt in Hcmp.
      constructor; [exact (IH Hl) |].
      apply insertBy_HdRel; [| exact Hhd].
      apply descending_rank; [assumption .. | lia].
    + apply Z.ltb_ge in Hcmp.
      constructor; [constructor; assumption |].
      constructor. apply descending_rank; assumption.
Qed.

Lemma sortBy_numeric l :
  Forall numeric l -> Forall numeric (sortBy byDepositsDescending l).
Proof.
  induction 1 as [| x l Hx Hl IH]; simpl.
  - constructor.
  - apply insertBy_numeric; assumption.
Qed.

(** The sort puts summaries whose deposits are numbers in descending
    order. *)
Lemma sortBy_Sorted l :
  Forall numeric l -> Sorted descending (sortBy byDepositsDescending l).
Proof.
  induction 1 as [| x l Hx Hl IH]; simpl.
  - constructor.
  - apply insertBy_Sorted; [exact Hx | apply sortBy_numeric; exact Hl
                            | exact IH].
Qed.

Lemma insertBy_Permutation {A} (compare : A -> A -> float) x l :
  insertBy compare x l ≡ₚ x :: l.
Proof.
  induction l as [| y l IH]; simpl; [reflexivity |].
  destruct (0 <? compare x y)%float; [| reflexivity].
  rewrite IH. apply Permutation_swap.
Qed.

(** The sort keeps every element, as often as it occurs. *)
Lemma sortBy_Permutation {A} (compare : A -> A -> float) l :
  sortBy compare l ≡ₚ l.
Proof.
  induction l as [| x l IH]; simpl; [reflexivity |].
  rewrite insertBy_Permutation, IH. reflexivity.
Qed.

(** Deposits that differ on the wire and round to the same double are a
    tie: the report keeps the order in which they were collected. *)
Lemma rounded_deposits_tie :
  (fun r => sum_obligationId <$> obligations r)
    <$> reportOf (fst (run roundingRemote)) = Some ["ob0"; "ob1"] /\
  (Number (2 ^ 53) =? Number (2 ^ 53 + 1))%float = true.
Proof. split; vm_compute; reflexivity. Qed.

Lemma Sorted_adjacent {A} (R : A -> A -> Prop) l i a b :
  Sorted R l -> l !! i = Some a -> l !! S i = Some b -> R a b.
Proof.
  intros Hsorted. revert i. induction Hsorted as [| x l Hs IH Hhd];
    intros i Ha Hb; [discriminate |].
  destruct i as [| i]; simpl in *.
  - destruct l as [| y l]; [discriminate |].
    simpl in Hb. inversion Hhd; subst. congruence.
  - eapply IH; eassumption.
Qed.

(** ** The pipeline as a whole *)

Lemma compileResults_value caps c t initialFailedCount w :
  fst (compileResults caps c t initialFailedCount w) = tvlSummaryOf t.
Proof.
  unfold compileResults, bind. run_binds. reflexivity.
Qed.

(** The outcome of a run, by what discovery and [initialize] return: the
    main loop never outlives its fuel, and no answer of [getObligation]
    keeps the report from being built. *)
Lemma run_outcome remote :
  match fst (discover remote emptyWorld) with
  | None => fst (run remote) = NotReported
  | Some allStrategyCaps =>
    if len allStrategyCaps =? 0 then fst (run remote) = NotReported
    else if initialize remote
         then exists t, fst (run remote) = Reported (tvlSummaryOf t)
         else fst (run remote) = NotReported
  end.
Proof.
  unfold run, calculateStrategyWrapperTVL, bind.
  destruct (discover remote emptyWorld) as [[allStrategyCaps |] w1];
    cbn [fst]; [| reflexivity].
  destruct (len allStrategyCaps =? 0); [reflexivity |].
  remember (extractCapInfos allStrategyCaps) as strategyCapInfos.
  remember (S (length strategyCapInfos)) as fuel eqn:Hfuel.
  unfold addResult, emit. destruct (initialize remote); [| reflexivity].
  match goal with
  | |- context [mainLoop ?r ?caps ?fuel ?st ?w] =>
    destruct (mainLoop_terminates r caps fuel st w) as (st' & Hloop & _);
      [ unfold loopInvariant; simpl;
        split; [apply initialController_bounded | lia]
      | simpl loop_i; unfold len; lia
      | destruct (mainLoop r caps fuel st w) as [finished w2] ]
  end.
  cbn [fst] in Hloop. subst finished.
  destruct (cleanupPass remote strategyCapInfos (totals st') w2)
    as [cleaned w3].
  match goal with
  | |- context [compileResults ?caps ?c ?t ?n ?w] =>
    pose proof (compileResults_value caps c t n w) as Hreport;
    destruct (compileResults caps c t n w) as [tvlSummary w4]
  end.
  cbn [fst] in *. subst tvlSummary. eexists; reflexivity.
Qed.

Lemma run_reported remote tvlSummary :
  fst (run remote) = Reported tvlSummary ->
  exists t, tvlSummary = tvlSummaryOf t.
Proof.
  intros Hrun. pose proof (run_outcome remote) as H.
  destruct (fst (discover remote emptyWorld)) as [allStrategyCaps |];
    [| congruence].
  destruct (len allStrategyCaps =? 0); [congruence |].
  destruct (initialize remote); [| congruence].
  destruct H as [t Ht]. exists t. congruence.
Qed.

Lemma run_never_diverges remote : fst (run remote) <> Diverged.
Proof.
  pose proof (run_outcome remote) as H.
  destruct (fst (discover remote emptyWorld)) as [allStrategyCaps |];
    [| congruence].
  destruct (len allStrategyCaps =? 0); [congruence |].
  destruct (initialize remote); [| congruence].
  destruct H as [t Ht]. congruence.
Qed.

(** The count of a report is the length of its list. *)
Lemma report_count_is_length remote tvlSummary :
  fst (run remote) = Reported tvlSummary ->
  strategyCount tvlSummary = len (obligations tvlSummary).
Proof.
  intros Hrun. destruct (run_reported remote tvlSummary Hrun) as [t ->].
  unfold tvlSummaryOf, len; simpl.
  rewrite (Permutation_length (sortBy_Permutation _ _)). reflexivity.
Qed.

(** ** The retry loops *)

Ltac attempt_numbers :=
  change (1 + 1) with 2; change (2 + 1) with 3; change (3 + 1) with 4;
  change (4 + 1) with 5;
  change (1 =? 3) with false; change (2 =? 3) with false;
  change (3 =? 3) with true;
  change (1 <? 5) with true; change (2 <? 5) with true;
  change (3 <? 5) with true; change (4 <? 5) with true;
  change (5 <? 5) with false.

Ltac retry_case n :=
  exists n; split;
  [ eexists; split; [rewrite <- !app_assoc; reflexivity |];
    split; [reflexivity |]; split; [lia |];
    split; [reflexivity |]; split; [reflexivity |];
    let k := fresh "k" in
    let Hk := fresh "Hk" in
    intros k Hk;
    repeat (destruct k as [| k]; [assumption |]); lia
  | ].

Lemma fetchWithRetry_budget remote total globalIndex capInfo w :
  let r := fetchWithRetry remote total globalIndex capInfo w in
  exists attempts,
    retried remote 3 1000 (obligationId capInfo) w (snd r) attempts /\
    match fst r with
    | Some obligationData =>
      exists obligation,
        getObligation remote (attempts - 1 + calls w)%nat
                      (obligationId capInfo) = Some obligation /\
        obligationData = summarize capInfo obligation
    | None =>
      attempts = 3%nat /\
      getObligation remote (2 + calls w)%nat (obligationId capInfo) = None
    end.
Proof.
  unfold retried, fetchWithRetry, fetchAttempts, bind, callGetObligation,
    addResult, setTimeout, emit, ret.
  cbn. attempt_numbers.
  destruct (getObligation remote (calls w) (obligationId capInfo))
    as [ob1 |] eqn:H1; cbn.
  { retry_case 1%nat. eexists; split; [exact H1 | reflexivity]. }
  destruct (getObligation remote (S (calls w)) (obligationId capInfo))
    as [ob2 |] eqn:H2; cbn.
  { retry_case 2%nat. eexists; split; [exact H2 | reflexivity]. }
  destruct (getObligation remote (S (S (calls w))) (obligationId capInfo))
    as [ob3 |] eqn:H3; cbn.
  { retry_case 3%nat. eexists; split; [exact H3 | reflexivity]. }
  retry_case 3%nat. split; [reflexivity | first [exact H3 | reflexivity]].
Qed.

Lemma cleanupAttempts_budget remote capInfo t cleanupSuccesses w :
  let r := cleanupAttempts remote 5 1 capInfo t cleanupSuccesses w in
  exists attempts,
    retried remote 5 2000 (obligationId capInfo) w (snd r) attempts /\
    if snd (fst r) then
      exists obligation,
        getObligation remote (attempts - 1 + calls w)%nat
                      (obligationId capInfo) = Some obligation /\
        fst (fst r) =
          (pushSummary t (summarize capInfo obligation),
           cleanupSuccesses + 1)
    else
      attempts = 5%nat /\
      getObligation remote (4 + calls w)%nat (obligationId capInfo) = None /\
      fst (fst r) = (t, cleanupSuccesses).
Proof.
  unfold retried, cleanupAttempts, bind, callGetObligation, when,
    addResult, setTimeout, emit, ret.
  cbn. attempt_numbers.
  destruct (getObligation remote (calls w) (obligationId capInfo))
    as [ob1 |] eqn:H1; cbn.
  { retry_case 1%nat. eexists; split; [exact H1 | reflexivity]. }
  destruct (getObligation remote (S (calls w)) (obligationId capInfo))
    as [ob2 |] eqn:H2; cbn.
  { retry_case 2%nat. eexists; split; [exact H2 | reflexivity]. }
  destruct (getObligation remote (S (S (calls w))) (obligationId capInfo))
    as [ob3 |] eqn:H3; cbn.
  { retry_case 3%nat. eexists; split; [exact H3 | reflexivity]. }
  destruct (getObligation remote (S (S (S (calls w))))
              (obligationId capInfo)) as [ob4 |] eqn:H4; cbn.
  { retry_case 4%nat. eexists; split; [exact H4 | reflexivity]. }
  destruct (getObligation remote (S (S (S (S (calls w)))))
              (obligationId capInfo)) as [ob5 |] eqn:H5; cbn.
  { retry_case 5%nat. eexists; split; [exact H5 | reflexivity]. }
  retry_case 5%nat. split; [reflexivity |].
  split; [first [exact H5 | reflexivity] | reflexivity].
Qed.

(** ** Discovery *)

Lemma quiet_emit e w :
  discoveryEffect e -> quiet w -> quiet (snd (emit e w)).
Proof.
  intros He [Hc Hq]. split; [exact Hc |]. simpl.
  apply Forall_app. split; [exact Hq |]. constructor; [exact He | constructor].
Qed.

Section DiscoveryFacts.

Variable remote : Remote.

Lemma fetchPages_quiet fuel pageCount cursor events w :
  quiet w -> quiet (snd (fetchPages remote fuel pageCount cursor events w)).
Proof.
  revert pageCount cursor events w.
  induction fuel as [| fuel IH]; intros pageCount cursor events w Hq;
    [exact Hq |].
  simpl. unfold bind, addResult.
  pose proof (quiet_emit (Call (QueryEvents cursor)) w I Hq) as H1.
  destruct (emit (Call (QueryEvents cursor)) w) as [[] w1]. simpl in H1.
  destruct (queryEvents remote cursor) as [page |]; [| exact H1].
  match goal with
  | |- context [emit ?e w1] =>
    pose proof (quiet_emit e w1 I H1) as H2; destruct (emit e w1) as [[] w2]
  end.
  simpl in H2. destruct (hasNextPage page); [apply IH; exact H2 | exact H2].
Qed.

Lemma resolveChunk_quiet index batch found notFoundCount w :
  quiet w ->
  quiet (snd (resolveChunk remote index batch found notFoundCount w)).
Proof.
  revert index found notFoundCount w.
  induction batch as [| capId rest IH]; intros index found notFoundCount w Hq;
    [exact Hq |].
  simpl. unfold bind.
  pose proof (quiet_emit (Call (GetObject capId)) w I Hq) as H1.
  destruct (emit (Call (GetObject capId)) w) as [[] w1]. simpl in H1.
  destruct (getObject remote index capId); apply IH; exact H1.
Qed.

Lemma resolveLoop_quiet fuel i ids found notFoundCount w :
  quiet w ->
  quiet (snd (resolveLoop remote fuel i ids found notFoundCount w)).
Proof.
  revert i found notFoundCount w.
  induction fuel as [| fuel IH]; intros i found notFoundCount w Hq;
    [exact Hq |].
  simpl. destruct (i <? len ids); [| exact Hq].
  unfold bind, addResult.
  match goal with
  | |- context [emit ?e w] =>
    pose proof (quiet_emit e w I Hq) as H1; destruct (emit e w) as [[] w1]
  end.
  simpl in H1.
  match goal with
  | |- context [resolveChunk ?r ?i ?b ?f ?n w1] =>
    pose proof (resolveChunk_quiet i b f n w1 H1) as H2;
    destruct (resolveChunk r i b f n w1) as [r2 w2]
  end.
  apply IH; exact H2.
Qed.

Lemma discover_quiet w : quiet w -> quiet (snd (discover remote w)).
Proof.
  intros Hq. unfold discover, bind.
  pose proof (fetchPages_quiet 20 0 None [] w Hq) as H1.
  destruct (fetchPages remote 20 0 None [] w) as [[[events pageCount] |] w1];
    [| exact H1].
  simpl in H1. unfold addResult.
  match goal with
  | |- context [emit ?e w1] =>
    pose proof (quiet_emit e w1 I H1) as H2; destruct (emit e w1) as [[] w2]
  end.
  simpl in H2.
  match goal with
  | |- context [emit ?e w2] =>
    pose proof (quiet_emit e w2 I H2) as H3; destruct (emit e w2) as [[] w3]
  end.
  simpl in H3. unfold resolveObjects, bind, addResult.
  match goal with
  | |- context [resolveLoop ?r ?fuel ?i ?ids ?f ?n w3] =>
    pose proof (resolveLoop_quiet fuel i ids f n w3 H3) as H4;
    destruct (resolveLoop r fuel i ids f n w3) as [r4 w4]
  end.
  simpl in H4. unfold when.
  destruct (0 <? snd r4).
  - match goal with
    | |- context [emit ?e w4] =>
      pose proof (quiet_emit e w4 I H4) as H5;
      destruct (emit e w4) as [[] w5]
    end.
    simpl in H5.
    match goal with
    | |- context [emit ?e w5] =>
      pose proof (quiet_emit e w5 I H5) as H6;
      destruct (emit e w5) as [[] w6]
    end.
    exact H6.
  - unfold ret.
    match goal with
    | |- context [emit ?e w4] =>
      pose proof (quiet_emit e w4 I H4) as H5;
      destruct (emit e w4) as [[] w5]
    end.
    exact H5.
Qed.

(** The resolver reads every id once, in order: its fuel is enough. *)
Lemma resolveChunk_found index batch found notFoundCount w :
  fst (fst (resolveChunk remote index batch found notFoundCount w)) =
  found ++ resolvedFrom remote index batch.
Proof.
  revert index found notFoundCount w.
  induction batch as [| capId rest IH]; intros index found notFoundCount w.
  - simpl. rewrite app_nil_r. reflexivity.
  - simpl. unfold bind, emit.
    destruct (getObject remote index capId) as [obj |].
    + rewrite IH, <- app_assoc. reflexivity.
    + apply IH.
Qed.

Lemma resolvedFrom_app index ids1 ids2 :
  resolvedFrom remote index (ids1 ++ ids2) =
  resolvedFrom remote index ids1 ++
  resolvedFrom remote (index + len ids1) ids2.
Proof.
  revert index. induction ids1 as [| capId rest IH]; intros index.
  - simpl. unfold len; simpl. rewrite Z.add_0_r. reflexivity.
  - simpl. rewrite IH.
    replace (index + 1 + len rest) with (index + len (capId :: rest))
      by (unfold len; simpl length; lia).
    destruct (getObject remote index capId); reflexivity.
Qed.

Lemma resolveLoop_found fuel i ids found notFoundCount w :
  0 <= i -> Z.max 0 (len ids - i) < Z.of_nat fuel ->
  fst (fst (resolveLoop remote fuel i ids found notFoundCount w)) =
  found ++ resolvedFrom remote i (drop (Z.to_nat i) ids).
Proof.
  revert i found notFoundCount w.
  induction fuel as [| fuel IH]; intros i found notFoundCount w Hi Hfuel;
    [lia |].
  simpl. destruct (i <? len ids) eqn:Hlt.
  - apply Z.ltb_lt in Hlt. unfold bind, addResult, emit.
    match goal with
    | |- context [resolveChunk ?r ?j ?b ?f ?n ?w'] =>
      pose proof (resolveChunk_found j b f n w') as Hchunk;
      destruct (resolveChunk r j b f n w') as [r1 w1]
    end.
    cbn [fst] in Hchunk.
    rewrite IH by (unfold chunkSize; lia). rewrite Hchunk, <- app_assoc.
    f_equal.
    set (k := Z.to_nat (Z.min (i + chunkSize) (len ids) - i)).
    assert (Hslice : slice ids i (i + chunkSize) =
                     take k (drop (Z.to_nat i) ids)).
    { unfold slice, chunkSize in *.
      replace (i <? 0) with false by (symmetry; apply Z.ltb_ge; lia).
      replace (i + 50 <? 0) with false by (symmetry; apply Z.ltb_ge; lia).
      subst k. repeat f_equal; lia. }
    rewrite Hslice.
    rewrite <- (take_drop k (drop (Z.to_nat i) ids)) at 2.
    rewrite resolvedFrom_app. f_equal.
    rewrite drop_drop.
    destruct (Z.le_gt_cases (i + chunkSize) (len ids)) as [Hle | Hgt].
    + assert (Hk : k = Z.to_nat chunkSize) by (subst k; lia).
      unfold len at 1. rewrite length_take, length_drop.
      unfold len, chunkSize in *.
      replace (i + Z.of_nat (k `min` (length ids - Z.to_nat i)))
        with (i + 50) by lia.
      replace (Z.to_nat i + k)%nat with (Z.to_nat (i + 50)) by lia.
      reflexivity.
    + rewrite (drop_ge ids (Z.to_nat i + k))
        by (subst k; unfold len in *; lia).
      rewrite (drop_ge ids (Z.to_nat (i + chunkSize)))
        by (unfold len in *; lia).
      reflexivity.
  - apply Z.ltb_ge in Hlt.
    rewrite (drop_ge ids (Z.to_nat i)) by (unfold len in *; lia).
    simpl. rewrite app_nil_r. reflexivity.
Qed.

Lemma resolveObjects_value ids w :
  fst (resolveObjects remote ids w) = resolvedFrom remote 0 ids.
Proof.
  unfold resolveObjects, bind.
  pose proof (resolveLoop_found (S (length ids)) 0 ids [] 0 w) as H.
  destruct (resolveLoop remote (S (length ids)) 0 ids [] 0 w) as [r w1].
  cbn [fst] in H. run_binds. cbn [fst ret]. unfold ret. cbn [fst].
  rewrite H by (unfold len; lia). reflexivity.
Qed.

(** What discovery returns: the caps of all events, resolved in order. *)
Lemma discover_value w :
  fst (discover remote w) =
  match fst (fetchPages remote 20 0 None [] w) with
  | Some (allCreatedEvents, _) =>
    Some (resolvedFrom remote 0 (extractCapIds allCreatedEvents))
  | None => None
  end.
Proof.
  unfold discover, bind.
  destruct (fetchPages remote 20 0 None [] w) as [[[events pageCount] |] w1];
    [| reflexivity].
  unfold addResult, emit. cbn [fst].
  match goal with
  | |- context [resolveObjects ?r ?ids ?w'] =>
    pose proof (resolveObjects_value ids w') as H;
    destruct (resolveObjects r ids w') as [found w2]
  end.
  cbn [fst] in *. rewrite H. reflexivity.
Qed.

(** Without resolved capability objects the run stops at line 242: no
    report, and nothing happened but discovery and the warning. *)
Lemma run_without_caps :
  fst (discover remote emptyWorld) = Some [] ->
  fst (run remote) = NotReported /\
  calls (snd (run remote)) = 0%nat /\
  exists es, trace (snd (run remote)) = es ++ [Say LNoCaps] /\
             Forall discoveryEffect es.
Proof.
  intros Hd. unfold run, calculateStrategyWrapperTVL, bind.
  assert (Hq : quiet (snd (discover remote emptyWorld))).
  { apply discover_quiet. split; [reflexivity | constructor]. }
  destruct (discover remote emptyWorld) as [d w1]. simpl in Hd, Hq. subst d.
  simpl. destruct Hq as [Hc Hq].
  split; [reflexivity |]. split; [exact Hc |].
  exists (trace w1). split; [reflexivity | exact Hq].
Qed.

End DiscoveryFacts.

Lemma discoveryEffects_silent es :
  Forall discoveryEffect es ->
  requestsIn es = [] /\ sleepsIn es = [] /\
  forall n, Say (LCleanupPass n) ∉ es.
Proof.
  induction 1 as [| e es He Hes (IHr & IHs & IHc)].
  - repeat split; try reflexivity. intros n Hn. inversion Hn.
  - unfold requestsIn, sleepsIn in *.
    destruct e as [l | ms | r]; simpl in He |- *.
    + destruct l; try contradiction;
        (repeat split; try exact IHr; try exact IHs);
        intros n Hn; apply elem_of_cons in Hn as [Hn | Hn];
        solve [discriminate | eapply IHc; eassumption].
    + contradiction.
    + destruct r; try contradiction;
        (repeat split; try exact IHr; try exact IHs);
        intros n Hn; apply elem_of_cons in Hn as [Hn | Hn];
        solve [discriminate | eapply IHc; eassumption].
Qed.

(** [exampleCaps] is what the extractor gives on the example services. *)
Lemma exampleCaps_extracted :
  extractCapInfos <$> fst (discover overlapRemote emptyWorld) =
  Some (exampleCaps 15) /\
  extractCapInfos <$> fst (discover healthyRemote emptyWorld) =
  Some (exampleCaps 15).
Proof. split; vm_compute; reflexivity. Qed.

(** ** What every report is built from *)

Lemma fetchWithRetry_result remote total globalIndex capInfo w :
  fst (fetchWithRetry remote total globalIndex capInfo w) = None \/
  exists obligation,
    fst (fetchWithRetry remote total globalIndex capInfo w) =
    Some (summarize capInfo obligation).
Proof.
  destruct (fetchWithRetry_budget remote total globalIndex capInfo w)
    as (attempts & _ & Hresult).
  destruct (fst (fetchWithRetry remote total globalIndex capInfo w))
    as [obligationData |]; [| left; reflexivity].
  destruct Hresult as (obligation & _ & ->). right. eauto.
Qed.

(** The answers of a batch, record by record. *)
Lemma processBatch_results remote total i b batch w :
  Forall2 (fun capInfo result =>
             result = None \/
             exists obligation,
               result = Some (summarize capInfo obligation))
          batch (fst (processBatch remote total i b batch w)).
Proof.
  revert b w. induction batch as [| capInfo rest IH]; intros b w.
  - constructor.
  - simpl. unfold bind.
    pose proof (fetchWithRetry_result remote total (i + b) capInfo w) as Hr.
    destruct (fetchWithRetry remote total (i + b) capInfo w) as [r w1].
    specialize (IH (b + 1) w1).
    destruct (processBatch remote total i (b + 1) rest w1) as [rs w2].
    simpl in *. constructor; assumption.
Qed.

Lemma elem_of_slice {A} (l : list A) start stop x :
  x ∈ slice l start stop -> x ∈ l.
Proof.
  unfold slice. intros Hx.
  apply elem_of_take in Hx as (k & Hk & _).
  rewrite lookup_drop in Hk. eapply list_elem_of_lookup_2; exact Hk.
Qed.

Lemma collect_is_merge results t s f :
  fst (fst (collect results t s f)) = mergeResults results t.
Proof.
  revert t s f. induction results as [| [r |] rest IH]; intros t s f; simpl;
    [reflexivity | apply IH | apply IH].
Qed.

Section TotalsInvariant.

Variable remote : Remote.
Variable strategyCapInfos : list StrategyCapInfo.
Variable P : Totals -> Prop.
Hypothesis P_push :
  forall t capInfo obligation,
    capInfo ∈ strategyCapInfos -> P t ->
    P (pushSummary t (summarize capInfo obligation)).

Lemma mergeResults_invariant batch results t :
  Forall2 (fun capInfo result =>
             result = None \/
             exists obligation,
               result = Some (summarize capInfo obligation))
          batch results ->
  (forall capInfo, capInfo ∈ batch -> capInfo ∈ strategyCapInfos) ->
  P t -> P (mergeResults results t).
Proof.
  intros Hall. revert t.
  induction Hall as [| capInfo result batch results Hhead Hall IH];
    intros t Hsub Ht; [exact Ht |].
  assert (Hsub' : forall c, c ∈ batch -> c ∈ strategyCapInfos).
  { intros c Hc. apply Hsub. right. exact Hc. }
  destruct Hhead as [-> | (obligation & ->)]; simpl.
  - apply IH; assumption.
  - apply IH; [exact Hsub' |]. apply P_push; [| exact Ht].
    apply Hsub. left.
Qed.

Lemma mainIteration_totals st w :
  P (totals st) ->
  P (totals (fst (mainIteration remote strategyCapInfos st w))).
Proof.
  intros Ht. rewrite mainIteration_state. cbn [totals].
  unfold runBatch, bind, addResult, emit, ret.
  match goal with
  | |- context [processBatch ?r ?t ?i ?b ?l ?w'] =>
    pose proof (processBatch_results r t i b l w') as Hres;
    destruct (processBatch r t i b l w') as [results w1]
  end.
  cbn [fst snd] in *. rewrite collect_is_merge.
  eapply mergeResults_invariant; [exact Hres | | exact Ht].
  intros capInfo Hin. eapply elem_of_slice. exact Hin.
Qed.

Lemma mainLoop_totals fuel st w st' :
  P (totals st) ->
  fst (mainLoop remote strategyCapInfos fuel st w) = Some st' ->
  P (totals st').
Proof.
  revert st w. induction fuel as [| fuel IH]; intros st w Ht Hloop;
    [discriminate |].
  simpl in Hloop. destruct (loop_i st <? len strategyCapInfos).
  - unfold bind in Hloop.
    pose proof (mainIteration_totals st w Ht) as Ht'.
    destruct (mainIteration remote strategyCapInfos st w) as [st1 w1].
    eapply IH; eassumption.
  - injection Hloop as <-. exact Ht.
Qed.

Lemma cleanupAttempts_totals capInfo t cleanupSuccesses w :
  capInfo ∈ strategyCapInfos -> P t ->
  P (fst (fst (fst (cleanupAttempts remote 5 1 capInfo t
                                    cleanupSuccesses w)))).
Proof.
  intros Hin Ht.
  destruct (cleanupAttempts_budget remote capInfo t cleanupSuccesses w)
    as (attempts & _ & Hresult).
  destruct (cleanupAttempts remote 5 1 capInfo t cleanupSuccesses w)
    as [[[t' successes] ok] w1].
  cbn [fst snd] in *. destruct ok.
  - destruct Hresult as (obligation & _ & [= -> _]).
    apply P_push; assumption.
  - destruct Hresult as (_ & _ & [= -> _]). exact Ht.
Qed.

Lemma cleanupLoop_totals i total rest t cleanupSuccesses w :
  (forall capInfo, capInfo ∈ rest -> capInfo ∈ strategyCapInfos) ->
  P t ->
  P (fst (fst (cleanupLoop remote i total rest t cleanupSuccesses w))).
Proof.
  revert i t cleanupSuccesses w.
  induction rest as [| capInfo rest IH]; intros i t cleanupSuccesses w Hsub Ht;
    [exact Ht |].
  cbn [cleanupLoop]. unfold bind, addResult, emit.
  match goal with
  | |- context [cleanupAttempts ?r 5 1 ?c ?t0 ?s ?w'] =>
    pose proof (cleanupAttempts_totals c t0 s w'
                  (Hsub c ltac:(left)) Ht) as Ht';
    destruct (cleanupAttempts r 5 1 c t0 s w') as [r1 w1]
  end.
  cbn [fst snd] in *. run_binds.
  apply IH; [| exact Ht'].
  intros c Hc. apply Hsub. right. exact Hc.
Qed.

Lemma cleanupPass_totals t w :
  P t -> P (fst (fst (cleanupPass remote strategyCapInfos t w))).
Proof.
  intros Ht. unfold cleanupPass.
  destruct (0 <? len strategyCapInfos - len (acc_obligations t));
    [| exact Ht].
  unfold bind, addResult, emit.
  match goal with
  | |- context [cleanupLoop ?r ?i ?n ?l ?t0 ?s ?w'] =>
    pose proof (cleanupLoop_totals i n l t0 s w') as Hloop;
    destruct (cleanupLoop r i n l t0 s w') as [r1 w1]
  end.
  cbn [fst snd] in *. run_binds. cbn [fst].
  apply Hloop; [| exact Ht].
  intros capInfo Hin. unfold failedCapInfosOf in Hin.
  apply list_elem_of_filter in Hin as [_ Hin]. exact Hin.
Qed.

Lemma fixedLoop_totals fuel st w st' :
  P (snd st) ->
  fst (fixedLoop remote strategyCapInfos fuel st w) = Some st' ->
  P (snd st').
Proof.
  revert st w. induction fuel as [| fuel IH]; intros st w Ht Hloop;
    [discriminate |].
  simpl in Hloop. destruct (fst st <? len strategyCapInfos).
  - unfold bind in Hloop.
    assert (Ht' : P (snd (fst (fixedIteration remote strategyCapInfos
                                               st w)))).
    { unfold fixedIteration, bind, addResult, emit.
      match goal with
      | |- context [processBatch ?r ?t ?i ?b ?l ?w'] =>
        pose proof (processBatch_results r t i b l w') as Hres;
        destruct (processBatch r t i b l w') as [results w1]
      end.
      cbn [fst snd] in *. run_binds. cbn [fst snd].
      eapply mergeResults_invariant; [exact Hres | | exact Ht].
      intros capInfo Hin. eapply elem_of_slice. exact Hin. }
    destruct (fixedIteration remote strategyCapInfos st w) as [st1 w1].
    eapply IH; eassumption.
  - injection Hloop as <-. exact Ht.
Qed.

End TotalsInvariant.

(** A property of the totals that the empty totals have and that every
    summary of a record keeps holds of the totals behind every report. *)
Lemma run_report_totals remote
    (P : list StrategyCapInfo -> Totals -> Prop) tvlSummary :
  (forall caps, P caps (mkTotals [] 0 0 0)) ->
  (forall caps t capInfo obligation,
     capInfo ∈ caps -> P caps t ->
     P caps (pushSummary t (summarize capInfo obligation))) ->
  fst (run remote) = Reported tvlSummary ->
  exists allStrategyCaps t,
    fst (discover remote emptyWorld) = Some allStrategyCaps /\
    tvlSummary = tvlSummaryOf t /\
    P (extractCapInfos allStrategyCaps) t.
Proof.
  intros Pinit Ppush. unfold run, calculateStrategyWrapperTVL, bind.
  destruct (discover remote emptyWorld) as [[allStrategyCaps |] w1];
    cbn [fst]; [| discriminate].
  destruct (len allStrategyCaps =? 0); [discriminate |].
  remember (extractCapInfos allStrategyCaps) as strategyCapInfos.
  remember (S (length strategyCapInfos)) as fuel eqn:Hfuel.
  unfold addResult, emit. destruct (initialize remote); [| discriminate].
  match goal with
  | |- context [mainLoop ?r ?caps ?fuel ?st ?w] =>
    pose proof (mainLoop_totals r caps (P caps) (Ppush caps) fuel st w)
      as Hloop;
    destruct (mainLoop r caps fuel st w) as [[st' |] w2]
  end; [| discriminate].
  specialize (Hloop st' (Pinit _) eq_refl).
  pose proof (cleanupPass_totals remote strategyCapInfos
                (P strategyCapInfos) (Ppush strategyCapInfos)
                (totals st') w2 Hloop) as Hclean.
  destruct (cleanupPass remote strategyCapInfos (totals st') w2)
    as [cleaned w3].
  match goal with
  | |- context [compileResults ?caps ?c ?t ?n ?w] =>
    pose proof (compileResults_value caps c t n w) as Hreport;
    destruct (compileResults caps c t n w) as [report w4]
  end.
  cbn [fst] in *. intros [= <-].
  exists allStrategyCaps, (fst cleaned). subst strategyCapInfos. auto.
Qed.

Lemma compileResultsFixed_value caps t w :
  fst (compileResultsFixed caps t w) = tvlSummaryOf t.
Proof.
  unfold compileResultsFixed, bind. run_binds. reflexivity.
Qed.

Lemma runFixed_report_totals remote
    (P : list StrategyCapInfo -> Totals -> Prop) tvlSummary :
  (forall caps, P caps (mkTotals [] 0 0 0)) ->
  (forall caps t capInfo obligation,
     capInfo ∈ caps -> P caps t ->
     P caps (pushSummary t (summarize capInfo obligation))) ->
  fst (runFixed remote) = Reported tvlSummary ->
  exists allStrategyCaps t,
    fst (discover remote emptyWorld) = Some allStrategyCaps /\
    tvlSummary = tvlSummaryOf t /\
    P (extractCapInfos allStrategyCaps) t.
Proof.
  intros Pinit Ppush. unfold runFixed, calculateStrategyWrapperTVLFixed, bind.
  destruct (discover remote emptyWorld) as [[allStrategyCaps |] w1];
    cbn [fst]; [| discriminate].
  destruct (len allStrategyCaps =? 0); [discriminate |].
  remember (extractCapInfos allStrategyCaps) as strategyCapInfos.
  remember (S (length strategyCapInfos)) as fuel eqn:Hfuel.
  unfold addResult, emit. destruct (initialize remote); [| discriminate].
  match goal with
  | |- context [fixedLoop ?r ?caps ?fuel ?st ?w] =>
    pose proof (fixedLoop_totals r caps (P caps) (Ppush caps) fuel st w)
      as Hloop;
    destruct (fixedLoop r caps fuel st w) as [[st' |] w2]
  end; [| discriminate].
  specialize (Hloop st' (Pinit _) eq_refl).
  match goal with
  | |- context [compileResultsFixed ?caps ?t ?w] =>
    pose proof (compileResultsFixed_value caps t w) as Hreport;
    destruct (compileResultsFixed caps t w) as [report w4]
  end.
  cbn [fst] in *. intros [= <-].
  exists allStrategyCaps, (snd st'). subst strategyCapInfos. auto.
Qed.

(** The deposits of a summary are a number: [Number] gives no NaN, and
    neither does the division by 1e18. *)
Lemma summarize_numeric capInfo obligation :
  numeric (summarize capInfo obligation).
Proof.
  unfold numeric, summarize. cbn [deposited_value_usd].
  apply (div_not_nan _ 1e18 false 7812500000000000 7);
    [apply Number_not_nan | vm_compute; reflexivity].
Qed.

(** In every report the deposits of every position are numbers. *)
Lemma report_numeric remote tvlSummary :
  fst (run remote) = Reported tvlSummary ->
  exists t, tvlSummary = tvlSummaryOf t /\ Forall numeric (acc_obligations t).
Proof.
  intros Hrun.
  destruct (run_report_totals remote
              (fun _ t => Forall numeric (acc_obligations t)) tvlSummary)
    as (caps & t & _ & -> & Ht); [| | exact Hrun | eauto].
  - intros _. constructor.
  - intros caps t capInfo obligation _ Ht. unfold pushSummary.
    cbn [acc_obligations]. apply Forall_app. split; [exact Ht |].
    constructor; [apply summarize_numeric | constructor].
Qed.

(** * The claims *)

(** C1 (the code departs from the claim).  A run in which the controller
    lowers the batch size: of fifteen records the first cannot be
    fetched.  The first batch covers records 0 to 14 and ends in a
    cautious slowdown to 13; the loop then advances [i] by the new size,
    so the second batch is the slice from 13 and fetches records 13 and
    14 again.  The report holds their summaries twice and the totals
    count their deposits twice: 16 summaries and 1600 USD of deposits
    for 14 fetched records of 100 USD each. *)
Theorem overlapping_batches_duplicate_summaries :
  (fun r => (sum_obligationId <$> obligations r,
             totalDeposits r, totalTVL r, totalBorrows r))
    <$> reportOf (fst (run overlapRemote)) =
  Some (["ob1"; "ob2"; "ob3"; "ob4"; "ob5"; "ob6"; "ob7"; "ob8"; "ob9";
         "ob10"; "ob11"; "ob12"; "ob13"; "ob14"; "ob13"; "ob14"],
        1600%float, 1600%float, 640%float) /\
  controllerLog (snd (run overlapRemote)) =
  [LBatch 1 1 15 15 300; LCautious 1 13 500;
   LBatchResults 14 1 (280 # 3) false;
   LBatch 2 2 2 13 500; LBatchResults 2 0 100 false;
   LFinalSettings 13 500 false].
Proof. split; vm_compute; reflexivity. Qed.

(** C2 (the code departs from the claim).  In the same run the count of
    the report and the length of its list are both 16, while 15
    capability records were extracted. *)
Theorem report_count_exceeds_records :
  (fun caps => len (extractCapInfos caps))
    <$> fst (discover overlapRemote emptyWorld) = Some 15 /\
  (fun r => (strategyCount r, len (obligations r)))
    <$> reportOf (fst (run overlapRemote)) = Some (16, 16).
Proof. split; vm_compute; reflexivity. Qed.

(** C3, as the claim states it, fails: with no creation event discovery
    resolves no capability object, and the run ends without any report,
    hence without one whose count and TVL are 0. *)
Lemma empty_discovery_reports_nothing :
  fst (discover silentRemote emptyWorld) = Some [] /\
  ~ exists tvlSummary,
      fst (run silentRemote) = Reported tvlSummary /\
      strategyCount tvlSummary = 0 /\ totalTVL tvlSummary = 0%float.
Proof.
  split; [vm_compute; reflexivity |].
  intros (tvlSummary & Hrun & _).
  assert (H : fst (run silentRemote) = NotReported)
    by (vm_compute; reflexivity).
  congruence.
Qed.

(** C3, amended.  Whenever discovery resolves no capability object, the
    run stops after the warning of line 240 and hands no report to
    [setTvlData]; no position is fetched, nothing sleeps and the cleanup
    pass does not start. *)
Theorem no_caps_no_report remote :
  fst (discover remote emptyWorld) = Some [] ->
  fst (run remote) = NotReported /\
  last (trace (snd (run remote))) = Some (Say LNoCaps) /\
  calls (snd (run remote)) = 0%nat /\
  requestsIn (trace (snd (run remote))) = [] /\
  sleepsIn (trace (snd (run remote))) = [] /\
  forall n, Say (LCleanupPass n) ∉ trace (snd (run remote)).
Proof.
  intros Hd.
  destruct (run_without_caps remote Hd) as (Hrun & Hcalls & es & Htrace & Hes).
  destruct (discoveryEffects_silent es Hes) as (Hr & Hs & Hc).
  rewrite Htrace. repeat split.
  - exact Hrun.
  - apply last_snoc.
  - exact Hcalls.
  - unfold requestsIn in *. rewrite omap_app, Hr. reflexivity.
  - unfold sleepsIn in *. rewrite omap_app, Hs. reflexivity.
  - intros n Hn. apply elem_of_app in Hn as [Hn | Hn].
    + exact (Hc n Hn).
    + apply list_elem_of_singleton in Hn. discriminate.
Qed.

(** The run on [silentRemote]. *)
Lemma no_caps_no_report_witness :
  fst (run silentRemote) = NotReported /\
  last (trace (snd (run silentRemote))) = Some (Say LNoCaps) /\
  calls (snd (run silentRemote)) = 0%nat /\
  requestsIn (trace (snd (run silentRemote))) = [] /\
  sleepsIn (trace (snd (run silentRemote))) = [] /\
  forall n, Say (LCleanupPass n) ∉ trace (snd (run silentRemote)).
Proof.
  apply (no_caps_no_report silentRemote). vm_compute. reflexivity.
Defined.

(** C4 (the code departs from the claim).  A batch of four records with
    one failure: a quarter of the batch failed, more than 20%, and the
    success rate is 75.  [Math.ceil(4 * 0.2)] is 1 and one failure is not
    more than 1, so the batch takes the cautious arm: the size goes from
    15 to 13, the delay from 300 to 500, and recovery mode stays off,
    where the claim has 10, 700 and recovery mode on. *)
Theorem quarter_failed_batch_is_cautious :
  hasSignificantFailures 1 4 = false /\
  Qred (batchSuccessRate 3 4) = 75%Q /\
  classify 3 1 4 = Cautious /\
  fst (adjust initialController 3 1 4) =
    mkController 13 500 0 0 false 1 /\
  controllerLog (snd (run quarterRemote)) =
  [LBatch 1 1 4 15 300; LCautious 1 13 500;
   LBatchResults 3 1 75 false; LFinalSettings 13 500 false].
Proof. repeat split; vm_compute; reflexivity. Qed.

(** C5 (the code departs from the claim).  Five batches: the first loses
    four records and enters recovery mode, the second is flawless, the
    third loses one record and takes the cautious arm, which leaves
    [consecutiveSuccesses] at 1, the fourth and the fifth are flawless.
    The fifth batch leaves recovery mode although only two flawless
    batches have passed since the last failure. *)
Theorem recovery_left_after_relapse :
  controllerLog (snd (run relapseRemote)) =
  [LBatch 1 3 15 15 300; LAggressive 4 10 700;
   LBatchResults 11 4 (220 # 3) true;
   LBatch 2 5 10 10 700; LBatchResults 10 0 100 true;
   LBatch 3 5 10 10 700; LCautious 1 8 900; LBatchResults 9 1 90 true;
   LBatch 4 6 8 8 900; LBatchResults 8 0 100 true;
   LBatch 5 6 8 8 900; LExitRecovery 3; LSpeedUp 11 800;
   LBatchResults 8 0 100 false;
   LFinalSettings 11 800 false].
Proof. vm_compute. reflexivity. Qed.

(** C6, as the claim states it, fails.  Four records of the first batch
    cannot be fetched; the batches 2, 3 and 4 are flawless and run in
    recovery mode, which the fourth leaves.  The fifth batch is the first
    flawless batch that starts outside recovery mode, and it changes the
    settings from size 13 and delay 600 to size 16 and delay 500. *)
Lemma first_calm_batch_speeds_up :
  controllerLog (snd (run calmRemote)) =
  [LBatch 1 3 15 15 300; LAggressive 4 10 700;
   LBatchResults 11 4 (220 # 3) true;
   LBatch 2 5 10 10 700; LBatchResults 10 0 100 true;
   LBatch 3 5 10 10 700; LBatchResults 10 0 100 true;
   LBatch 4 5 10 10 700; LExitRecovery 3; LSpeedUp 13 600;
   LBatchResults 10 0 100 false;
   LBatch 4 4 1 13 600; LSpeedUp 16 500; LBatchResults 1 0 100 false;
   LFinalSettings 16 500 false] /\
  failureRecoveryMode (mkController 13 600 3 0 false 4) = false /\
  classify 1 0 1 = Perfect /\
  fst (adjust (mkController 13 600 3 0 false 4) 1 0 1) =
    mkController 16 500 4 0 false 4.
Proof. repeat split; vm_compute; reflexivity. Qed.

(** C6, amended.  For batches without failures that start outside
    recovery mode: the first one changes neither size nor delay when
    [consecutiveSuccesses] is 0 before it, as at the start of a run; with
    a counter of 1 or more, and so on the second and on every later
    consecutive such batch, the size grows by 3 up to 20 and the delay
    drops by 100 down to 100. *)
Theorem speed_up_on_calm_batches c n :
  failureRecoveryMode c = false -> 1 <= n ->
  0 <= consecutiveSuccesses c ->
  let c1 := fst (adjust c n 0 n) in
  (consecutiveSuccesses c = 0 ->
   currentBatchSize c1 = currentBatchSize c /\
   currentDelay c1 = currentDelay c) /\
  (1 <= consecutiveSuccesses c ->
   currentBatchSize c1 = Z.min (currentBatchSize c + 3) 20 /\
   currentDelay c1 = Z.max (currentDelay c - 100) 100) /\
  failureRecoveryMode c1 = false /\
  consecutiveSuccesses c1 = consecutiveSuccesses c + 1 /\
  forall m, 1 <= m ->
    let c2 := fst (adjust c1 m 0 m) in
    currentBatchSize c2 = Z.min (currentBatchSize c1 + 3) 20 /\
    currentDelay c2 = Z.max (currentDelay c1 - 100) 100.
Proof.
  intros Hmode Hn Hcount.
  assert (Hstep : forall c' k,
             failureRecoveryMode c' = false -> 1 <= k ->
             fst (adjust c' k 0 k) =
             mkController
               (if 2 <=? consecutiveSuccesses c' + 1
                then Z.min (currentBatchSize c' + 3) 20
                else currentBatchSize c')
               (if 2 <=? consecutiveSuccesses c' + 1
                then Z.max (currentDelay c' - 100) 100
                else currentDelay c')
               (consecutiveSuccesses c' + 1) 0 false (lastFailureCount c')).
  { intros c' k Hmode' Hk. unfold adjust.
    rewrite (full_batch_perfect k Hk), Hmode'. reflexivity. }
  cbv zeta. rewrite (Hstep c n Hmode Hn). cbn [currentBatchSize currentDelay
    failureRecoveryMode consecutiveSuccesses].
  repeat split.
  - destruct (2 <=? consecutiveSuccesses c + 1) eqn:E; [| reflexivity].
    apply Z.leb_le in E. lia.
  - destruct (2 <=? consecutiveSuccesses c + 1) eqn:E; [| reflexivity].
    apply Z.leb_le in E. lia.
  - destruct (2 <=? consecutiveSuccesses c + 1) eqn:E; [reflexivity |].
    apply Z.leb_gt in E. lia.
  - destruct (2 <=? consecutiveSuccesses c + 1) eqn:E; [reflexivity |].
    apply Z.leb_gt in E. lia.
  - rewrite Hstep by (first [reflexivity | assumption]).
    cbn [currentBatchSize currentDelay consecutiveSuccesses].
    destruct (2 <=? consecutiveSuccesses c + 1 + 1) eqn:E; [reflexivity |].
    apply Z.leb_gt in E. lia.
  - rewrite Hstep by (first [reflexivity | assumption]).
    cbn [currentBatchSize currentDelay consecutiveSuccesses].
    destruct (2 <=? consecutiveSuccesses c + 1 + 1) eqn:E; [reflexivity |].
    apply Z.leb_gt in E. lia.
Qed.

(** The first batch of a run, fifteen records without a failure. *)
Lemma speed_up_on_calm_batches_witness :
  let c1 := fst (adjust initialController 15 0 15) in
  (consecutiveSuccesses initialController = 0 ->
   currentBatchSize c1 = currentBatchSize initialController /\
   currentDelay c1 = currentDelay initialController) /\
  (1 <= consecutiveSuccesses initialController ->
   currentBatchSize c1 = Z.min (currentBatchSize initialController + 3) 20 /\
   currentDelay c1 = Z.max (currentDelay initialController - 100) 100) /\
  failureRecoveryMode c1 = false /\
  consecutiveSuccesses c1 = consecutiveSuccesses initialController + 1 /\
  forall m, 1 <= m ->
    let c2 := fst (adjust c1 m 0 m) in
    currentBatchSize c2 = Z.min (currentBatchSize c1 + 3) 20 /\
    currentDelay c2 = Z.max (currentDelay c1 - 100) 100.
Proof.
  apply (speed_up_on_calm_batches initialController 15).
  - reflexivity.
  - lia.
  - simpl. lia.
Defined.

(** C7.  The controller starts at size 15 and delay 300; every transition
    keeps the size within 3 and 20 and the delay within 100 and 2000,
    whatever the batch; and so do the settings at the head of every
    iteration of every run of the main pass. *)
Theorem controller_stays_bounded :
  currentBatchSize initialController = 15 /\
  currentDelay initialController = 300 /\
  (forall c batchSuccesses batchFailures size,
     bounded c ->
     bounded (fst (adjust c batchSuccesses batchFailures size))) /\
  (forall remote strategyCapInfos w0 st w,
     reachable remote strategyCapInfos w0 st w ->
     3 <= currentBatchSize (controller st) <= 20 /\
     100 <= currentDelay (controller st) <= 2000).
Proof.
  split; [reflexivity |]. split; [reflexivity |]. split.
  - intros c s f n. apply adjust_bounded.
  - intros remote caps w0 st w Hreach.
    destruct (reachable_invariant remote caps w0 st w Hreach) as [Hb _].
    exact Hb.
Qed.

(** The settings after the first iteration on [overlapRemote]. *)
Lemma controller_stays_bounded_witness :
  let st := fst (mainIteration overlapRemote (exampleCaps 15)
                               initialLoopState emptyWorld) in
  3 <= currentBatchSize (controller st) <= 20 /\
  100 <= currentDelay (controller st) <= 2000.
Proof.
  cbv zeta.
  eapply (proj2 (proj2 (proj2 controller_stays_bounded))).
  apply reach_next.
  - apply reach_start.
  - vm_compute. reflexivity.
Defined.

(** C8.  A fetch in the main pass asks at most 3 times and sleeps
    [attempt * 1000] ms after each failed attempt but the last; a fetch
    in the cleanup pass asks at most 5 times and sleeps [attempt * 2000]
    ms likewise.  When every attempt fails the record yields nothing
    ([null], or no change to the totals), and no failed fetch keeps a run
    from building its report. *)
Theorem retry_budgets remote :
  (forall total globalIndex capInfo w,
     let r := fetchWithRetry remote total globalIndex capInfo w in
     exists attempts,
       retried remote 3 1000 (obligationId capInfo) w (snd r) attempts /\
       match fst r with
       | Some obligationData =>
         exists obligation,
           getObligation remote (attempts - 1 + calls w)%nat
                         (obligationId capInfo) = Some obligation /\
           obligationData = summarize capInfo obligation
       | None =>
         attempts = 3%nat /\
         getObligation remote (2 + calls w)%nat (obligationId capInfo)
           = None
       end) /\
  (forall capInfo t cleanupSuccesses w,
     let r := cleanupAttempts remote 5 1 capInfo t cleanupSuccesses w in
     exists attempts,
       retried remote 5 2000 (obligationId capInfo) w (snd r) attempts /\
       if snd (fst r) then
         exists obligation,
           getObligation remote (attempts - 1 + calls w)%nat
                         (obligationId capInfo) = Some obligation /\
           fst (fst r) =
             (pushSummary t (summarize capInfo obligation),
              cleanupSuccesses + 1)
       else
         attempts = 5%nat /\
         getObligation remote (4 + calls w)%nat (obligationId capInfo)
           = None /\
         fst (fst r) = (t, cleanupSuccesses)) /\
  (forall allStrategyCaps,
     fst (discover remote emptyWorld) = Some allStrategyCaps ->
     allStrategyCaps <> [] ->
     initialize remote = true ->
     exists tvlSummary, fst (run remote) = Reported tvlSummary).
Proof.
  split; [| split].
  - intros total globalIndex capInfo w. apply fetchWithRetry_budget.
  - intros capInfo t cleanupSuccesses w. apply cleanupAttempts_budget.
  - intros allStrategyCaps Hd Hne Hinit.
    pose proof (run_outcome remote) as H. rewrite Hd, Hinit in H.
    destruct allStrategyCaps as [| capObj rest]; [congruence |].
    unfold len in H. simpl in H.
    destruct H as [t Ht]. eexists; exact Ht.
Qed.

(** Every fetch fails on [deafRemote], and the run reports all the same. *)
Lemma retry_budgets_witness :
  exists tvlSummary,
    fst (run deafRemote) = Reported tvlSummary.
Proof.
  eapply (proj2 (proj2 (retry_budgets deafRemote))).
  - vm_compute. reflexivity.
  - discriminate.
  - reflexivity.
Defined.

(** C9.  In every report the list is in descending order of deposits:
    of two adjacent entries the later one holds no more than the earlier
    one, on the doubles that the code compares. *)
Theorem report_sorted_descending remote tvlSummary i a b :
  fst (run remote) = Reported tvlSummary ->
  obligations tvlSummary !! i = Some a ->
  obligations tvlSummary !! S i = Some b ->
  (deposited_value_usd b <=? deposited_value_usd a)%float = true.
Proof.
  intros Hrun Ha Hb.
  destruct (report_numeric remote tvlSummary Hrun) as (t & -> & Ht).
  simpl in Ha, Hb.
  exact (Sorted_adjacent descending _ i a b
           (sortBy_Sorted (acc_obligations t) Ht) Ha Hb).
Qed.

(** The first two entries of the report on [mixedRemote]. *)
Lemma report_sorted_descending_witness :
  (deposited_value_usd
     (mkObligationSummary "ob2" 200 0 200 1 "0xowner" "0x2") <=?
   deposited_value_usd
     (mkObligationSummary "ob1" 300 0 300 1 "0xowner" "0x1"))%float = true.
Proof.
  apply (report_sorted_descending mixedRemote mixedReport 0).
  - vm_compute. reflexivity.
  - vm_compute. reflexivity.
  - vm_compute. reflexivity.
Defined.

(** C10.  A non-empty batch without failures has a success rate of 100
    and takes the arm of line 412.  In every iteration of every run the
    slice is non-empty and holds at most 20 records, its answers are as
    many as its records, and the arms of lines 433 and 444 are never
    taken.  For these lengths the rate of a full batch is 100 on doubles
    as well. *)
Theorem zero_failure_batch_is_perfect :
  (forall batchResults t,
     batchResults <> [] ->
     let counted := collect batchResults t 0 0 in
     snd counted = 0 ->
     batchSuccessRate (snd (fst counted)) (len batchResults) == 100 /\
     classify (snd (fst counted)) (snd counted) (len batchResults)
       = Perfect) /\
  (forall remote strategyCapInfos w0 st w,
     reachable remote strategyCapInfos w0 st w ->
     loop_i st < len strategyCapInfos ->
     let batch := batchOf strategyCapInfos st in
     let counted := fst (runBatch remote strategyCapInfos st w) in
     let batchSuccesses := snd (fst counted) in
     let batchFailures := snd counted in
     batch <> [] /\ len batch <= 20 /\
     batchSuccesses + batchFailures = len batch /\
     (batchFailures = 0 ->
      batchSuccessRate batchSuccesses (len batch) == 100) /\
     classify batchSuccesses batchFailures (len batch) <> Good /\
     classify batchSuccesses batchFailures (len batch) <> Otherwise /\
     (batchFailures = 0 ->
      classify batchSuccesses batchFailures (len batch) = Perfect)) /\
  forallb (fun size => PrimFloat.eqb (batchSuccessRate64 size size) 100)
          (seq 1 20) = true.
Proof.
  split; [| split; [| exact full_batch_rate64]].
  - intros batchResults t Hne counted Hzero.
    pose proof (collect_counts batchResults t 0 0) as (Hsum & _ & _).
    fold counted in Hsum.
    assert (Hlen : 1 <= len batchResults).
    { destruct batchResults; [congruence | unfold len; simpl; lia]. }
    rewrite Hzero in *.
    replace (snd (fst counted)) with (len batchResults) by lia.
    split; [apply full_batch_rate | apply full_batch_perfect]; exact Hlen.
  - intros remote caps w0 st w Hreach Hlt batch counted s f.
    pose proof (reachable_invariant remote caps w0 st w Hreach) as Hinv.
    pose proof (batchOf_nonempty caps st Hinv Hlt) as Hlen.
    pose proof (runBatch_counts remote caps st w) as (Hsum & Hs & Hf).
    fold counted in Hsum, Hs, Hf. fold s in Hsum, Hs. fold f in Hsum, Hf.
    fold batch in Hlen, Hsum.
    destruct (classify_counted s f (len batch) Hlen Hf Hsum)
      as (Hgood & Hother & Hperfect).
    pose proof (batchOf_at_most_20 caps st Hinv) as Hmost.
    fold batch in Hmost.
    repeat split; try assumption.
    + intros Hnil. rewrite Hnil in Hlen. unfold len in Hlen. simpl in Hlen.
      lia.
    + intros Hzero. replace s with (len batch) by lia.
      apply full_batch_rate; exact Hlen.
Qed.

(** The first batch of the run on [healthyRemote]. *)
Lemma zero_failure_batch_is_perfect_witness :
  let batch := batchOf (exampleCaps 15) initialLoopState in
  let counted := fst (runBatch healthyRemote (exampleCaps 15)
                               initialLoopState emptyWorld) in
  batch <> [] /\ len batch <= 20 /\
  snd (fst counted) + snd counted = len batch /\
  (snd counted = 0 ->
   batchSuccessRate (snd (fst counted)) (len batch) == 100) /\
  classify (snd (fst counted)) (snd counted) (len batch) <> Good /\
  classify (snd (fst counted)) (snd counted) (len batch) <> Otherwise /\
  (snd counted = 0 ->
   classify (snd (fst counted)) (snd counted) (len batch) = Perfect).
Proof.
  apply (proj1 (proj2 zero_failure_batch_is_perfect) healthyRemote
               (exampleCaps 15) emptyWorld initialLoopState emptyWorld).
  - apply reach_start.
  - vm_compute. reflexivity.
Defined.

(** * Further properties of the pipeline *)

(** ** Identifiers and records *)

Lemma prefix_0x_app s : String.prefix "0x" ("0x" +:+ s) = true.
Proof.
  apply String.prefix_correct. cbn. destruct s; reflexivity.
Qed.

Lemma capIdOf_spec event id :
  capIdOf event = Some id ->
  String.prefix "0x" id = true /\
  exists cap_id,
    parsedJson event = Some (Some cap_id) /\ cap_id <> "" /\
    (id = cap_id \/ id = "0x" +:+ cap_id).
Proof.
  unfold capIdOf.
  destruct (parsedJson event) as [[cap_id |] |]; try discriminate.
  destruct (String.eqb cap_id "") eqn:Hempty; [discriminate |].
  apply String.eqb_neq in Hempty.
  destruct (String.prefix "0x" cap_id) eqn:Hprefix; intros [= <-].
  - split; [exact Hprefix |]. exists cap_id. auto.
  - split; [apply prefix_0x_app |]. exists cap_id. auto.
Qed.

(** X1.  Every candidate id carries the 0x prefix; it is the [cap_id] of
    an event, as it stands when it is already prefixed and with 0x put in
    front otherwise; events without a [cap_id], or with an empty one, give
    no id; and an id, once normalised, is left as it is. *)
Theorem cap_ids_normalised events :
  (length (extractCapIds events) <= length events)%nat /\
  Forall (fun id =>
            String.prefix "0x" id = true /\
            capIdOf (mkSuiEvent (Some (Some id))) = Some id /\
            exists event cap_id,
              event ∈ events /\
              parsedJson event = Some (Some cap_id) /\ cap_id <> "" /\
              (id = cap_id \/ id = "0x" +:+ cap_id))
         (extractCapIds events).
Proof.
  unfold extractCapIds. induction events as [| event events [IHlen IH]].
  - split; [reflexivity | constructor].
  - cbn [omap list_omap]. fold (omap capIdOf events).
    destruct (capIdOf event) as [id |] eqn:Hid.
    + split; [simpl; lia |]. constructor.
      * destruct (capIdOf_spec event id Hid) as (Hprefix & cap_id & Hp & Hne & Hor).
        split; [exact Hprefix |]. split.
        -- unfold capIdOf; cbn [parsedJson]. rewrite Hprefix.
           destruct (String.eqb id "") eqn:Hempty; [| reflexivity].
           apply String.eqb_eq in Hempty. subst id. discriminate.
        -- exists event, cap_id. split; [left |]; auto.
      * eapply Forall_impl; [exact IH |].
        intros id' (H1 & H2 & ev & cap & Hin & Hrest).
        split; [exact H1 |]. split; [exact H2 |].
        exists ev, cap. split; [right; exact Hin | exact Hrest].
    + split; [simpl; lia |].
      eapply Forall_impl; [exact IH |].
      intros id' (H1 & H2 & ev & cap & Hin & Hrest).
      split; [exact H1 |]. split; [exact H2 |].
      exists ev, cap. split; [right; exact Hin | exact Hrest].
Qed.

(** X2.  The extractor gives a record only for an object whose content
    has fields and whose inner cap is populated: the record carries that
    cap's obligation id and the object's id and strategy type, and its
    owner is never empty.  An object without fields or with a null inner
    cap gives no record. *)
Theorem extracted_records caps :
  (length (extractCapInfos caps) <= length caps)%nat /\
  Forall (fun info =>
            owner info <> "" /\
            exists capObj fields,
              capObj ∈ caps /\
              content_fields capObj = Some fields /\
              inner_cap fields = Some (obligationId info) /\
              objectId info = data_objectId capObj /\
              strategyType info = strategy_type fields /\
              (owner info = "Unknown" \/
               addressOwner capObj = Some (owner info)))
         (extractCapInfos caps) /\
  (forall capObj,
     (content_fields capObj = None \/
      exists fields, content_fields capObj = Some fields /\
                     inner_cap fields = None) ->
     extractCapInfo capObj = None).
Proof.
  split; [| split].
  - unfold extractCapInfos. induction caps as [| capObj caps IH];
      [reflexivity |].
    cbn [omap list_omap]. fold (omap extractCapInfo caps).
    destruct (extractCapInfo capObj); simpl; lia.
  - unfold extractCapInfos. induction caps as [| capObj caps IH];
      [constructor |].
    cbn [omap list_omap]. fold (omap extractCapInfo caps).
    assert (IH' : Forall (fun info =>
              owner info <> "" /\
              exists capObj' fields,
                capObj' ∈ capObj :: caps /\
                content_fields capObj' = Some fields /\
                inner_cap fields = Some (obligationId info) /\
                objectId info = data_objectId capObj' /\
                strategyType info = strategy_type fields /\
                (owner info = "Unknown" \/
                 addressOwner capObj' = Some (owner info)))
             (omap extractCapInfo caps)).
    { eapply Forall_impl; [exact IH |].
      intros info (Ho & obj & fields & Hin & Hrest).
      split; [exact Ho |]. exists obj, fields.
      split; [right; exact Hin | exact Hrest]. }
    destruct (extractCapInfo capObj) as [info |] eqn:Hinfo; [| exact IH'].
    constructor; [| exact IH'].
    unfold extractCapInfo in Hinfo.
    destruct (content_fields capObj) as [fields |] eqn:Hfields;
      [| discriminate].
    destruct (inner_cap fields) as [obligation_id |] eqn:Hinner;
      [| discriminate].
    injection Hinfo as <-. cbn [owner obligationId objectId strategyType].
    split.
    + destruct (addressOwner capObj) as [a |]; [| discriminate].
      destruct (String.eqb a "") eqn:Ha; [discriminate |].
      apply String.eqb_neq in Ha. exact Ha.
    + exists capObj, fields. split; [left |].
      repeat split; try reflexivity; try assumption.
      destruct (addressOwner capObj) as [a |]; [| left; reflexivity].
      destruct (String.eqb a ""); [left | right]; reflexivity.
  - intros capObj [Hnone | (fields & Hfields & Hinner)];
      unfold extractCapInfo.
    + rewrite Hnone. reflexivity.
    + rewrite Hfields, Hinner. reflexivity.
Qed.

Lemma extracted_records_witness : extractCapInfo borrowedObject = None.
Proof.
  apply (proj2 (proj2 (extracted_records [borrowedObject]))).
  right. eexists. split; reflexivity.
Defined.

(** ** What the totals hold *)





(** X4.  Every position of a report, of either pipeline, was built from
    a capability record that the extractor produced in this run: it
    carries the record's obligation id, strategy type, owner and object
    id, and its net value is its deposits less its borrows. *)
Theorem report_positions_come_from_records remote tvlSummary :
  fst (run remote) = Reported tvlSummary \/
  fst (runFixed remote) = Reported tvlSummary ->
  exists allStrategyCaps,
    fst (discover remote emptyWorld) = Some allStrategyCaps /\
    Forall (fun s =>
              exists capInfo,
                capInfo ∈ extractCapInfos allStrategyCaps /\
                builtFrom capInfo s)
           (obligations tvlSummary).
Proof.
  set (P := fun (caps : list StrategyCapInfo) (t : Totals) =>
              Forall (fun s => exists capInfo,
                          capInfo ∈ caps /\ builtFrom capInfo s)
                     (acc_obligations t)).
  assert (Hinit : forall caps, P caps (mkTotals [] 0 0 0)).
  { intros caps. constructor. }
  assert (Hpush : forall caps t capInfo obligation,
             capInfo ∈ caps -> P caps t ->
             P caps (pushSummary t (summarize capInfo obligation))).
  { intros caps t capInfo obligation Hin Ht. unfold P, pushSummary. simpl.
    apply Forall_app. split; [exact Ht |]. constructor; [| constructor].
    exists capInfo. split; [exact Hin |]. repeat split. }
  assert (Hreport : forall caps t,
             P caps t ->
             Forall (fun s => exists capInfo,
                         capInfo ∈ caps /\ builtFrom capInfo s)
                    (obligations (tvlSummaryOf t))).
  { intros caps t Ht. unfold tvlSummaryOf. simpl.
    rewrite (sortBy_Permutation byDepositsDescending (acc_obligations t)).
    exact Ht. }
  intros [Hrun | Hrun].
  - destruct (run_report_totals remote P tvlSummary Hinit Hpush Hrun)
      as (caps & t & Hd & -> & Ht).
    exists caps. split; [exact Hd | apply Hreport; exact Ht].
  - destruct (runFixed_report_totals remote P tvlSummary Hinit Hpush Hrun)
      as (caps & t & Hd & -> & Ht).
    exists caps. split; [exact Hd | apply Hreport; exact Ht].
Qed.

Lemma report_positions_come_from_records_witness :
  exists allStrategyCaps,
    fst (discover mixedRemote emptyWorld) = Some allStrategyCaps /\
    Forall (fun s =>
              exists capInfo,
                capInfo ∈ extractCapInfos allStrategyCaps /\
                builtFrom capInfo s)
           (obligations mixedReport).
Proof.
  apply (report_positions_come_from_records mixedRemote mixedReport).
  left. vm_compute. reflexivity.
Defined.

(** ** The order of the report *)

(** Equal doubles are numbers. *)
Lemma eqb_numbers x d :
  (x =? d)%float = true -> is_nan x = false /\ is_nan d = false.
Proof.
  rewrite FloatAxioms.eqb_spec. unfold SFeqb. intros H.
  split; apply is_nan_Prim2SF; intros Hnan; rewrite Hnan in H;
    [| destruct (Prim2SF x)]; discriminate.
Qed.

Lemma insertBy_filter_equal d x l :
  filter (fun s => (deposited_value_usd s =? d)%float = true)
         (insertBy byDepositsDescending x l) =
  filter (fun s => (deposited_value_usd s =? d)%float = true) (x :: l).
Proof.
  induction l as [| y l IH]; [reflexivity |].
  simpl. destruct (0 <? byDepositsDescending x y)%float eqn:Hcmp;
    [| reflexivity].
  rewrite (filter_cons _ y (insertBy byDepositsDescending x l)), IH.
  rewrite !filter_cons.
  destruct (decide ((deposited_value_usd y =? d)%float = true)) as [Hy | Hy];
    destruct (decide ((deposited_value_usd x =? d)%float = true))
      as [Hx | Hx];
    try reflexivity.
  exfalso.
  destruct (eqb_numbers _ _ Hx) as [Hnx Hnd].
  destruct (eqb_numbers _ _ Hy) as [Hny _].
  rewrite (comparator_sign x y Hnx Hny) in Hcmp. apply Z.ltb_lt in Hcmp.
  rewrite (eqb_rank64 _ _ Hnx Hnd) in Hx. apply Z.eqb_eq in Hx.
  rewrite (eqb_rank64 _ _ Hny Hnd) in Hy. apply Z.eqb_eq in Hy.
  lia.
Qed.

Lemma sortBy_filter_equal d l :
  filter (fun s => (deposited_value_usd s =? d)%float = true)
         (sortBy byDepositsDescending l) =
  filter (fun s => (deposited_value_usd s =? d)%float = true) l.
Proof.
  induction l as [| x l IH]; [reflexivity |].
  simpl. rewrite insertBy_filter_equal, !filter_cons, IH. reflexivity.
Qed.

(** X5.  The list of a report holds exactly the summaries that were
    collected, each as often as it was collected, and the positions with
    equal deposits stand in the order in which they were collected. *)
Theorem report_list_keeps_collected t :
  obligations (tvlSummaryOf t) ≡ₚ acc_obligations t /\
  strategyCount (tvlSummaryOf t) = len (obligations (tvlSummaryOf t)) /\
  forall d,
    filter (fun s => (deposited_value_usd s =? d)%float = true)
           (obligations (tvlSummaryOf t)) =
    filter (fun s => (deposited_value_usd s =? d)%float = true)
           (acc_obligations t).
Proof.
  unfold tvlSummaryOf. cbn [obligations strategyCount].
  split; [apply sortBy_Permutation |]. split.
  - unfold len.
    rewrite (Permutation_length (sortBy_Permutation _ _)). reflexivity.
  - intros d. apply sortBy_filter_equal.
Qed.

(** ** The resolver *)

Lemma drop_slice {A} (l : list A) i k :
  0 <= i -> 0 < k ->
  drop (Z.to_nat i) l = slice l i (i + k) ++ drop (Z.to_nat (i + k)) l.
Proof.
  intros Hi Hk. unfold slice.
  replace (i <? 0) with false by (symmetry; apply Z.ltb_ge; lia).
  replace (i + k <? 0) with false by (symmetry; apply Z.ltb_ge; lia).
  destruct (Z.le_gt_cases (i + k) (len l)) as [Hle | Hgt].
  - replace (Z.to_nat (Z.min i (len l))) with (Z.to_nat i) by lia.
    replace (Z.to_nat (Z.min (i + k) (len l) - Z.min i (len l)))
      with (Z.to_nat k) by lia.
    replace (Z.to_nat (i + k)) with (Z.to_nat i + Z.to_nat k)%nat by lia.
    rewrite <- drop_drop, take_drop. reflexivity.
  - rewrite (drop_ge l (Z.to_nat (i + k))) by (unfold len in *; lia).
    rewrite app_nil_r.
    destruct (Z.le_gt_cases i (len l)) as [Hin | Hout].
    + replace (Z.to_nat (Z.min i (len l))) with (Z.to_nat i) by lia.
      rewrite take_ge; [reflexivity |].
      rewrite length_drop. unfold len in *. lia.
    + rewrite (drop_ge l (Z.to_nat i)) by (unfold len in *; lia).
      rewrite (drop_ge l) by (unfold len in *; lia).
      rewrite take_nil. reflexivity.
Qed.

Section ResolverFacts.

Variable remote : Remote.

Lemma resolveChunk_trace index batch found notFoundCount w :
  let r := resolveChunk remote index batch found notFoundCount w in
  calls (snd r) = calls w /\
  notFoundCount <= snd (fst r) /\
  len (fst (fst r)) + snd (fst r) = len found + notFoundCount + len batch /\
  exists es,
    trace (snd r) = trace w ++ es /\
    objectReadsIn es = batch /\ Forall resolverEffect es.
Proof.
  revert index found notFoundCount w.
  induction batch as [| capId rest IH]; intros index found notFoundCount w.
  - simpl. split; [reflexivity |]. split; [lia |].
    split; [unfold len; simpl; lia |].
    exists []. rewrite app_nil_r. repeat split. constructor.
  - cbn [resolveChunk]. unfold bind, emit.
    destruct (getObject remote index capId) as [obj |].
    + destruct (IH (index + 1) (found ++ [obj]) notFoundCount
                  (mkWorld (calls w) (trace w ++ [Call (GetObject capId)])))
        as (Hcalls & Hmono & Hcount & es & Htrace & Hreads & Hall).
      cbv zeta. split; [exact Hcalls |]. split; [exact Hmono |]. split.
      * rewrite Hcount. unfold len. rewrite length_app. simpl. lia.
      * exists (Call (GetObject capId) :: es).
        rewrite Htrace. cbn [trace]. rewrite <- app_assoc.
        split; [reflexivity |].
        split; [unfold objectReadsIn in *; simpl; f_equal; exact Hreads |].
        constructor; [exact I | exact Hall].
    + destruct (IH (index + 1) found (notFoundCount + 1)
                  (mkWorld (calls w) (trace w ++ [Call (GetObject capId)])))
        as (Hcalls & Hmono & Hcount & es & Htrace & Hreads & Hall).
      cbv zeta. split; [exact Hcalls |]. split; [lia |]. split.
      * rewrite Hcount. unfold len. simpl. lia.
      * exists (Call (GetObject capId) :: es).
        rewrite Htrace. cbn [trace]. rewrite <- app_assoc.
        split; [reflexivity |].
        split; [unfold objectReadsIn in *; simpl; f_equal; exact Hreads |].
        constructor; [exact I | exact Hall].
Qed.

Lemma resolveLoop_trace fuel i ids found notFoundCount w :
  0 <= i -> Z.max 0 (len ids - i) < Z.of_nat fuel ->
  let r := resolveLoop remote fuel i ids found notFoundCount w in
  calls (snd r) = calls w /\
  notFoundCount <= snd (fst r) /\
  len (fst (fst r)) + snd (fst r) =
    len found + notFoundCount + len (drop (Z.to_nat i) ids) /\
  exists es,
    trace (snd r) = trace w ++ es /\
    objectReadsIn es = drop (Z.to_nat i) ids /\ Forall resolverEffect es.
Proof.
  revert i found notFoundCount w.
  induction fuel as [| fuel IH]; intros i found notFoundCount w Hi Hfuel;
    [lia |].
  cbn [resolveLoop]. destruct (i <? len ids) eqn:Hlt.
  - apply Z.ltb_lt in Hlt. unfold bind, addResult, emit.
    match goal with
    | |- context [resolveChunk ?r ?j ?b ?f ?n ?w'] =>
      pose proof (resolveChunk_trace j b f n w') as Hchunk;
      destruct (resolveChunk r j b f n w') as [r1 w1]
    end.
    cbv zeta in Hchunk. cbn [fst snd calls trace] in Hchunk.
    destruct Hchunk
      as (Hcalls1 & Hmono1 & Hcount1 & es1 & Htrace1 & Hreads1 & Hall1).
    destruct (IH (i + chunkSize) (fst r1) (snd r1) w1)
      as (Hcalls & Hmono & Hcount & es & Htrace & Hreads & Hall);
      [unfold chunkSize; lia | unfold chunkSize; lia |].
    cbv zeta. cbn [fst snd].
    split; [congruence |]. split; [lia |].
    rewrite (drop_slice ids i chunkSize Hi) by (unfold chunkSize; lia).
    split.
    + rewrite Hcount, Hcount1. unfold len. rewrite length_app. lia.
    + eexists (_ :: es1 ++ es). rewrite Htrace, Htrace1.
      rewrite <- !app_assoc. split; [reflexivity |].
      split.
      * unfold objectReadsIn in *. cbn [omap list_omap].
        fold (omap (fun e => match e with
                             | Call (GetObject id) => Some id
                             | _ => None
                             end) (es1 ++ es)).
        rewrite omap_app, Hreads1, Hreads. reflexivity.
      * constructor; [exact I |]. apply Forall_app. split; assumption.
  - apply Z.ltb_ge in Hlt. cbv zeta. cbn [fst snd ret].
    rewrite (drop_ge ids (Z.to_nat i)) by (unfold len in *; lia).
    split; [reflexivity |]. split; [lia |].
    split; [unfold len; simpl; lia |].
    exists []. rewrite app_nil_r. repeat split. constructor.
Qed.

End ResolverFacts.

(** X6.  The resolver reads every candidate id exactly once, in the
    order of the ids and duplicates included; it returns the objects
    that resolved, in that order, and counts the others: found and not
    found add up to the number of ids, and the not-found line is logged
    when, and only when, that count is positive. *)
Theorem resolver_reads_each_id_once remote strategyCapIds w :
  let r := resolveObjects remote strategyCapIds w in
  let notFoundCount := len strategyCapIds - len (fst r) in
  fst r = resolvedFrom remote 0 strategyCapIds /\
  0 <= notFoundCount /\
  calls (snd r) = calls w /\
  exists es,
    trace (snd r) =
      trace w ++ es
      ++ (if 0 <? notFoundCount then [Say (LNotFound notFoundCount)] else [])
      ++ [Say (LFoundCaps (len (fst r)))] /\
    objectReadsIn es = strategyCapIds /\
    Forall resolverEffect es.
Proof.
  cbv zeta. split; [apply resolveObjects_value |].
  unfold resolveObjects, bind.
  pose proof (resolveLoop_trace remote (S (length strategyCapIds)) 0
                strategyCapIds [] 0 w) as Hloop.
  destruct (resolveLoop remote (S (length strategyCapIds)) 0
                        strategyCapIds [] 0 w) as [[found nf] w1].
  cbv zeta in Hloop. cbn [fst snd] in Hloop.
  destruct Hloop as (Hcalls & Hmono & Hcount & es & Htrace & Hreads & Hall);
    [lia | unfold len; lia |].
  change (Z.to_nat 0) with 0%nat in Hcount, Hreads.
  rewrite drop_0 in Hcount, Hreads.
  assert (Hnf : nf = len strategyCapIds - len found).
  { unfold len in *. simpl in Hcount. lia. }
  unfold when, addResult, emit, ret. cbn [fst snd].
  destruct (0 <? nf) eqn:Hsign; cbn [fst snd calls trace];
    rewrite <- Hnf, Hsign.
  - split; [exact Hmono |]. split; [exact Hcalls |].
    exists es. rewrite Htrace, <- !app_assoc. auto.
  - split; [exact Hmono |]. split; [exact Hcalls |].
    exists es. rewrite Htrace, <- !app_assoc. auto.
Qed.

(** ** The paginator *)

Section PaginatorFacts.

Variable remote : Remote.

Lemma fetchPages_trace fuel pageCount cursor events w :
  let r := fetchPages remote fuel pageCount cursor events w in
  calls (snd r) = calls w /\
  exists es,
    trace (snd r) = trace w ++ es /\
    (length (queriesIn es) <= fuel)%nat /\
    objectReadsIn es = [] /\ requestsIn es = [] /\ sleepsIn es = [] /\
    ((1 <= fuel)%nat -> head (queriesIn es) = Some cursor) /\
    match fst r with
    | Some (all, pageCount') =>
      pageCount' = pageCount + len (queriesIn es) /\
      exists more, all = events ++ more
    | None => True
    end.
Proof.
  revert pageCount cursor events w.
  induction fuel as [| fuel IH]; intros pageCount cursor events w.
  - simpl. split; [reflexivity |]. exists [].
    rewrite app_nil_r. repeat split; try reflexivity; try lia.
    + unfold len; simpl; lia.
    + exists []. rewrite app_nil_r. reflexivity.
  - cbn [fetchPages]. unfold bind, addResult, emit.
    destruct (queryEvents remote cursor) as [page |].
    + destruct (hasNextPage page).
      * match goal with
        | |- context [fetchPages remote fuel ?pc ?c ?evs ?w'] =>
          pose proof (IH pc c evs w') as H;
          destruct (fetchPages remote fuel pc c evs w') as [res w2]
        end.
        cbv zeta in H. cbn [fst snd calls trace] in H.
        destruct H as (Hcalls & es & Htrace & Hlen & Hreads & Hreq & Hsleep
                       & _ & Hresult).
        cbv zeta. cbn [fst snd]. split; [exact Hcalls |].
        eexists (Call (QueryEvents cursor) :: Say _ :: es).
        rewrite Htrace, <- !app_assoc.
        split; [reflexivity |].
        change (queriesIn (Call (QueryEvents cursor) :: Say _ :: es))
          with (cursor :: queriesIn es).
        split; [simpl; lia |].
        split; [exact Hreads |]. split; [exact Hreq |].
        split; [exact Hsleep |]. split; [reflexivity |].
        destruct res as [[all pc] |]; [| exact I].
        destruct Hresult as (Hpc & more & Hall). split.
        -- rewrite Hpc. unfold len. simpl length. lia.
        -- exists (data page ++ more). rewrite Hall, app_assoc. reflexivity.
      * cbv zeta. cbn [fst snd ret calls trace].
        split; [reflexivity |].
        eexists [Call (QueryEvents cursor); Say _].
        rewrite <- !app_assoc. split; [reflexivity |].
        repeat split; try reflexivity.
        -- unfold queriesIn; simpl; lia.
        -- exists (data page). reflexivity.
    + cbv zeta. cbn [fst snd ret calls trace].
      split; [reflexivity |].
      exists [Call (QueryEvents cursor)].
      repeat split; try reflexivity. unfold queriesIn; simpl; lia.
Qed.

(** What the paginator returns: the events of the pages the service
    serves along the cursors, in their order, and the number of these
    pages. *)
Lemma fetchPages_value fuel pageCount cursor events w :
  fst (fetchPages remote fuel pageCount cursor events w) =
  (fun pages => (events ++ concat (data <$> pages), pageCount + len pages))
    <$> pagesFrom remote fuel cursor.
Proof.
  revert pageCount cursor events w.
  induction fuel as [| fuel IH]; intros pageCount cursor events w.
  - cbn. rewrite app_nil_r, Z.add_0_r. reflexivity.
  - cbn [fetchPages pagesFrom]. unfold bind, addResult, emit.
    destruct (queryEvents remote cursor) as [page |]; [| reflexivity].
    destruct (hasNextPage page).
    + cbn [fst snd]. rewrite IH.
      destruct (pagesFrom remote fuel (nextCursor page)) as [pages |];
        [| reflexivity].
      cbn [fmap option_fmap option_map list_fmap concat].
      rewrite <- app_assoc. unfold len. cbn [length].
      do 2 f_equal. lia.
    + cbn. rewrite app_nil_r. reflexivity.
Qed.

Lemma pagesFrom_endless fuel cursor :
  (forall c, exists page,
      queryEvents remote c = Some page /\ hasNextPage page = true) ->
  exists pages,
    pagesFrom remote fuel cursor = Some pages /\ length pages = fuel.
Proof.
  intros Hmore. revert cursor.
  induction fuel as [| fuel IH]; intros cursor.
  - exists []. split; reflexivity.
  - cbn [pagesFrom]. destruct (Hmore cursor) as (page & -> & ->).
    destruct (IH (nextCursor page)) as (pages & -> & Hlen).
    exists (page :: pages). split; [reflexivity |]. simpl. lia.
Qed.

End PaginatorFacts.

(** X7.  The paginator asks for at least one page and at most 20, the
    first one without a cursor; while it runs no object is read, no
    position is fetched and nothing sleeps.  Its page count is the number
    of its queries.  What it hands on are the events of the pages that
    the service serves along the cursors, page after page, and the number
    of these pages.  When the service keeps announcing a next page, the
    paginator stops after the twentieth and hands on the events of these
    twenty pages: the ceiling is no error. *)
Theorem paginator_page_ceiling remote w :
  let r := fetchPages remote 20 0 None [] w in
  calls (snd r) = calls w /\
  (exists es,
     trace (snd r) = trace w ++ es /\
     (1 <= length (queriesIn es) <= 20)%nat /\
     head (queriesIn es) = Some None /\
     objectReadsIn es = [] /\ requestsIn es = [] /\ sleepsIn es = [] /\
     forall all pageCount,
       fst r = Some (all, pageCount) ->
       pageCount = len (queriesIn es)) /\
  fst r = (fun pages => (concat (data <$> pages), len pages))
            <$> pagesFrom remote 20 None /\
  ((forall c, exists page,
       queryEvents remote c = Some page /\ hasNextPage page = true) ->
   exists pages,
     pagesFrom remote 20 None = Some pages /\ length pages = 20%nat /\
     fst r = Some (concat (data <$> pages), 20)).
Proof.
  cbv zeta.
  destruct (fetchPages_trace remote 20 0 None [] w)
    as (Hcalls & es & Htrace & Hlen & Hreads & Hreq & Hsleep & Hhead
        & Hresult).
  specialize (Hhead ltac:(lia)).
  pose proof (fetchPages_value remote 20 0 None [] w) as Hvalue.
  assert (Hvalue' :
            fst (fetchPages remote 20 0 None [] w) =
            (fun pages => (concat (data <$> pages), len pages))
              <$> pagesFrom remote 20 None).
  { rewrite Hvalue. destruct (pagesFrom remote 20 None); reflexivity. }
  split; [exact Hcalls |]. split; [| split].
  - exists es. split; [exact Htrace |]. split.
    + split; [| exact Hlen].
      destruct (queriesIn es); [discriminate | simpl; lia].
    + split; [exact Hhead |]. split; [exact Hreads |].
      split; [exact Hreq |]. split; [exact Hsleep |].
      intros all pageCount Hr. rewrite Hr in Hresult.
      destruct Hresult as [Hpc _]. lia.
  - exact Hvalue'.
  - intros Hmore.
    destruct (pagesFrom_endless remote 20 None Hmore) as (pages & Hp & Hl).
    exists pages. split; [exact Hp |]. split; [exact Hl |].
    rewrite Hvalue', Hp. cbn [fmap option_fmap option_map].
    unfold len. rewrite Hl. reflexivity.
Qed.

Lemma paginator_page_ceiling_witness :
  exists pages,
    pagesFrom endlessRemote 20 None = Some pages /\ length pages = 20%nat /\
    fst (fetchPages endlessRemote 20 0 None [] emptyWorld) =
    Some (concat (data <$> pages), 20).
Proof.
  apply (proj2 (proj2 (proj2
           (paginator_page_ceiling endlessRemote emptyWorld)))).
  intros c. eexists. split; reflexivity.
Defined.

(** ** Runs that cannot start *)

(** X8.  When [queryEvents] throws, or when capability objects resolved
    but the lending client cannot be initialised, the run logs the error
    line and ends without a report; no position is fetched and nothing
    sleeps, and in the first case no object is read either. *)
Theorem failed_start_reports_nothing remote :
  (fst (discover remote emptyWorld) = None ->
   fst (run remote) = NotReported /\
   last (trace (snd (run remote))) = Some (Say LError) /\
   objectReadsIn (trace (snd (run remote))) = [] /\
   requestsIn (trace (snd (run remote))) = [] /\
   sleepsIn (trace (snd (run remote))) = []) /\
  (forall allStrategyCaps,
     fst (discover remote emptyWorld) = Some allStrategyCaps ->
     allStrategyCaps <> [] ->
     initialize remote = false ->
     fst (run remote) = NotReported /\
     last (trace (snd (run remote))) = Some (Say LError) /\
     calls (snd (run remote)) = 0%nat /\
     requestsIn (trace (snd (run remote))) = [] /\
     sleepsIn (trace (snd (run remote))) = []).
Proof.
  split.
  - intros Hd. unfold run, calculateStrategyWrapperTVL, bind.
    pose proof (discover_value remote emptyWorld) as Hvalue.
    rewrite Hd in Hvalue.
    assert (Htrace : trace (snd (discover remote emptyWorld)) =
                     trace (snd (fetchPages remote 20 0 None [] emptyWorld))).
    { unfold discover, bind in *.
      destruct (fetchPages remote 20 0 None [] emptyWorld)
        as [[[events pageCount] |] w1]; [discriminate | reflexivity]. }
    destruct (fetchPages_trace remote 20 0 None [] emptyWorld)
      as (_ & es & Hes & _ & Hreads & Hreq & Hsleep & _).
    rewrite Hes in Htrace. cbn [trace emptyWorld app] in Htrace.
    destruct (discover remote emptyWorld) as [d w1].
    cbn [fst snd] in *. subst d.
    unfold addResult, emit, ret. cbn [fst snd trace]. rewrite Htrace.
    split; [reflexivity |]. split; [apply last_snoc |].
    unfold objectReadsIn, requestsIn, sleepsIn in *.
    rewrite !omap_app, Hreads, Hreq, Hsleep. repeat split.
  - intros allStrategyCaps Hd Hne Hinit.
    unfold run, calculateStrategyWrapperTVL, bind.
    assert (Hq : quiet (snd (discover remote emptyWorld))).
    { apply discover_quiet. split; [reflexivity | constructor]. }
    destruct (discover remote emptyWorld) as [d w1].
    cbn [fst snd] in *. subst d.
    destruct Hq as [Hcalls Hq].
    destruct (discoveryEffects_silent _ Hq) as (Hreq & Hsleep & _).
    replace (len allStrategyCaps =? 0) with false.
    2: { symmetry. apply Z.eqb_neq. destruct allStrategyCaps;
         [congruence | unfold len; simpl; lia]. }
    unfold addResult, emit, ret. rewrite Hinit. cbn [fst snd trace calls].
    split; [reflexivity |]. split; [apply last_snoc |].
    split; [exact Hcalls |].
    unfold requestsIn, sleepsIn in *.
    rewrite !omap_app, Hreq, Hsleep. repeat split.
Qed.

Lemma failed_start_reports_nothing_witness :
  (fst (run throwingRemote) = NotReported /\
   last (trace (snd (run throwingRemote))) = Some (Say LError) /\
   objectReadsIn (trace (snd (run throwingRemote))) = [] /\
   requestsIn (trace (snd (run throwingRemote))) = [] /\
   sleepsIn (trace (snd (run throwingRemote))) = []) /\
  (fst (run uninitialisedRemote) = NotReported /\
   last (trace (snd (run uninitialisedRemote))) = Some (Say LError) /\
   calls (snd (run uninitialisedRemote)) = 0%nat /\
   requestsIn (trace (snd (run uninitialisedRemote))) = [] /\
   sleepsIn (trace (snd (run uninitialisedRemote))) = []).
Proof.
  split.
  - apply (proj1 (failed_start_reports_nothing throwingRemote)).
    vm_compute. reflexivity.
  - eapply (proj2 (failed_start_reports_nothing uninitialisedRemote)).
    + vm_compute. reflexivity.
    + discriminate.
    + reflexivity.
Defined.

(** ** The cleanup pass *)

Lemma backoffs_are_no_pause (l : list nat) :
  filter (fun ms => ms = cleanupDelay)
         ((fun a => Z.of_nat a * 2000) <$> l) = [].
Proof.
  induction l as [| a l IH]; [reflexivity |].
  cbn [fmap list_fmap]. rewrite filter_cons.
  destruct (decide (Z.of_nat a * 2000 = cleanupDelay)) as [H | _].
  - unfold cleanupDelay in H. lia.
  - exact IH.
Qed.

(** What the outcomes of some records say of their summaries and
    requests. *)
Lemma fetched_sublist budget caps outcomes :
  Forall2 (fetched budget) caps outcomes ->
  (sum_obligationId <$> omap snd outcomes)
    `sublist_of` (obligationId <$> caps).
Proof.
  induction 1 as [| capInfo [k [s |]] caps outcomes [_ Hs] Hall IH];
    cbn [omap list_omap fmap list_fmap snd option_bind mbind] in *.
  - constructor.
  - destruct Hs as [obligation ->]. apply sublist_skip. exact IH.
  - apply sublist_cons. exact IH.
Qed.

Lemma fetched_requests budget caps outcomes :
  Forall2 (fetched budget) caps outcomes ->
  Forall (fun id => id ∈ obligationId <$> caps) (requestsOf caps outcomes) /\
  (length (requestsOf caps outcomes) <= budget * length caps)%nat.
Proof.
  unfold requestsOf.
  induction 1 as [| capInfo o caps outcomes [Hk _] Hall [IH1 IH2]];
    cbn [zip_with concat fmap list_fmap length].
  - split; [constructor | lia].
  - split.
    + apply Forall_app. split; [apply Forall_replicate; left |].
      eapply Forall_impl; [exact IH1 |]. intros id Hid. right. exact Hid.
    + rewrite length_app, length_replicate. lia.
Qed.

Section CleanupFacts.

Variable remote : Remote.

(** The cleanup loop over [rest]: the outcome of every record, what the
    loop adds, what it asks for and when it pauses. *)
Lemma cleanupLoop_spec i total rest t cleanupSuccesses w :
  total = i + len rest ->
  let r := cleanupLoop remote i total rest t cleanupSuccesses w in
  exists outcomes es,
    let recovered := omap snd outcomes in
    Forall2 (fetched 5) rest outcomes /\
    fst (fst r) =
      mkTotals (acc_obligations t ++ recovered)
               (sumFrom deposited_value_usd (acc_totalTVL t) recovered)
               (sumFrom deposited_value_usd (acc_totalDeposits t) recovered)
               (sumFrom unweighted_borrowed_value_usd (acc_totalBorrows t)
                        recovered) /\
    snd (fst r) = cleanupSuccesses + len recovered /\
    trace (snd r) = trace w ++ es /\
    requestsIn es = requestsOf rest outcomes /\
    filter (fun ms => ms = cleanupDelay) (sleepsIn es) =
      replicate (length rest - 1) cleanupDelay.
Proof.
  revert i t cleanupSuccesses w.
  induction rest as [| capInfo rest IH]; intros i t cleanupSuccesses w Htotal.
  - exists [], []. cbn. rewrite !app_nil_r, !Z.add_0_r.
    destruct t. repeat split; constructor.
  - cbv zeta. cbn [cleanupLoop]. unfold bind, addResult, emit.
    match goal with
    | |- context [cleanupAttempts ?r 5 1 ?c ?t0 ?s ?w'] =>
      pose proof (cleanupAttempts_budget r c t0 s w') as Hattempts;
      destruct (cleanupAttempts r 5 1 c t0 s w') as [[[t1 cs1] ok] w1]
    end.
    cbv zeta in Hattempts. cbn [fst snd calls trace] in Hattempts.
    destruct Hattempts as (attempts & Hretried & Hresult).
    destruct Hretried as (es1 & Htrace1 & _ & Hbudget & Hreq1 & Hsleep1 & _).
    assert (Hnext : total = (i + 1) + len rest).
    { unfold len in *. simpl length in Htotal. lia. }
    assert (Hpause : (i <? total - 1) = negb (Nat.eqb (length rest) 0)).
    { unfold len in *. simpl length in Htotal.
      destruct rest; simpl length in *; simpl.
      - apply Z.ltb_ge. lia.
      - apply Z.ltb_lt. lia. }
    assert (Hcombine : forall extra es o outcomes,
      requestsIn extra = [] ->
      sleepsIn extra =
        (if i <? total - 1 then [cleanupDelay] else []) ->
      requestsIn es = requestsOf rest outcomes ->
      filter (fun ms => ms = cleanupDelay) (sleepsIn es) =
        replicate (length rest - 1) cleanupDelay ->
      let all := Say (LCleanupItem (i + 1) total (obligationId capInfo))
                 :: es1 ++ extra ++ es in
      requestsIn all =
        requestsOf (capInfo :: rest) ((attempts, o) :: outcomes) /\
      filter (fun ms => ms = cleanupDelay) (sleepsIn all) =
        replicate (length (capInfo :: rest) - 1) cleanupDelay).
    { intros extra es o outcomes Hreq2 Hsleep2 Hreq Hpauses all. subst all.
      change (requestsIn (Say ?l :: ?x)) with (requestsIn x).
      change (sleepsIn (Say ?l :: ?x)) with (sleepsIn x).
      unfold requestsOf. cbn [zip_with concat fst].
      fold (requestsOf rest outcomes). rewrite <- Hreq.
      unfold requestsIn, sleepsIn in *.
      rewrite !omap_app, Hreq1, Hreq2, Hsleep1, Hsleep2.
      split; [reflexivity |].
      rewrite !filter_app, backoffs_are_no_pause, Hpauses, Hpause.
      cbn [app]. simpl length.
      destruct rest as [| c rest']; [reflexivity |].
      simpl length. cbn [Nat.eqb negb]. rewrite filter_cons.
      destruct (decide (cleanupDelay = cleanupDelay)); [| congruence].
      simpl. rewrite Nat.sub_0_r. reflexivity. }
    cbn [fst snd]. unfold when, ret, setTimeout, emit.
    destruct ok; cbn [negb]; destruct (i <? total - 1) eqn:Hlt;
      match goal with
      | |- context [cleanupLoop remote ?j ?n ?l ?t0 ?s ?w'] =>
        destruct (IH j t0 s w' Hnext)
          as (outcomes & es & Hall & Htotals & Hcount & Htrace & Hreq
              & Hpauses)
      end; cbv zeta in Htotals, Hcount.
    + destruct Hresult as (obligation & _ & [= -> ->]).
      destruct (Hcombine [Sleep cleanupDelay] es
                  (Some (summarize capInfo obligation)) outcomes
                  eq_refl eq_refl Hreq Hpauses) as (H1 & H2).
      exists ((attempts, Some (summarize capInfo obligation)) :: outcomes).
      eexists. cbv zeta.
      cbn [omap list_omap snd option_bind mbind].
      split; [constructor; [split; [exact Hbudget | cbn [snd]; eauto]
                           | exact Hall] |].
      split; [rewrite Htotals; unfold pushSummary;
              cbn [acc_obligations acc_totalTVL acc_totalDeposits
                     acc_totalBorrows];
              rewrite <- app_assoc; reflexivity |].
      split; [rewrite Hcount; unfold len; simpl length; lia |].
      split; [rewrite Htrace; cbn [trace]; rewrite Htrace1; cbn [trace];
              rewrite <- !app_assoc; reflexivity |].
      split; [exact H1 | exact H2].
    + destruct Hresult as (obligation & _ & [= -> ->]).
      destruct (Hcombine [] es
                  (Some (summarize capInfo obligation)) outcomes
                  eq_refl eq_refl Hreq Hpauses) as (H1 & H2).
      exists ((attempts, Some (summarize capInfo obligation)) :: outcomes).
      eexists. cbv zeta.
      cbn [omap list_omap snd option_bind mbind].
      split; [constructor; [split; [exact Hbudget | cbn [snd]; eauto]
                           | exact Hall] |].
      split; [rewrite Htotals; unfold pushSummary;
              cbn [acc_obligations acc_totalTVL acc_totalDeposits
                     acc_totalBorrows];
              rewrite <- app_assoc; reflexivity |].
      split; [rewrite Hcount; unfold len; simpl length; lia |].
      split; [rewrite Htrace; cbn [trace]; rewrite Htrace1; cbn [trace];
              rewrite <- !app_assoc; reflexivity |].
      split; [exact H1 | exact H2].
    + destruct Hresult as (Hfive & _ & [= -> ->]).
      destruct (Hcombine [Say LCleanupFailed; Sleep cleanupDelay] es
                  None outcomes eq_refl eq_refl Hreq Hpauses) as (H1 & H2).
      exists ((attempts, None) :: outcomes). eexists. cbv zeta.
      cbn [omap list_omap snd option_bind mbind].
      split; [constructor; [split; [exact Hbudget | cbn [snd fst]; exact Hfive]
                           | exact Hall] |].
      split; [exact Htotals |]. split; [exact Hcount |].
      split; [rewrite Htrace; cbn [trace]; rewrite Htrace1; cbn [trace];
              rewrite <- !app_assoc; reflexivity |].
      split; [exact H1 | exact H2].
    + destruct Hresult as (Hfive & _ & [= -> ->]).
      destruct (Hcombine [Say LCleanupFailed] es
                  None outcomes eq_refl eq_refl Hreq Hpauses) as (H1 & H2).
      exists ((attempts, None) :: outcomes). eexists. cbv zeta.
      cbn [omap list_omap snd option_bind mbind].
      split; [constructor; [split; [exact Hbudget | cbn [snd fst]; exact Hfive]
                           | exact Hall] |].
      split; [exact Htotals |]. split; [exact Hcount |].
      split; [rewrite Htrace; cbn [trace]; rewrite Htrace1; cbn [trace];
              rewrite <- !app_assoc; reflexivity |].
      split; [exact H1 | exact H2].
Qed.

End CleanupFacts.

Lemma Forall_sublist {A} (Q : A -> Prop) (l1 l2 : list A) :
  l1 `sublist_of` l2 -> Forall Q l2 -> Forall Q l1.
Proof.
  induction 1 as [| x l1 l2 Hsub IH | x l1 l2 Hsub IH]; intros Hall.
  - constructor.
  - inversion Hall; subst. constructor; auto.
  - inversion Hall; subst. auto.
Qed.

(** The ids of the records the cleanup pass retries have no summary yet,
    and belong to extracted records. *)
Lemma failed_ids caps obligations :
  Forall (fun id => (id ∉ (sum_obligationId <$> obligations)) /\
                    (id ∈ (obligationId <$> caps)))
         (obligationId <$> failedCapInfosOf caps obligations).
Proof.
  apply Forall_fmap, Forall_forall. intros capInfo Hin.
  unfold failedCapInfosOf in Hin.
  apply list_elem_of_filter in Hin as [Hnot Hin]. split.
  - intros Hid. apply Hnot. unfold successfulIdsOf.
    apply elem_of_list_to_set. exact Hid.
  - apply list_elem_of_fmap. exists capInfo. auto.
Qed.

(** The cleanup pass when it runs. *)
Lemma cleanupPass_runs remote caps t w :
  len (acc_obligations t) < len caps ->
  let failed := failedCapInfosOf caps (acc_obligations t) in
  let r := cleanupPass remote caps t w in
  exists outcomes es,
    let recovered := omap snd outcomes in
    Forall2 (fetched 5) failed outcomes /\
    fst (fst r) =
      mkTotals (acc_obligations t ++ recovered)
               (sumFrom deposited_value_usd (acc_totalTVL t) recovered)
               (sumFrom deposited_value_usd (acc_totalDeposits t) recovered)
               (sumFrom unweighted_borrowed_value_usd (acc_totalBorrows t)
                        recovered) /\
    trace (snd r) = trace w ++ es /\
    requestsIn es = requestsOf failed outcomes /\
    filter (fun ms => ms = cleanupDelay) (sleepsIn es) =
      replicate (length failed - 1) cleanupDelay.
Proof.
  intros Hrun. cbv zeta. unfold cleanupPass.
  replace (0 <? len caps - len (acc_obligations t)) with true
    by (symmetry; apply Z.ltb_lt; lia).
  unfold bind, addResult, emit.
  match goal with
  | |- context [cleanupLoop ?r ?i ?n ?l ?t0 ?s ?w'] =>
    pose proof (cleanupLoop_spec r i n l t0 s w') as Hloop;
    destruct (cleanupLoop r i n l t0 s w') as [[t1 cs1] w1]
  end.
  cbv zeta in Hloop. cbn [fst snd calls trace] in Hloop.
  destruct Hloop
    as (outcomes & es & Hall & Htotals & _ & Htrace & Hreq & Hpauses);
    [lia |].
  exists outcomes. unfold when, ret. cbn [fst snd].
  destruct (0 <? cs1); cbn [fst snd trace];
    eexists (Say _ :: Say _ :: es ++ _);
    (split; [exact Hall |]); (split; [exact Htotals |]);
    (split; [rewrite Htrace, <- !app_assoc; reflexivity |]);
    change (requestsIn (Say ?a :: Say ?b :: ?x)) with (requestsIn x);
    change (sleepsIn (Say ?a :: Say ?b :: ?x)) with (sleepsIn x);
    unfold requestsIn, sleepsIn in *; rewrite !omap_app;
    cbn [omap list_omap]; rewrite !app_nil_r;
    (split; [exact Hreq | exact Hpauses]).
Qed.

(** The cleanup pass when the main pass left at least as many summaries
    as there are records. *)
Lemma cleanupPass_skipped remote caps t w :
  len caps <= len (acc_obligations t) ->
  cleanupPass remote caps t w = ((t, 0), w).
Proof.
  intros Hskip. unfold cleanupPass.
  replace (0 <? len caps - len (acc_obligations t))
    with false by (symmetry; apply Z.ltb_ge; lia).
  reflexivity.
Qed.

(** What the cleanup pass asks for, whether it runs or not. *)
Lemma cleanupPass_requests remote caps t w :
  exists es,
    trace (snd (cleanupPass remote caps t w)) = trace w ++ es /\
    Forall (fun id => id ∈ obligationId
                           <$> failedCapInfosOf caps (acc_obligations t))
           (requestsIn es).
Proof.
  destruct (Z.lt_ge_cases (len (acc_obligations t)) (len caps))
    as [Hrun | Hskip].
  - destruct (cleanupPass_runs remote caps t w Hrun)
      as (outcomes & es & Hall & _ & Htrace & Hreq & _).
    exists es. split; [exact Htrace |]. rewrite Hreq.
    apply (fetched_requests 5 _ _ Hall).
  - rewrite (cleanupPass_skipped remote caps t w Hskip). exists [].
    rewrite app_nil_r. split; [reflexivity | constructor].
Qed.

(** X9.  When the main pass left fewer summaries than there are
    records, the cleanup pass goes through the records whose obligation
    id has no summary yet, in their order: each is requested at least
    once and at most five times, the requests of one record before those
    of the next, and gives at most one summary, built from an answer to
    its request, or none after five requests.  The summaries of the main
    pass are kept, the new ones follow them, and every total is carried
    on from its value by [+=] over the new summaries in that order.
    Otherwise the pass does nothing at all. *)
Theorem cleanup_pass_retries_only_missing remote strategyCapInfos t w :
  let failedCapInfos :=
    failedCapInfosOf strategyCapInfos (acc_obligations t) in
  let r := cleanupPass remote strategyCapInfos t w in
  (len (acc_obligations t) < len strategyCapInfos ->
   exists outcomes es,
     let recovered := omap snd outcomes in
     Forall2 (fetched 5) failedCapInfos outcomes /\
     fst (fst r) =
       mkTotals (acc_obligations t ++ recovered)
                (sumFrom deposited_value_usd (acc_totalTVL t) recovered)
                (sumFrom deposited_value_usd (acc_totalDeposits t) recovered)
                (sumFrom unweighted_borrowed_value_usd (acc_totalBorrows t)
                         recovered) /\
     trace (snd r) = trace w ++ es /\
     requestsIn es = requestsOf failedCapInfos outcomes) /\
  Forall (fun capInfo =>
            capInfo ∈ strategyCapInfos /\
            obligationId capInfo ∉ (sum_obligationId <$> acc_obligations t))
         failedCapInfos /\
  (len strategyCapInfos <= len (acc_obligations t) ->
   r = ((t, 0), w)).
Proof.
  cbv zeta. split; [| split].
  - intros Hrun.
    destruct (cleanupPass_runs remote strategyCapInfos t w Hrun)
      as (outcomes & es & Hall & Htotals & Htrace & Hreq & _).
    exists outcomes, es. auto.
  - apply Forall_forall. intros capInfo Hin. unfold failedCapInfosOf in Hin.
    apply list_elem_of_filter in Hin as [Hnot Hin]. split; [exact Hin |].
    intros Hid. apply Hnot. unfold successfulIdsOf.
    apply elem_of_list_to_set. exact Hid.
  - apply cleanupPass_skipped.
Qed.

Lemma cleanup_pass_retries_only_missing_witness :
  (exists outcomes es,
     let recovered := omap snd outcomes in
     Forall2 (fetched 5)
             (failedCapInfosOf (exampleCaps 2)
                (acc_obligations (mkTotals [] 0 0 0))) outcomes /\
     fst (fst (cleanupPass deafRemote (exampleCaps 2) (mkTotals [] 0 0 0)
                 emptyWorld)) =
       mkTotals (acc_obligations (mkTotals [] 0 0 0) ++ recovered)
                (sumFrom deposited_value_usd 0 recovered)
                (sumFrom deposited_value_usd 0 recovered)
                (sumFrom unweighted_borrowed_value_usd 0 recovered) /\
     trace (snd (cleanupPass deafRemote (exampleCaps 2) (mkTotals [] 0 0 0)
                   emptyWorld)) = trace emptyWorld ++ es /\
     requestsIn es =
       requestsOf (failedCapInfosOf (exampleCaps 2)
                     (acc_obligations (mkTotals [] 0 0 0))) outcomes) /\
  let t := pushSummary (mkTotals [] 0 0 0)
             (mkObligationSummary "ob0" 100 40 60 1 "0xowner" "0x0") in
  cleanupPass deafRemote (exampleCaps 1) t emptyWorld = ((t, 0), emptyWorld).
Proof.
  split.
  - apply (proj1 (cleanup_pass_retries_only_missing deafRemote (exampleCaps 2)
                    (mkTotals [] 0 0 0) emptyWorld)).
    vm_compute. reflexivity.
  - cbv zeta.
    apply (proj2 (proj2 (cleanup_pass_retries_only_missing deafRemote
                           (exampleCaps 1)
                           (pushSummary (mkTotals [] 0 0 0)
                              (mkObligationSummary "ob0" 100 40 60 1
                                                   "0xowner" "0x0"))
                           emptyWorld))).
    vm_compute. discriminate.
Defined.

(** X10.  When the cleanup pass runs, it pauses 1500 ms after every
    retried record but the last, whatever the attempts gave: as many
    pauses as there are records to retry, less one. *)
Theorem cleanup_pass_pauses_between_records remote strategyCapInfos t w :
  len (acc_obligations t) < len strategyCapInfos ->
  exists es,
    trace (snd (cleanupPass remote strategyCapInfos t w)) = trace w ++ es /\
    filter (fun ms => ms = 1500) (sleepsIn es) =
    replicate
      (length (failedCapInfosOf strategyCapInfos (acc_obligations t)) - 1)
      1500.
Proof.
  intros Hrun.
  destruct (cleanupPass_runs remote strategyCapInfos t w Hrun)
    as (outcomes & es & _ & _ & Htrace & _ & Hpauses).
  exists es. split; [exact Htrace | exact Hpauses].
Qed.

Lemma cleanup_pass_pauses_between_records_witness :
  exists es,
    trace (snd (cleanupPass deafRemote (exampleCaps 3) (mkTotals [] 0 0 0)
                            emptyWorld)) = trace emptyWorld ++ es /\
    filter (fun ms => ms = 1500) (sleepsIn es) =
    replicate
      (length (failedCapInfosOf (exampleCaps 3)
                 (acc_obligations (mkTotals [] 0 0 0))) - 1)
      1500.
Proof.
  apply (cleanup_pass_pauses_between_records deafRemote (exampleCaps 3)
           (mkTotals [] 0 0 0) emptyWorld).
  vm_compute. reflexivity.
Defined.

(** ** The earlier pipeline *)

Lemma requestsOf_app caps1 caps2 outcomes1 outcomes2 :
  length caps1 = length outcomes1 ->
  requestsOf (caps1 ++ caps2) (outcomes1 ++ outcomes2) =
  requestsOf caps1 outcomes1 ++ requestsOf caps2 outcomes2.
Proof.
  unfold requestsOf. revert outcomes1.
  induction caps1 as [| c caps1 IH]; intros [| o outcomes1] Hlen;
    try discriminate; [reflexivity |].
  cbn [app zip_with concat]. rewrite IH by (simpl in Hlen; lia).
  rewrite app_assoc. reflexivity.
Qed.

Lemma mergeResults_outcomes
    (outcomes : list (nat * option ObligationSummary)) t :
  acc_obligations (mergeResults (snd <$> outcomes) t) =
  acc_obligations t ++ omap snd outcomes.
Proof.
  revert t. induction outcomes as [| [k [s |]] outcomes IH]; intros t;
    cbn [fmap list_fmap snd mergeResults omap list_omap option_bind mbind].
  - rewrite app_nil_r. reflexivity.
  - rewrite IH. unfold pushSummary. cbn [acc_obligations].
    rewrite <- app_assoc. reflexivity.
  - apply IH.
Qed.

Section FixedFacts.

Variable remote : Remote.

(** The outcome of every record of a batch. *)
Lemma processBatch_fetched total i b batch w :
  exists outcomes es,
    Forall2 (fetched 3) batch outcomes /\
    fst (processBatch remote total i b batch w) = snd <$> outcomes /\
    trace (snd (processBatch remote total i b batch w)) = trace w ++ es /\
    requestsIn es = requestsOf batch outcomes.
Proof.
  revert b w. induction batch as [| capInfo rest IH]; intros b w.
  - exists [], []. rewrite app_nil_r. repeat split; constructor.
  - cbn [processBatch]. unfold bind.
    destruct (fetchWithRetry_budget remote total (i + b) capInfo w)
      as (attempts & Hretried & Hresult).
    destruct Hretried as (es1 & Htrace1 & _ & Hbudget & Hreq1 & _).
    destruct (fetchWithRetry remote total (i + b) capInfo w) as [r w1].
    cbn [fst snd] in *.
    destruct (IH (b + 1) w1) as (outcomes & es & Hall & Hres & Htrace & Hreq).
    destruct (processBatch remote total i (b + 1) rest w1) as [rs w2].
    unfold ret. cbn [fst snd] in *.
    exists ((attempts, r) :: outcomes), (es1 ++ es).
    split; [| split; [| split]].
    + constructor; [| exact Hall]. split; [exact Hbudget |]. cbn [fst snd].
      destruct r as [obligationData |].
      * destruct Hresult as (obligation & _ & ->). eauto.
      * destruct Hresult as [-> _]. reflexivity.
    + cbn [fmap list_fmap snd]. rewrite Hres. reflexivity.
    + rewrite Htrace, Htrace1, <- app_assoc. reflexivity.
    + unfold requestsOf. cbn [zip_with concat fst].
      fold (requestsOf rest outcomes). rewrite <- Hreq.
      unfold requestsIn in *. rewrite omap_app, Hreq1. reflexivity.
Qed.

Variable strategyCapInfos : list StrategyCapInfo.

Lemma fixedIteration_spec i t w :
  0 <= i ->
  let r := fixedIteration remote strategyCapInfos (i, t) w in
  fst (fst r) = i + obligationBatchSize /\
  exists outcomes es,
    Forall2 (fetched 3)
            (slice strategyCapInfos i (i + obligationBatchSize)) outcomes /\
    acc_obligations (snd (fst r)) = acc_obligations t ++ omap snd outcomes /\
    trace (snd r) = trace w ++ es /\
    requestsIn es =
      requestsOf (slice strategyCapInfos i (i + obligationBatchSize))
                 outcomes.
Proof.
  intros Hi. cbv zeta. unfold fixedIteration, bind, addResult, emit.
  cbn [fst snd].
  match goal with
  | |- context [processBatch ?r ?n ?j ?b ?l ?w'] =>
    destruct (processBatch_fetched n j b l w')
      as (outcomes & es & Hall & Hres & Htrace & Hreq);
    destruct (processBatch r n j b l w') as [results w1]
  end.
  cbn [fst snd trace] in *. subst results.
  unfold when, ret, bind, addResult, setTimeout, emit.
  destruct (i + obligationBatchSize <? len strategyCapInfos);
    cbn [fst snd trace]; (split; [reflexivity |]);
    exists outcomes; eexists;
    (split; [exact Hall |]); (split; [apply mergeResults_outcomes |]);
    rewrite Htrace, <- ?app_assoc; (split; [reflexivity |]);
    rewrite <- Hreq; unfold requestsIn; rewrite !omap_app;
    cbn [omap list_omap app]; rewrite ?app_nil_r; reflexivity.
Qed.

Lemma fixedLoop_spec fuel i t w :
  0 <= i ->
  Z.max 0 (len strategyCapInfos - i) < Z.of_nat fuel ->
  exists st' outcomes es,
    fst (fixedLoop remote strategyCapInfos fuel (i, t) w) = Some st' /\
    Forall2 (fetched 3) (drop (Z.to_nat i) strategyCapInfos) outcomes /\
    acc_obligations (snd st') = acc_obligations t ++ omap snd outcomes /\
    trace (snd (fixedLoop remote strategyCapInfos fuel (i, t) w)) =
      trace w ++ es /\
    requestsIn es = requestsOf (drop (Z.to_nat i) strategyCapInfos) outcomes.
Proof.
  revert i t w. induction fuel as [| fuel IH]; intros i t w Hi Hfuel; [lia |].
  cbn [fixedLoop fst]. destruct (i <? len strategyCapInfos) eqn:Hlt.
  - apply Z.ltb_lt in Hlt. unfold bind.
    pose proof (fixedIteration_spec i t w Hi) as Hstep.
    destruct (fixedIteration remote strategyCapInfos (i, t) w)
      as [[i1 t1] w1].
    cbv zeta in Hstep. cbn [fst snd] in Hstep.
    destruct Hstep as (-> & outcomes1 & es1 & Hall1 & Hacc1 & Htrace1 & Hreq1).
    destruct (IH (i + obligationBatchSize) t1 w1)
      as (st' & outcomes & es & Hloop & Hall & Hacc & Htrace & Hreq);
      [unfold obligationBatchSize; lia | unfold obligationBatchSize; lia |].
    exists st', (outcomes1 ++ outcomes), (es1 ++ es).
    rewrite (drop_slice strategyCapInfos i obligationBatchSize Hi)
      by (unfold obligationBatchSize; lia).
    split; [exact Hloop |].
    split; [apply Forall2_app; assumption |].
    split; [rewrite Hacc, Hacc1, omap_app, <- app_assoc; reflexivity |].
    split; [rewrite Htrace, Htrace1, <- app_assoc; reflexivity |].
    rewrite requestsOf_app by (eapply Forall2_length; exact Hall1).
    rewrite <- Hreq1, <- Hreq. unfold requestsIn. apply omap_app.
  - apply Z.ltb_ge in Hlt. exists (i, t), [], []. rewrite !app_nil_r.
    rewrite drop_ge by (unfold len in Hlt; lia).
    repeat split; constructor.
Qed.

End FixedFacts.

Lemma compileResultsFixed_silent caps t w :
  exists es,
    trace (snd (compileResultsFixed caps t w)) = trace w ++ es /\
    requestsIn es = [].
Proof.
  unfold compileResultsFixed, bind, when, addResult, emit, ret.
  destruct (0 <? _); cbn [fst snd trace calls]; rewrite <- ?app_assoc;
    eexists; (split; [reflexivity |]); reflexivity.
Qed.

(** X11.  The earlier pipeline, whose batches have the fixed size 5,
    fetches every record in exactly one batch, and its loop always ends.
    Every extracted record has one outcome: it is requested at least
    once and at most three times in the whole run, and gives one summary,
    built from an answer to its request, or none after three requests.
    The list of the report is the stable sort of these summaries, taken
    in the order of the records, so that its count never exceeds the
    number of records. *)
Theorem fixed_batches_fetch_each_record_once remote :
  fst (runFixed remote) <> Diverged /\
  forall tvlSummary,
    fst (runFixed remote) = Reported tvlSummary ->
    exists allStrategyCaps outcomes,
      fst (discover remote emptyWorld) = Some allStrategyCaps /\
      Forall2 (fetched 3) (extractCapInfos allStrategyCaps) outcomes /\
      obligations tvlSummary =
        sortBy byDepositsDescending (omap snd outcomes) /\
      requestsIn (trace (snd (runFixed remote))) ≡ₚ
        requestsOf (extractCapInfos allStrategyCaps) outcomes /\
      strategyCount tvlSummary <= len (extractCapInfos allStrategyCaps).
Proof.
  unfold runFixed, calculateStrategyWrapperTVLFixed, bind.
  assert (Hq : quiet (snd (discover remote emptyWorld))).
  { apply discover_quiet. split; [reflexivity | constructor]. }
  destruct (discover remote emptyWorld) as [[allStrategyCaps |] w1];
    cbn [fst snd] in *; [| split; [discriminate | intros ?; discriminate]].
  destruct Hq as [_ Hq].
  destruct (discoveryEffects_silent _ Hq) as (Hreq1 & _ & _).
  destruct (len allStrategyCaps =? 0);
    [split; [discriminate | intros ?; discriminate] |].
  remember (extractCapInfos allStrategyCaps) as strategyCapInfos.
  remember (S (length strategyCapInfos)) as fuel eqn:Hfuel.
  unfold addResult, emit. destruct (initialize remote);
    [| split; [discriminate | intros ?; discriminate]].
  match goal with
  | |- context [fixedLoop ?r ?caps ?fuel ?st ?w] =>
    destruct (fixedLoop_spec r caps fuel 0 (mkTotals [] 0 0 0) w)
      as (st' & outcomes & es2 & Hloop & Hall & Hacc & Htrace2 & Hreq2);
      [lia | unfold len; lia |];
    destruct (fixedLoop r caps fuel st w) as [finished w2]
  end.
  cbn [fst snd trace] in *. subst finished.
  match goal with
  | |- context [compileResultsFixed ?caps ?t ?w] =>
    pose proof (compileResultsFixed_value caps t w) as Hreport;
    destruct (compileResultsFixed_silent caps t w) as (es3 & Htrace3 & Hreq3);
    destruct (compileResultsFixed caps t w) as [report w3]
  end.
  unfold ret. cbn [fst snd] in *. subst report.
  split; [discriminate |]. intros tvlSummary [= <-].
  exists allStrategyCaps, outcomes. split; [reflexivity |].
  cbn [acc_obligations app] in Hacc.
  change (Z.to_nat 0) with 0%nat in Hall, Hreq2. rewrite drop_0 in Hall, Hreq2.
  subst strategyCapInfos.
  unfold tvlSummaryOf. cbn [obligations strategyCount].
  rewrite Hacc. split; [exact Hall |]. split; [reflexivity |]. split.
  - rewrite Htrace3, Htrace2. unfold requestsIn in *.
    rewrite !omap_app, Hreq1, Hreq2, Hreq3.
    cbn [omap list_omap app]. rewrite app_nil_r. reflexivity.
  - pose proof (fetched_sublist 3 _ _ Hall) as Hsub.
    apply sublist_length in Hsub. rewrite !length_fmap in Hsub.
    unfold len. lia.
Qed.

Lemma fixed_batches_fetch_each_record_once_witness :
  exists allStrategyCaps outcomes,
    fst (discover mixedRemote emptyWorld) = Some allStrategyCaps /\
    Forall2 (fetched 3) (extractCapInfos allStrategyCaps) outcomes /\
    obligations mixedReport =
      sortBy byDepositsDescending (omap snd outcomes) /\
    requestsIn (trace (snd (runFixed mixedRemote))) ≡ₚ
      requestsOf (extractCapInfos allStrategyCaps) outcomes /\
    strategyCount mixedReport <= len (extractCapInfos allStrategyCaps).
Proof.
  apply (proj2 (fixed_batches_fetch_each_record_once mixedRemote)
               mixedReport).
  vm_compute. reflexivity.
Defined.

(** ** A healthy service *)

Section HealthyFacts.

Variable remote : Remote.
Hypothesis healthy : alwaysAnswers remote.

Lemma processBatch_healthy total i b batch w :
  let r := processBatch remote total i b batch w in
  Forall2 (fun capInfo result =>
             exists obligation,
               result = Some (summarize capInfo obligation))
          batch (fst r) /\
  exists es,
    trace (snd r) = trace w ++ es /\
    sleepsIn es = [] /\
    requestsIn es = obligationId <$> batch.
Proof.
  revert b w. induction batch as [| capInfo rest IH]; intros b w.
  - cbv zeta. split; [constructor |]. exists []. rewrite app_nil_r. auto.
  - cbv zeta. cbn [processBatch]. unfold bind.
    assert (Hfetch : exists obligation,
               fetchWithRetry remote total (i + b) capInfo w =
               (Some (summarize capInfo obligation),
                mkWorld (S (calls w))
                  (trace w ++
                   [Say (LProcessing (i + b + 1) total
                           (obligationId capInfo) 1);
                    Call (GetObligation (obligationId capInfo));
                    Say (LSuccess
                           (deposited_value_usd
                              (summarize capInfo obligation))
                           (unweighted_borrowed_value_usd
                              (summarize capInfo obligation)))]))).
    { destruct (healthy (calls w) (obligationId capInfo)) as [ob Hob].
      exists ob. unfold fetchWithRetry, fetchAttempts, bind,
        callGetObligation, addResult, emit, ret.
      cbn. rewrite Hob. cbn. rewrite <- !app_assoc. reflexivity. }
    destruct Hfetch as (obligation & ->).
    match goal with
    | |- context [processBatch remote total i ?b' rest ?w'] =>
      destruct (IH b' w') as (Hall & es & Htrace & Hsleep & Hreq);
      destruct (processBatch remote total i b' rest w') as [results w2]
    end.
    unfold ret. cbn [fst snd trace] in *. split.
    + constructor; [eauto | exact Hall].
    + eexists (_ :: _ :: _ :: es). rewrite Htrace, <- !app_assoc.
      split; [reflexivity |].
      split; [exact Hsleep |].
      change (requestsIn (Say ?a :: Call (GetObligation ?id) :: Say ?c :: es))
        with (id :: requestsIn es).
      rewrite Hreq. reflexivity.
Qed.

Lemma collect_healthy batch results t s f :
  Forall2 (fun capInfo result =>
             exists obligation,
               result = Some (summarize capInfo obligation))
          batch results ->
  exists added,
    collect results t s f =
    (mkTotals (acc_obligations t ++ added)
              (sumFrom deposited_value_usd (acc_totalTVL t) added)
              (sumFrom deposited_value_usd (acc_totalDeposits t) added)
              (sumFrom unweighted_borrowed_value_usd (acc_totalBorrows t)
                       added),
     s + len batch, f) /\
    sum_obligationId <$> added = obligationId <$> batch.
Proof.
  intros Hall. revert t s.
  induction Hall as [| capInfo result batch results Hhead Hall IH];
    intros t s.
  - exists []. unfold sumFrom, len. cbn [foldl length collect].
    rewrite app_nil_r, !Z.add_0_r. destruct t. auto.
  - destruct Hhead as (obligation & ->). cbn [collect].
    destruct (IH (pushSummary t (summarize capInfo obligation)) (s + 1))
      as (added & -> & Hids).
    exists (summarize capInfo obligation :: added). split.
    + unfold pushSummary. cbn [acc_obligations acc_totalTVL
        acc_totalDeposits acc_totalBorrows]. rewrite <- app_assoc.
      unfold len. cbn [app length].
      do 2 f_equal. lia.
    + cbn [fmap list_fmap]. rewrite Hids. reflexivity.
Qed.

End HealthyFacts.

Lemma slice_all {A} (l : list A) k : len l <= k -> slice l 0 k = l.
Proof.
  intros Hk. unfold slice.
  replace (0 <? 0) with false by reflexivity.
  replace (k <? 0) with false
    by (symmetry; apply Z.ltb_ge; unfold len in *; lia).
  replace (Z.to_nat (Z.min 0 (len l))) with 0%nat by (unfold len; lia).
  rewrite drop_0. apply take_ge. unfold len in *. lia.
Qed.

Section HealthyRun.

Variable remote : Remote.
Hypothesis healthy : alwaysAnswers remote.
Variable strategyCapInfos : list StrategyCapInfo.
Hypothesis few : 1 <= len strategyCapInfos <= 15.

(** The main pass on up to fifteen records: one flawless batch. *)
Lemma mainLoop_healthy_small fuel w :
  (2 <= fuel)%nat ->
  exists added es w',
    mainLoop remote strategyCapInfos fuel initialLoopState w =
    (Some (mkLoopState 15 (mkController 15 300 1 0 false 0)
             (mkTotals added (sumOf deposited_value_usd added)
                       (sumOf deposited_value_usd added)
                       (sumOf unweighted_borrowed_value_usd added))
             (len strategyCapInfos)), w') /\
    sum_obligationId <$> added = obligationId <$> strategyCapInfos /\
    trace w' = trace w ++ es /\
    sleepsIn es = [] /\
    requestsIn es = obligationId <$> strategyCapInfos.
Proof.
  intros Hfuel. destruct fuel as [| [| fuel]]; [lia | lia |].
  assert (Hbatch : batchOf strategyCapInfos initialLoopState =
                   strategyCapInfos).
  { unfold batchOf. cbn [loop_i controller initialLoopState
      currentBatchSize initialController].
    change (0 + 15) with 15. apply slice_all. lia. }
  assert (Hlt : (0 <? len strategyCapInfos) = true)
    by (apply Z.ltb_lt; lia).
  assert (Hend : (15 <? len strategyCapInfos) = false)
    by (apply Z.ltb_ge; lia).
  cbn [mainLoop]. cbn [loop_i initialLoopState]. rewrite Hlt.
  unfold bind at 1. unfold mainIteration, runBatch.
  rewrite Hbatch. unfold bind, addResult, emit.
  cbn [loop_i controller totals totalProcessed initialLoopState].
  match goal with
  | |- context [processBatch remote ?n ?i ?b ?l ?w0] =>
    pose proof (processBatch_healthy remote healthy n i b l w0) as Hbatch';
    destruct (processBatch remote n i b l w0) as [results w1]
  end.
  cbv zeta in Hbatch'. cbn [fst snd trace] in Hbatch'.
  destruct Hbatch' as (Hall & es & Htrace & Hsleep & Hreq).
  destruct (collect_healthy strategyCapInfos results (mkTotals [] 0 0 0) 0 0
              Hall) as (added & Hcollect & Hids).
  unfold ret. cbn [fst snd]. rewrite Hcollect. cbn [fst snd].
  rewrite !Z.add_0_l.
  assert (Hadjust : adjust initialController (len strategyCapInfos) 0
                           (len strategyCapInfos) =
                    (mkController 15 300 1 0 false 0, [])).
  { unfold adjust. rewrite full_batch_perfect by lia. reflexivity. }
  rewrite Hadjust. cbn [fst snd addResults currentBatchSize currentDelay
    failureRecoveryMode ret].
  unfold when, ret, bind, addResult, emit. rewrite Hend. cbn [fst snd].
  cbn [loop_i]. rewrite Hend.
  eexists added, _, _. split; [reflexivity |].
  cbn [trace acc_obligations app]. split; [exact Hids |].
  split; [rewrite Htrace, <- !app_assoc; reflexivity |].
  unfold sleepsIn, requestsIn in *. rewrite !omap_app, Hsleep, Hreq.
  cbn [omap list_omap app]. rewrite app_nil_r. auto.
Qed.

End HealthyRun.

Lemma compileResults_silent caps c t initialFailedCount w :
  exists es,
    trace (snd (compileResults caps c t initialFailedCount w)) =
      trace w ++ es /\
    requestsIn es = [] /\ sleepsIn es = [].
Proof.
  unfold compileResults, bind, when, addResult, emit, ret.
  repeat match goal with
         | |- context [if ?b then _ else _] => destruct b
         end;
    cbn [fst snd trace calls]; rewrite <- ?app_assoc;
    eexists; (split; [reflexivity |]); split; reflexivity.
Qed.

(** X12.  On a service that answers every request, a run over one to
    fifteen records is a single flawless batch: every record is
    requested exactly once, in order, nothing sleeps, the cleanup pass
    has nothing to do, and the report holds one position per record. *)
Theorem healthy_small_run remote allStrategyCaps :
  alwaysAnswers remote ->
  initialize remote = true ->
  fst (discover remote emptyWorld) = Some allStrategyCaps ->
  1 <= len (extractCapInfos allStrategyCaps) <= 15 ->
  exists tvlSummary,
    fst (run remote) = Reported tvlSummary /\
    strategyCount tvlSummary = len (extractCapInfos allStrategyCaps) /\
    (sum_obligationId <$> obligations tvlSummary) ≡ₚ
      (obligationId <$> extractCapInfos allStrategyCaps) /\
    requestsIn (trace (snd (run remote))) =
      obligationId <$> extractCapInfos allStrategyCaps /\
    sleepsIn (trace (snd (run remote))) = [].
Proof.
  intros Hhealthy Hinit Hd Hfew.
  unfold run, calculateStrategyWrapperTVL, bind.
  assert (Hq : quiet (snd (discover remote emptyWorld))).
  { apply discover_quiet. split; [reflexivity | constructor]. }
  destruct (discover remote emptyWorld) as [d w1].
  cbn [fst snd] in *. subst d.
  destruct Hq as [_ Hq].
  destruct (discoveryEffects_silent _ Hq) as (Hreq1 & Hsleep1 & _).
  replace (len allStrategyCaps =? 0) with false.
  2: { symmetry. apply Z.eqb_neq. destruct allStrategyCaps;
       [cbn in Hfew; unfold len in Hfew; simpl in Hfew; lia
       | unfold len; simpl; lia]. }
  remember (extractCapInfos allStrategyCaps) as caps.
  unfold addResult, emit. rewrite Hinit.
  match goal with
  | |- context [mainLoop remote caps ?fuel ?st ?w] =>
    destruct (mainLoop_healthy_small remote Hhealthy caps Hfew fuel w)
      as (added & es & w2 & Hloop & Hids & Htrace & Hsleep & Hreq);
      [unfold len in Hfew; lia |]
  end.
  rewrite Hloop. cbn [totals controller].
  assert (Hlen : len added = len caps).
  { unfold len. f_equal.
    rewrite <- (length_fmap sum_obligationId added), Hids, length_fmap.
    reflexivity. }
  unfold cleanupPass. cbn [acc_obligations]. rewrite Hlen.
  replace (0 <? len caps - len caps) with false
    by (symmetry; apply Z.ltb_ge; lia).
  unfold ret. cbn [fst snd].
  match goal with
  | |- context [compileResults ?cs ?c ?t ?n ?w] =>
    pose proof (compileResults_value cs c t n w) as Hreport;
    destruct (compileResults_silent cs c t n w)
      as (es3 & Htrace3 & Hreq3 & Hsleep3);
    destruct (compileResults cs c t n w) as [report w3]
  end.
  cbn [fst snd] in *. subst report.
  eexists. split; [reflexivity |].
  unfold tvlSummaryOf. cbn [strategyCount obligations acc_obligations].
  split; [exact Hlen |]. split.
  - rewrite (sortBy_Permutation byDepositsDescending added), Hids.
    reflexivity.
  - rewrite Htrace3, Htrace. cbn [trace].
    unfold requestsIn, sleepsIn in *.
    rewrite !omap_app, Hreq1, Hreq, Hreq3, Hsleep1, Hsleep, Hsleep3.
    cbn [omap list_omap app]. rewrite !app_nil_r. auto.
Qed.

Lemma healthy_small_run_witness :
  exists tvlSummary,
    fst (run mixedRemote) = Reported tvlSummary /\
    strategyCount tvlSummary = len (exampleCaps 3) /\
    (sum_obligationId <$> obligations tvlSummary) ≡ₚ
      (obligationId <$> exampleCaps 3) /\
    requestsIn (trace (snd (run mixedRemote))) =
      obligationId <$> exampleCaps 3 /\
    sleepsIn (trace (snd (run mixedRemote))) = [].
Proof.
  assert (Hd : fst (discover mixedRemote emptyWorld) =
               Some (resolvedFrom mixedRemote 0
                       (extractCapIds
                          (data (mkEventPage
                                   ((fun k => mkSuiEvent
                                                (Some (Some (pretty k))))
                                      <$> seq 0 3) false None)))))
    by (vm_compute; reflexivity).
  apply (healthy_small_run mixedRemote _ ltac:(intros k id; eexists;
           reflexivity) eq_refl Hd).
  vm_compute. split; discriminate.
Defined.

(** ** What a run asks for *)

Lemma addResults_trace lines w :
  exists es,
    trace (snd (addResults lines w)) = trace w ++ es /\
    requestsIn es = [] /\ sleepsIn es = [] /\
    calls (snd (addResults lines w)) = calls w.
Proof.
  revert w. induction lines as [| l lines IH]; intros w.
  - exists []. rewrite app_nil_r. auto.
  - cbn [addResults]. unfold bind, addResult, emit.
    match goal with
    | |- context [addResults lines ?w'] =>
      destruct (IH w') as (es & Htrace & Hreq & Hsleep & Hcalls)
    end.
    exists (Say l :: es). rewrite Htrace. cbn [trace].
    rewrite <- app_assoc. auto.
Qed.

Section RequestFacts.

Variable remote : Remote.

Lemma processBatch_requests total i b batch w :
  exists es,
    trace (snd (processBatch remote total i b batch w)) = trace w ++ es /\
    Forall (fun id => id ∈ obligationId <$> batch) (requestsIn es) /\
    (length (requestsIn es) <= 3 * length batch)%nat.
Proof.
  revert b w. induction batch as [| capInfo rest IH]; intros b w.
  - exists []. rewrite app_nil_r.
    split; [reflexivity |]. split; [constructor | reflexivity].
  - cbn [processBatch]. unfold bind.
    destruct (fetchWithRetry_budget remote total (i + b) capInfo w)
      as (attempts & Hretried & _).
    destruct Hretried as (es1 & Htrace1 & _ & Hbudget & Hreq1 & _).
    destruct (fetchWithRetry remote total (i + b) capInfo w) as [r w1].
    cbn [snd] in Htrace1.
    destruct (IH (b + 1) w1) as (es & Htrace & Hreq & Hlen).
    destruct (processBatch remote total i (b + 1) rest w1) as [rs w2].
    unfold ret. cbn [fst snd] in *.
    exists (es1 ++ es). rewrite Htrace, Htrace1, <- app_assoc.
    split; [reflexivity |].
    unfold requestsIn in *. rewrite omap_app, Hreq1. split.
    + apply Forall_app. split; [apply Forall_replicate; left |].
      eapply Forall_impl; [exact Hreq |]. intros id Hid. right. exact Hid.
    + rewrite length_app, length_replicate. simpl length. lia.
Qed.

Variable strategyCapInfos : list StrategyCapInfo.

Lemma mainIteration_requests st w :
  exists es,
    trace (snd (mainIteration remote strategyCapInfos st w)) =
      trace w ++ es /\
    Forall (fun id => id ∈ obligationId <$> strategyCapInfos)
           (requestsIn es).
Proof.
  unfold mainIteration, runBatch, bind, addResult, emit.
  match goal with
  | |- context [processBatch remote ?n ?i ?b ?l ?w0] =>
    destruct (processBatch_requests n i b l w0)
      as (es1 & Htrace1 & Hreq1 & _);
    destruct (processBatch remote n i b l w0) as [results w1]
  end.
  unfold ret. cbn [fst snd trace] in *.
  match goal with
  | |- context [addResults ?lines ?w0] =>
    destruct (addResults_trace lines w0) as (es2 & Htrace2 & Hreq2 & _);
    destruct (addResults lines w0) as [[] w2]
  end.
  cbn [fst snd trace] in *.
  unfold when, ret, setTimeout, emit.
  repeat match goal with
         | |- context [if ?b then _ else _] => destruct b
         end;
    cbn [fst snd trace calls]; rewrite Htrace2, Htrace1, <- ?app_assoc;
    eexists; (split; [reflexivity |]);
    unfold requestsIn in *; rewrite ?omap_app, Hreq2;
    cbn [omap list_omap app]; rewrite ?app_nil_r;
    (eapply Forall_impl; [exact Hreq1 |]);
    intros id Hid; apply list_elem_of_fmap in Hid as (c & -> & Hc);
    apply list_elem_of_fmap; exists c; (split; [reflexivity |]);
    eapply elem_of_slice; exact Hc.
Qed.

Lemma mainLoop_requests fuel st w :
  exists es,
    trace (snd (mainLoop remote strategyCapInfos fuel st w)) =
      trace w ++ es /\
    Forall (fun id => id ∈ obligationId <$> strategyCapInfos)
           (requestsIn es).
Proof.
  revert st w. induction fuel as [| fuel IH]; intros st w.
  - exists []. rewrite app_nil_r. split; [reflexivity | constructor].
  - cbn [mainLoop]. destruct (loop_i st <? len strategyCapInfos).
    + unfold bind.
      destruct (mainIteration_requests st w) as (es1 & Htrace1 & Hreq1).
      destruct (mainIteration remote strategyCapInfos st w) as [st1 w1].
      cbn [snd] in Htrace1.
      destruct (IH st1 w1) as (es & Htrace & Hreq).
      exists (es1 ++ es). rewrite Htrace, Htrace1, <- app_assoc.
      split; [reflexivity |].
      unfold requestsIn in *. rewrite omap_app.
      apply Forall_app. split; assumption.
    + exists []. rewrite app_nil_r. split; [reflexivity | constructor].
Qed.

End RequestFacts.

(** X13.  A run asks the lending service only about obligations of the
    capability records it extracted; when discovery fails it asks about
    none. *)
Theorem requests_only_for_extracted_records remote :
  match fst (discover remote emptyWorld) with
  | Some allStrategyCaps =>
    Forall (fun id => id ∈ obligationId <$> extractCapInfos allStrategyCaps)
           (requestsIn (trace (snd (run remote))))
  | None => requestsIn (trace (snd (run remote))) = []
  end.
Proof.
  unfold run, calculateStrategyWrapperTVL, bind.
  assert (Hq : quiet (snd (discover remote emptyWorld))).
  { apply discover_quiet. split; [reflexivity | constructor]. }
  destruct (discover remote emptyWorld) as [[allStrategyCaps |] w1];
    cbn [fst snd] in *; destruct Hq as [_ Hq];
    destruct (discoveryEffects_silent _ Hq) as (Hreq1 & _ & _).
  2: { unfold addResult, emit, ret. cbn [snd trace].
       unfold requestsIn in *. rewrite omap_app, Hreq1. reflexivity. }
  destruct (len allStrategyCaps =? 0).
  { unfold addResult, emit, ret. cbn [snd trace].
    unfold requestsIn in *. rewrite omap_app, Hreq1. constructor. }
  remember (extractCapInfos allStrategyCaps) as caps.
  remember (S (length caps)) as fuel.
  unfold addResult, emit. destruct (initialize remote).
  2: { unfold ret. cbn [snd trace].
       unfold requestsIn in *. rewrite !omap_app, Hreq1. constructor. }
  match goal with
  | |- context [mainLoop remote caps fuel ?st ?w] =>
    destruct (mainLoop_requests remote caps fuel st w)
      as (es2 & Htrace2 & Hreq2);
    destruct (mainLoop remote caps fuel st w) as [[st' |] w2]
  end; cbn [snd trace] in Htrace2.
  2: { unfold ret. cbn [snd]. rewrite Htrace2.
       unfold requestsIn in *. rewrite !omap_app, Hreq1.
       cbn [omap list_omap app]. exact Hreq2. }
  destruct (cleanupPass_requests remote caps (totals st') w2)
    as (es3 & Htrace3 & Hreq3).
  destruct (cleanupPass remote caps (totals st') w2) as [cleaned w3].
  cbn [snd] in Htrace3.
  match goal with
  | |- context [compileResults ?cs ?c ?t ?n ?w] =>
    destruct (compileResults_silent cs c t n w)
      as (es4 & Htrace4 & Hreq4 & _);
    destruct (compileResults cs c t n w) as [report w4]
  end.
  unfold ret. cbn [fst snd] in *.
  rewrite Htrace4, Htrace3, Htrace2.
  unfold requestsIn in *. rewrite !omap_app, Hreq1, Hreq4.
  cbn [omap list_omap app]. rewrite app_nil_r.
  apply Forall_app. split; [exact Hreq2 |].
  eapply Forall_impl; [exact Hreq3 |].
  intros id Hid. apply list_elem_of_fmap in Hid as (c & -> & Hc).
  apply list_elem_of_fmap. exists c. split; [reflexivity |].
  unfold failedCapInfosOf in Hc.
  apply list_elem_of_filter in Hc as [_ Hc]. exact Hc.
Qed.

(** ** The end of the main pass and its pacing *)

Lemma mainLoop_exit remote caps fuel st w st' :
  fst (mainLoop remote caps fuel st w) = Some st' ->
  len caps <= loop_i st'.
Proof.
  revert st w. induction fuel as [| fuel IH]; intros st w Hloop;
    [discriminate |].
  cbn [mainLoop] in Hloop.
  destruct (loop_i st <? len caps) eqn:Hlt.
  - unfold bind in Hloop.
    destruct (mainIteration remote caps st w) as [st1 w1].
    eapply IH. exact Hloop.
  - injection Hloop as <-. apply Z.ltb_ge in Hlt. exact Hlt.
Qed.

(** X14.  The adaptive loop always ends: every iteration moves [i]
    forward by the new batch size, between 3 and 20, so that one
    iteration per record, and one more test, is enough to bring [i] to
    the number of records or beyond; no run is left without an end. *)
Theorem main_pass_ends remote :
  (forall strategyCapInfos w0 st w,
     reachable remote strategyCapInfos w0 st w ->
     let st' := fst (mainIteration remote strategyCapInfos st w) in
     loop_i st + 3 <= loop_i st' <= loop_i st + 20) /\
  (forall strategyCapInfos w,
     exists st',
       fst (mainLoop remote strategyCapInfos (S (length strategyCapInfos))
                     initialLoopState w) = Some st' /\
       len strategyCapInfos <= loop_i st') /\
  fst (run remote) <> Diverged.
Proof.
  split; [| split].
  - intros caps w0 st w Hreach. cbv zeta.
    pose proof (reachable_invariant remote caps w0 st w Hreach) as Hinv.
    pose proof (mainIteration_invariant remote caps st w Hinv)
      as ([Hsize _] & _).
    rewrite mainIteration_state in Hsize |- *.
    cbn [loop_i controller] in *. lia.
  - intros caps w.
    destruct (mainLoop_terminates remote caps (S (length caps))
                initialLoopState w) as (st' & Hloop & _).
    + unfold loopInvariant. simpl.
      split; [apply initialController_bounded | lia].
    + cbn [loop_i initialLoopState]. unfold len. lia.
    + exists st'. split; [exact Hloop |].
      eapply mainLoop_exit. exact Hloop.
  - apply run_never_diverges.
Qed.

Lemma main_pass_ends_witness :
  let st' := fst (mainIteration overlapRemote (exampleCaps 15)
                                initialLoopState emptyWorld) in
  loop_i initialLoopState + 3 <= loop_i st' <= loop_i initialLoopState + 20.
Proof.
  apply (proj1 (main_pass_ends overlapRemote) (exampleCaps 15) emptyWorld
               initialLoopState emptyWorld).
  apply reach_start.
Defined.

(** X15.  After a batch the loop sleeps for the delay the controller has
    just set when records are left beyond the new position, and that
    sleep is the last thing the iteration does; after the last batch it
    does not sleep, and the iteration ends with the line of the batch
    results. *)
Theorem main_pass_sleeps_between_batches remote strategyCapInfos st w :
  let r := mainIteration remote strategyCapInfos st w in
  if loop_i (fst r) <? len strategyCapInfos
  then last (trace (snd r)) =
       Some (Sleep (currentDelay (controller (fst r))))
  else exists batchSuccesses batchFailures rate,
      last (trace (snd r)) =
      Some (Say (LBatchResults batchSuccesses batchFailures rate
                   (failureRecoveryMode (controller (fst r))))).
Proof.
  cbv zeta. unfold mainIteration, bind.
  destruct (runBatch remote strategyCapInfos st w) as [counted w1].
  destruct (addResults _ w1) as [[] w2].
  unfold when, ret, addResult, setTimeout, emit, bind.
  destruct (loop_i st + currentBatchSize _ <? len strategyCapInfos) eqn:Hlt.
  - destruct (_ || _); cbn [fst snd loop_i controller trace];
      rewrite Hlt; apply last_snoc.
  - cbn [fst snd loop_i controller trace]. rewrite Hlt.
    eexists _, _, _. apply last_snoc.
Qed.

(** ** Runs on a service that answers *)

(** A flawless batch never lowers the batch size. *)
Lemma flawless_batch_keeps_size c n :
  bounded c -> 1 <= n ->
  currentBatchSize c <= currentBatchSize (fst (adjust c n 0 n)).
Proof.
  intros [Hsize _] Hn. unfold adjust. rewrite (full_batch_perfect n Hn).
  cbn [fst currentBatchSize]. destruct (negb _ && _); lia.
Qed.

(** The ids that have no summary yet are the complement of the ids that
    have one, when the latter were taken in order from records with
    distinct ids. *)
Lemma missing_ids_complement caps (ids : list string) (S : gset string) :
  NoDup (obligationId <$> caps) ->
  ids `sublist_of` (obligationId <$> caps) ->
  (forall id, id ∈ obligationId <$> caps -> id ∈ S <-> id ∈ ids) ->
  ids ++ (obligationId <$> filter (fun cap => obligationId cap ∉ S) caps)
    ≡ₚ obligationId <$> caps.
Proof.
  revert ids. induction caps as [| cap caps IH]; intros ids Hnodup Hsub HS.
  - apply sublist_nil_r in Hsub. subst ids. reflexivity.
  - rewrite fmap_cons in *. apply NoDup_cons in Hnodup as [Hfresh Hnodup].
    rewrite filter_cons.
    apply sublist_cons_r in Hsub as [Hsub | (ids' & -> & Hsub)].
    + assert (Hout : obligationId cap ∉ ids).
      { intros Hin. apply Hfresh. eapply elem_of_sublist; eassumption. }
      destruct (decide (obligationId cap ∉ S)) as [_ | Hin].
      * rewrite fmap_cons, <- Permutation_middle. constructor.
        apply IH; [exact Hnodup | exact Hsub |].
        intros id Hid. apply HS. right. exact Hid.
      * exfalso. apply Hin. intros HinS. apply Hout, HS; [left | exact HinS].
    + destruct (decide (obligationId cap ∉ S)) as [Hnot | _].
      * exfalso. apply Hnot, HS; left.
      * cbn [app]. constructor.
        apply IH; [exact Hnodup | exact Hsub |].
        intros id Hid. rewrite HS by (right; exact Hid). split.
        -- intros Hin. apply elem_of_cons in Hin as [-> | Hin];
             [contradiction | exact Hin].
        -- intros Hin. right. exact Hin.
Qed.

Section HealthyAnySize.

Variable remote : Remote.
Hypothesis healthy : alwaysAnswers remote.
Variable strategyCapInfos : list StrategyCapInfo.

(** An iteration on a service that answers: every record of the slice
    gives a summary, and [i] moves beyond the slice. *)
Lemma mainIteration_healthy st w :
  bounded (controller st) -> 0 <= loop_i st ->
  loop_i st < len strategyCapInfos ->
  let r := mainIteration remote strategyCapInfos st w in
  bounded (controller (fst r)) /\
  loop_i st + currentBatchSize (controller st) <= loop_i (fst r) /\
  exists added es,
    acc_obligations (totals (fst r)) =
      acc_obligations (totals st) ++ added /\
    sum_obligationId <$> added =
      obligationId <$> batchOf strategyCapInfos st /\
    trace (snd r) = trace w ++ es /\
    requestsIn es = obligationId <$> batchOf strategyCapInfos st.
Proof.
  intros Hb Hi Hlt. cbv zeta.
  assert (Hn : 1 <= len (batchOf strategyCapInfos st)).
  { unfold batchOf. destruct Hb as [[Hs _] _]. rewrite len_slice by lia. lia. }
  unfold mainIteration, runBatch, bind, addResult, emit.
  match goal with
  | |- context [processBatch remote ?n ?i ?b ?l ?w0] =>
    pose proof (processBatch_healthy remote healthy n i b l w0) as Hbatch;
    destruct (processBatch remote n i b l w0) as [results w1]
  end.
  cbv zeta in Hbatch. cbn [fst snd trace] in Hbatch.
  destruct Hbatch as (Hall & es & Htrace & _ & Hreq).
  destruct (collect_healthy _ results (totals st) 0 0 Hall)
    as (added & Hcollect & Hids).
  unfold ret. cbn [fst snd]. rewrite Hcollect. cbn [fst snd].
  rewrite !Z.add_0_l.
  pose proof (adjust_bounded (controller st)
                (len (batchOf strategyCapInfos st)) 0
                (len (batchOf strategyCapInfos st)) Hb) as Hb'.
  pose proof (flawless_batch_keeps_size (controller st) _ Hb Hn) as Hsize.
  destruct (adjust (controller st) (len (batchOf strategyCapInfos st)) 0
                   (len (batchOf strategyCapInfos st))) as [c' lines].
  cbn [fst snd] in *.
  destruct (addResults_trace lines w1) as (es2 & Htrace2 & Hreq2 & _).
  destruct (addResults lines w1) as [[] w2]. cbn [fst snd] in *.
  unfold when, ret, bind, setTimeout, addResult, emit.
  repeat match goal with
         | |- context [if ?b then _ else _] => destruct b
         end;
    cbn [fst snd trace calls loop_i controller totals acc_obligations];
    (split; [exact Hb' |]); (split; [lia |]);
    exists added; eexists;
    (split; [reflexivity |]); (split; [exact Hids |]);
    rewrite Htrace2, Htrace; cbn [trace]; rewrite <- ?app_assoc;
    (split; [reflexivity |]);
    unfold requestsIn in *; rewrite ?omap_app, Hreq, Hreq2;
    cbn [omap list_omap app]; rewrite ?app_nil_r; reflexivity.
Qed.

(** The main pass on a service that answers: the summaries it collects
    follow the order of the records, one request each. *)
Lemma mainLoop_healthy fuel st w st' :
  bounded (controller st) -> 0 <= loop_i st ->
  fst (mainLoop remote strategyCapInfos fuel st w) = Some st' ->
  exists added es,
    acc_obligations (totals st') = acc_obligations (totals st) ++ added /\
    (sum_obligationId <$> added) `sublist_of`
      (obligationId <$> drop (Z.to_nat (loop_i st)) strategyCapInfos) /\
    trace (snd (mainLoop remote strategyCapInfos fuel st w)) =
      trace w ++ es /\
    requestsIn es = sum_obligationId <$> added.
Proof.
  revert st w. induction fuel as [| fuel IH]; intros st w Hb Hi Hloop;
    [discriminate |].
  cbn [mainLoop] in *.
  destruct (loop_i st <? len strategyCapInfos) eqn:Hlt.
  - apply Z.ltb_lt in Hlt. unfold bind in *.
    destruct (mainIteration_healthy st w Hb Hi Hlt)
      as (Hb1 & Hi1 & added1 & es1 & Hacc1 & Hids1 & Htrace1 & Hreq1).
    destruct (mainIteration remote strategyCapInfos st w) as [st1 w1].
    cbn [fst snd] in *.
    destruct (IH st1 w1 Hb1 ltac:(destruct Hb as [[? _] _]; lia) Hloop)
      as (added & es & Hacc & Hsub & Htrace & Hreq).
    exists (added1 ++ added), (es1 ++ es).
    split; [rewrite Hacc, Hacc1, <- app_assoc; reflexivity |].
    split.
    + rewrite fmap_app, Hids1.
      destruct Hb as [[Hs _] _].
      rewrite (drop_slice strategyCapInfos (loop_i st)
                 (currentBatchSize (controller st))) by lia.
      rewrite fmap_app. apply sublist_app; [reflexivity |].
      etransitivity; [exact Hsub |]. apply fmap_sublist.
      replace (Z.to_nat (loop_i st1))
        with (Z.to_nat (loop_i st + currentBatchSize (controller st))
              + Z.to_nat (loop_i st1 - (loop_i st
                            + currentBatchSize (controller st))))%nat by lia.
      rewrite <- drop_drop. apply sublist_drop.
    + split; [rewrite Htrace, Htrace1, <- app_assoc; reflexivity |].
      unfold requestsIn in *. rewrite omap_app, Hreq1, Hreq, fmap_app, Hids1.
      reflexivity.
  - injection Hloop as <-. exists [], []. rewrite !app_nil_r.
    split; [reflexivity |]. split; [apply sublist_nil_l |].
    split; reflexivity.
Qed.

End HealthyAnySize.

Section HealthyCleanup.

Variable remote : Remote.
Hypothesis healthy : alwaysAnswers remote.

Lemma cleanupAttempts_healthy capInfo t cleanupSuccesses w :
  exists obligation es,
    cleanupAttempts remote 5 1 capInfo t cleanupSuccesses w =
    ((pushSummary t (summarize capInfo obligation), cleanupSuccesses + 1,
      true),
     mkWorld (S (calls w)) (trace w ++ es)) /\
    requestsIn es = [obligationId capInfo].
Proof.
  destruct (healthy (calls w) (obligationId capInfo)) as [ob Hob].
  exists ob. eexists.
  unfold cleanupAttempts, bind, callGetObligation, addResult, emit, ret.
  cbn. rewrite Hob. cbn. rewrite <- !app_assoc. split; reflexivity.
Qed.

Lemma cleanupLoop_healthy i total rest t cleanupSuccesses w :
  let r := cleanupLoop remote i total rest t cleanupSuccesses w in
  exists recovered es,
    acc_obligations (fst (fst r)) = acc_obligations t ++ recovered /\
    sum_obligationId <$> recovered = obligationId <$> rest /\
    trace (snd r) = trace w ++ es /\
    requestsIn es = obligationId <$> rest.
Proof.
  revert i t cleanupSuccesses w.
  induction rest as [| capInfo rest IH]; intros i t cleanupSuccesses w.
  - exists [], []. cbn. rewrite !app_nil_r. auto.
  - cbv zeta. cbn [cleanupLoop]. unfold bind, addResult, emit.
    match goal with
    | |- context [cleanupAttempts remote 5 1 capInfo t ?s ?w'] =>
      destruct (cleanupAttempts_healthy capInfo t s w')
        as (ob & es1 & -> & Hreq1)
    end.
    cbn [fst snd negb]. unfold when, ret, setTimeout, emit.
    destruct (i <? total - 1); cbn [fst snd];
      match goal with
      | |- context [cleanupLoop remote ?i' total rest ?t' ?s' ?w'] =>
        destruct (IH i' t' s' w') as (recovered & es & Hacc & Hids & Htrace
                                      & Hreq)
      end;
      exists (summarize capInfo ob :: recovered); eexists;
      (split; [rewrite Hacc; unfold pushSummary; cbn [acc_obligations];
               rewrite <- app_assoc; reflexivity |]);
      (split; [cbn [fmap list_fmap]; rewrite Hids; reflexivity |]);
      rewrite Htrace; cbn [trace calls]; rewrite <- ?app_assoc;
      (split; [reflexivity |]);
      unfold requestsIn in *; rewrite !omap_app, Hreq1, Hreq; reflexivity.
Qed.

End HealthyCleanup.

(** X16.  On a service that answers every request, a run over records
    with distinct obligation ids, however many, reports every record
    exactly once and requests every record exactly once: the batch size
    only grows, no two batches overlap, and what the main pass skips when
    the size grows the cleanup pass fetches. *)
Theorem healthy_run_reports_every_record remote allStrategyCaps :
  alwaysAnswers remote ->
  initialize remote = true ->
  fst (discover remote emptyWorld) = Some allStrategyCaps ->
  allStrategyCaps <> [] ->
  NoDup (obligationId <$> extractCapInfos allStrategyCaps) ->
  exists tvlSummary,
    fst (run remote) = Reported tvlSummary /\
    strategyCount tvlSummary = len (extractCapInfos allStrategyCaps) /\
    (sum_obligationId <$> obligations tvlSummary) ≡ₚ
      (obligationId <$> extractCapInfos allStrategyCaps) /\
    requestsIn (trace (snd (run remote))) ≡ₚ
      (obligationId <$> extractCapInfos allStrategyCaps).
Proof.
  intros Hhealthy Hinit Hd Hsome Hnodup.
  unfold run, calculateStrategyWrapperTVL, bind.
  assert (Hq : quiet (snd (discover remote emptyWorld))).
  { apply discover_quiet. split; [reflexivity | constructor]. }
  destruct (discover remote emptyWorld) as [d w1].
  cbn [fst snd] in *. subst d.
  destruct Hq as [_ Hq].
  destruct (discoveryEffects_silent _ Hq) as (Hreq1 & _ & _).
  replace (len allStrategyCaps =? 0) with false.
  2: { symmetry. apply Z.eqb_neq. destruct allStrategyCaps;
       [congruence | unfold len; simpl; lia]. }
  remember (extractCapInfos allStrategyCaps) as caps.
  unfold addResult, emit. rewrite Hinit.
  remember (S (length caps)) as fuel.
  match goal with
  | |- context [mainLoop remote caps fuel ?st ?w] =>
    destruct (mainLoop_terminates remote caps fuel st w)
      as (st' & Hloop & _);
      [repeat split; simpl; lia
      | subst fuel; cbn [loop_i initialLoopState]; unfold len; lia |];
    destruct (mainLoop_healthy remote Hhealthy caps fuel st w st'
                initialController_bounded ltac:(simpl; lia) Hloop)
      as (added & es2 & Hacc & Hsub & Htrace2 & Hreq2);
    destruct (mainLoop remote caps fuel st w) as [finished w2]
  end.
  cbn [fst snd] in *. subst finished.
  cbn [totals initialLoopState acc_obligations app loop_i] in Hacc, Hsub.
  change (Z.to_nat 0) with 0%nat in Hsub. rewrite drop_0 in Hsub.
  assert (Hfinal : exists final es3,
            acc_obligations
              (fst (fst (cleanupPass remote caps (totals st') w2))) = final /\
            (sum_obligationId <$> final) ≡ₚ (obligationId <$> caps) /\
            trace (snd (cleanupPass remote caps (totals st') w2)) =
              trace w2 ++ es3 /\
            (requestsIn es2 ++ requestsIn es3) ≡ₚ (obligationId <$> caps)).
  { unfold cleanupPass. rewrite Hacc.
    destruct (0 <? len caps - len added) eqn:Hleft.
    - unfold bind, addResult, emit.
      match goal with
      | |- context [cleanupLoop remote 0 ?n ?l ?t ?s ?w] =>
        destruct (cleanupLoop_healthy remote Hhealthy 0 n l t s w)
          as (recovered & es & Hacc3 & Hids3 & Htrace3 & Hreq3);
        destruct (cleanupLoop remote 0 n l t s w) as [[t3 s3] w3]
      end.
      cbn [fst snd trace] in *. rewrite Hacc in Hacc3.
      assert (Hall : (sum_obligationId <$> added)
                     ++ (obligationId <$> failedCapInfosOf caps added)
                     ≡ₚ obligationId <$> caps).
      { unfold failedCapInfosOf.
        apply missing_ids_complement; [exact Hnodup | exact Hsub |].
        intros id _. unfold successfulIdsOf. apply elem_of_list_to_set. }
      unfold when, ret.
      destruct (0 <? s3); cbn [fst snd trace];
        eexists; eexists; (split; [reflexivity |]);
        rewrite Hacc3, fmap_app, Hids3; (split; [exact Hall |]);
        rewrite Htrace3, <- ?app_assoc; (split; [reflexivity |]);
        unfold requestsIn in *; rewrite !omap_app, Hreq2, Hreq3;
        cbn [omap list_omap app]; rewrite ?app_nil_r; exact Hall.
    - apply Z.ltb_ge in Hleft. unfold ret. cbn [fst snd].
      assert (Hall : (sum_obligationId <$> added) ≡ₚ obligationId <$> caps).
      { apply submseteq_length_Permutation;
          [apply sublist_submseteq; exact Hsub |].
        rewrite !length_fmap. unfold len in Hleft. lia. }
      exists added, []. rewrite Hacc, !app_nil_r.
      split; [reflexivity |]. split; [exact Hall |].
      split; [reflexivity |]. rewrite Hreq2. exact Hall. }
  destruct Hfinal as (final & es3 & Hfinal & Hids & Htrace3 & Hreqs).
  destruct (cleanupPass remote caps (totals st') w2) as [cleaned w3].
  cbn [fst snd] in *.
  match goal with
  | |- context [compileResults ?cs ?c ?t ?n ?w] =>
    pose proof (compileResults_value cs c t n w) as Hreport;
    destruct (compileResults_silent cs c t n w)
      as (es4 & Htrace4 & Hreq4 & _);
    destruct (compileResults cs c t n w) as [report w4]
  end.
  unfold ret. cbn [fst snd] in *. subst report.
  eexists. split; [reflexivity |].
  unfold tvlSummaryOf. cbn [strategyCount obligations]. rewrite Hfinal.
  split; [| split].
  - unfold len. f_equal.
    rewrite <- (length_fmap sum_obligationId final),
            <- (length_fmap obligationId caps).
    apply Permutation_length. exact Hids.
  - rewrite (sortBy_Permutation byDepositsDescending final). exact Hids.
  - rewrite Htrace4, Htrace3, Htrace2. cbn [trace].
    unfold requestsIn in *. rewrite !omap_app, Hreq1, Hreq4.
    cbn [omap list_omap app]. rewrite !app_nil_r. exact Hreqs.
Qed.

Lemma healthy_run_reports_every_record_witness :
  exists tvlSummary,
    fst (run crowdedRemote) = Reported tvlSummary /\
    strategyCount tvlSummary = len (exampleCaps 33) /\
    (sum_obligationId <$> obligations tvlSummary) ≡ₚ
      (obligationId <$> exampleCaps 33) /\
    requestsIn (trace (snd (run crowdedRemote))) ≡ₚ
      (obligationId <$> exampleCaps 33).
Proof.
  assert (Hd : fst (discover crowdedRemote emptyWorld) =
               Some (resolvedFrom crowdedRemote 0
                       (extractCapIds
                          (data (mkEventPage
                                   ((fun k => mkSuiEvent
                                                (Some (Some (pretty k))))
                                      <$> seq 0 33) false None)))))
    by (vm_compute; reflexivity).
  apply (healthy_run_reports_every_record crowdedRemote _
           ltac:(intros k id; eexists; reflexivity) eq_refl Hd).
  - vm_compute. discriminate.
  - vm_compute. apply (bool_decide_unpack (NoDup _)). vm_compute. exact I.
Defined.

(** ** The controller after failures *)

(** X17.  A batch with failures never speeds the loop up: the delay
    grows, by 200 or 400, until it stands at 2000, the failure count is
    recorded, and the batch size does not grow, with one exception: the
    moderate slowdown has the floor 5, so that it raises a size of 3 or 4,
    which the aggressive slowdown leaves behind, to 5. *)
Theorem failing_batch_never_speeds_up c batchSuccesses batchFailures size :
  bounded c -> 0 < batchFailures ->
  let c' := fst (adjust c batchSuccesses batchFailures size) in
  currentDelay c <= currentDelay c' <= currentDelay c + 400 /\
  (currentDelay c <= 1800 -> currentDelay c + 200 <= currentDelay c') /\
  lastFailureCount c' = batchFailures /\
  (5 <= currentBatchSize c -> currentBatchSize c' <= currentBatchSize c) /\
  (currentBatchSize c < 5 ->
   currentBatchSize c' = 3 /\ failureRecoveryMode c' = true \/
   currentBatchSize c' = 5 /\
   failureRecoveryMode c' = failureRecoveryMode c).
Proof.
  intros [Hsize Hdelay] Hf. cbv zeta. unfold adjust.
  destruct (classify_failures batchSuccesses batchFailures size Hf)
    as [-> | ->];
    cbn [fst currentDelay currentBatchSize lastFailureCount
         failureRecoveryMode];
    repeat split; try lia;
    intros Hsmall;
    solve [left; split; [lia | reflexivity]
          | right; split; [lia | reflexivity]].
Qed.

Lemma failing_batch_never_speeds_up_witness :
  let c := mkController 3 1100 0 2 true 4 in
  let c' := fst (adjust c 3 1 4) in
  currentDelay c <= currentDelay c' <= currentDelay c + 400 /\
  (currentDelay c <= 1800 -> currentDelay c + 200 <= currentDelay c') /\
  lastFailureCount c' = 1 /\
  (5 <= currentBatchSize c -> currentBatchSize c' <= currentBatchSize c) /\
  (currentBatchSize c < 5 ->
   currentBatchSize c' = 3 /\ failureRecoveryMode c' = true \/
   currentBatchSize c' = 5 /\
   failureRecoveryMode c' = failureRecoveryMode c).
Proof.
  apply (failing_batch_never_speeds_up (mkController 3 1100 0 2 true 4)
           3 1 4).
  - unfold bounded. simpl. lia.
  - lia.
Defined.
